(** * gcfg: assigning configuration tuples onto a schema object (set.go)

    A shallow embedding of [set.go].  The Go code drives everything through
    package [reflect]; the embedding makes the reflected objects explicit:

    - a [reflect.Type] is an [rtype] (a finite tree, with defined types
      carrying their name);
    - the memory the schema object lives in is a [heap] of cells; pointers
      and maps are references into it, so sharing is visible;
    - an addressable [reflect.Value] is a [Value]: a type and a place
      (a cell and a path of field indices into it);
    - a panic is the [Panic] outcome of the [result] type.

    The collaborators that are not part of [set.go] (Unicode tables, the
    value parsers of package [types], text unmarshalling, gob, the warnings
    collector) are the fields of the class [Lib]. *)

From Stdlib Require Import ZArith String Ascii List Bool Lia.
From stdpp Require Import base option list strings gmap.
Import ListNotations.
Local Open Scope string_scope.
Local Open Scope list_scope.

(** ** Reflected types *)

(** The kinds keep their Go names, [reflect.Bool], [reflect.String], ... *)
Module reflect.
Inductive Kind : Set :=
  | Bool | Int | Int8 | Int16 | Int32 | Int64
  | Uint | Uint8 | Uint16 | Uint32 | Uint64 | Uintptr
  | Float32 | Float64 | Complex64 | Complex128
  | Array | Chan | Func | Interface | Map | Ptr | Slice | String | Struct
  | UnsafePointer.

#[global] Instance Kind_eq_dec : EqDecision Kind.
Proof. solve_decision. Defined.
End reflect.
Abbreviation Kind := reflect.Kind.

(** A struct field as [reflect.StructField] shows it: its name, its type,
    the value of its [gcfg] tag key ([f.Tag.Get("gcfg")]) and whether it is
    exported (empty [PkgPath]).  Embedded (anonymous) fields are not
    modelled: every struct is a flat list of fields. *)
Record StructField_ (T : Type) : Type := mkField {
  FName : string;
  FType : T;
  FTag : string;
  FExported : bool
}.
Arguments mkField {T} _ _ _ _.
Arguments FName {T} _.
Arguments FType {T} _.
Arguments FTag {T} _.
Arguments FExported {T} _.

(** [TBool] ... [TString] are the predeclared types; [TNamed n u] is a
    defined type [type n u]; [TPtr], [TSlice], [TMap], [TStruct] are type
    literals; [TBigInt] is [math/big.Int]; [TOther n k] is any type of a
    kind the setter never looks into (floats, arrays, channels, ...), with
    its name. *)
#[warnings="-register-all"]
Inductive rtype : Type :=
  | TBool | TString
  | TInt | TInt8 | TInt16 | TInt32 | TInt64
  | TUint | TUint8 | TUint16 | TUint32 | TUint64 | TUintptr
  | TBigInt
  | TOther (name : string) (k : Kind)
  | TNamed (name : string) (u : rtype)
  | TPtr (e : rtype)
  | TSlice (e : rtype)
  | TMap (k e : rtype)
  | TStruct (fs : list (StructField_ rtype)).

Abbreviation StructField := (StructField_ rtype).

Section rtype_ind.
Variable P : rtype -> Prop.
Hypothesis HBool : P TBool.
Hypothesis HString : P TString.
Hypothesis HInt : P TInt.
Hypothesis HInt8 : P TInt8.
Hypothesis HInt16 : P TInt16.
Hypothesis HInt32 : P TInt32.
Hypothesis HInt64 : P TInt64.
Hypothesis HUint : P TUint.
Hypothesis HUint8 : P TUint8.
Hypothesis HUint16 : P TUint16.
Hypothesis HUint32 : P TUint32.
Hypothesis HUint64 : P TUint64.
Hypothesis HUintptr : P TUintptr.
Hypothesis HBigInt : P TBigInt.
Hypothesis HOther : forall n k, P (TOther n k).
Hypothesis HNamed : forall n u, P u -> P (TNamed n u).
Hypothesis HPtr : forall e, P e -> P (TPtr e).
Hypothesis HSlice : forall e, P e -> P (TSlice e).
Hypothesis HMap : forall k e, P k -> P e -> P (TMap k e).
Hypothesis HStruct : forall fs, Forall (fun f => P (FType f)) fs -> P (TStruct fs).

Fixpoint rtype_full_ind (t : rtype) : P t :=
  match t with
  | TBool => HBool | TString => HString
  | TInt => HInt | TInt8 => HInt8 | TInt16 => HInt16 | TInt32 => HInt32
  | TInt64 => HInt64
  | TUint => HUint | TUint8 => HUint8 | TUint16 => HUint16
  | TUint32 => HUint32 | TUint64 => HUint64 | TUintptr => HUintptr
  | TBigInt => HBigInt
  | TOther n k => HOther n k
  | TNamed n u => HNamed n u (rtype_full_ind u)
  | TPtr e => HPtr e (rtype_full_ind e)
  | TSlice e => HSlice e (rtype_full_ind e)
  | TMap k e => HMap k e (rtype_full_ind k) (rtype_full_ind e)
  | TStruct fs =>
      HStruct fs
        ((fix go (l : list StructField) : Forall (fun f => P (FType f)) l :=
            match l with
            | [] => List.Forall_nil _
            | f :: l' => List.Forall_cons _ f l' (rtype_full_ind (FType f)) (go l')
            end) fs)
  end.
End rtype_ind.

(** Identity of reflected types ([==] on [reflect.Type]). *)
Fixpoint rtype_eqb (a b : rtype) {struct a} : bool :=
  match a, b with
  | TBool, TBool | TString, TString
  | TInt, TInt | TInt8, TInt8 | TInt16, TInt16 | TInt32, TInt32
  | TInt64, TInt64
  | TUint, TUint | TUint8, TUint8 | TUint16, TUint16 | TUint32, TUint32
  | TUint64, TUint64 | TUintptr, TUintptr
  | TBigInt, TBigInt => true
  | TOther n k, TOther n' k' => bool_decide (n = n') && bool_decide (k = k')
  | TNamed n u, TNamed n' u' => bool_decide (n = n') && rtype_eqb u u'
  | TPtr e, TPtr e' => rtype_eqb e e'
  | TSlice e, TSlice e' => rtype_eqb e e'
  | TMap k e, TMap k' e' => rtype_eqb k k' && rtype_eqb e e'
  | TStruct fs, TStruct fs' =>
      (fix go (l l' : list StructField) {struct l} : bool :=
         match l, l' with
         | [], [] => true
         | f :: r, f' :: r' =>
             bool_decide (FName f = FName f') && rtype_eqb (FType f) (FType f')
             && bool_decide (FTag f = FTag f')
             && bool_decide (FExported f = FExported f') && go r r'
         | _, _ => false
         end) fs fs'
  | _, _ => false
  end.

Lemma rtype_eqb_eq (a b : rtype) : rtype_eqb a b = true <-> a = b.
Proof.
  revert b. induction a using rtype_full_ind; intros b; destruct b; simpl;
    try (split; [discriminate | discriminate]); try (split; congruence);
    try tauto.
  - rewrite andb_true_iff, !bool_decide_eq_true. split; [intros [-> ->]|intros [= -> ->]]; auto.
  - rewrite andb_true_iff, bool_decide_eq_true, IHa. split; [intros [-> ->]|intros [= -> ->]]; auto.
  - rewrite IHa. split; congruence.
  - rewrite IHa. split; congruence.
  - rewrite andb_true_iff, IHa1, IHa2. split; [intros [-> ->]|intros [= -> ->]]; auto.
  - revert fs0. induction H as [|f r Hf Hr IH]; intros [|f' r'];
      try (split; [discriminate | discriminate]); try tauto.
    rewrite !andb_true_iff, !bool_decide_eq_true, Hf, IH.
    destruct f, f'; simpl. split.
    + intros [[[[-> ->] ->] ->] [= ->]]. reflexivity.
    + intros [= -> -> -> -> ->]. auto.
Qed.

#[global] Instance rtype_eq_dec : EqDecision rtype.
Proof.
  intros a b. destruct (rtype_eqb a b) eqn:E.
  - left. apply rtype_eqb_eq, E.
  - right. intros H. apply rtype_eqb_eq in H. congruence.
Defined.

(** ** What package reflect reports about a type *)

(** The fields of [math/big.Int]: both unexported, neither tagged. *)
Definition bigIntFields : list StructField :=
  [ mkField "neg" TBool "" false;
    mkField "abs" (TNamed "nat" (TSlice (TNamed "Word" TUint))) "" false ].

(** [t.Kind()]. *)
Fixpoint kindOf (t : rtype) : Kind :=
  match t with
  | TBool => reflect.Bool | TString => reflect.String
  | TInt => reflect.Int | TInt8 => reflect.Int8 | TInt16 => reflect.Int16 | TInt32 => reflect.Int32
  | TInt64 => reflect.Int64
  | TUint => reflect.Uint | TUint8 => reflect.Uint8 | TUint16 => reflect.Uint16 | TUint32 => reflect.Uint32
  | TUint64 => reflect.Uint64 | TUintptr => reflect.Uintptr
  | TBigInt => reflect.Struct
  | TOther _ k => k
  | TNamed _ u => kindOf u
  | TPtr _ => reflect.Ptr
  | TSlice _ => reflect.Slice
  | TMap _ _ => reflect.Map
  | TStruct _ => reflect.Struct
  end.

(** [t.Name()]: empty for type literals. *)
Definition TypeName (t : rtype) : string :=
  match t with
  | TBool => "bool" | TString => "string"
  | TInt => "int" | TInt8 => "int8" | TInt16 => "int16" | TInt32 => "int32"
  | TInt64 => "int64"
  | TUint => "uint" | TUint8 => "uint8" | TUint16 => "uint16"
  | TUint32 => "uint32" | TUint64 => "uint64" | TUintptr => "uintptr"
  | TBigInt => "Int"
  | TOther n _ => n
  | TNamed n _ => n
  | TPtr _ | TSlice _ | TMap _ _ | TStruct _ => ""
  end.

(** The underlying type. *)
Fixpoint underlying (t : rtype) : rtype :=
  match t with
  | TNamed _ u => underlying u
  | _ => t
  end.

(** [t.Elem()]; [None] where reflect panics. *)
Definition Elem (t : rtype) : option rtype :=
  match underlying t with
  | TPtr e | TSlice e | TMap _ e => Some e
  | _ => None
  end.

(** [t.Key()]; [None] where reflect panics. *)
Definition Key (t : rtype) : option rtype :=
  match underlying t with
  | TMap k _ => Some k
  | _ => None
  end.

(** The fields of a struct type; [None] when the type is not a struct. *)
Definition fieldsOf (t : rtype) : option (list StructField) :=
  match underlying t with
  | TStruct fs => Some fs
  | TBigInt => Some bigIntFields
  | _ => None
  end.

(** Assignability as [reflect.Value.Set], [SetMapIndex] and [MapIndex]
    check it (interfaces apart): the types are identical, or at most one of
    them is named and their underlying types are identical. *)
Definition assignable (dst src : rtype) : bool :=
  bool_decide (dst = src)
  || (negb (negb (bool_decide (TypeName dst = ""))
            && negb (bool_decide (TypeName src = "")))
      && bool_decide (underlying dst = underlying src)).

(** ** Values and memory *)

Abbreviation addr := nat.

(** A place: a heap cell and a path of field indices into the value it
    holds. *)
Definition place : Type := addr * list nat.

(** Integers of every width are [VInt]; a slice is the list of its
    elements (a nil slice is the empty list); pointers and maps are
    references ([None] is nil). *)
#[warnings="-register-all"]
Inductive value : Type :=
  | VBool (b : bool)
  | VInt (z : Z)
  | VString (s : string)
  | VBig (z : Z)
  | VPtr (p : option place)
  | VSlice (l : list value)
  | VMap (m : option addr)
  | VStruct (fs : list value)
  | VOther (n : nat).

Section value_ind.
Variable P : value -> Prop.
Hypothesis HBool : forall b, P (VBool b).
Hypothesis HInt : forall z, P (VInt z).
Hypothesis HString : forall s, P (VString s).
Hypothesis HBig : forall z, P (VBig z).
Hypothesis HPtr : forall p, P (VPtr p).
Hypothesis HSlice : forall l, Forall P l -> P (VSlice l).
Hypothesis HMap : forall m, P (VMap m).
Hypothesis HStruct : forall fs, Forall P fs -> P (VStruct fs).
Hypothesis HOther : forall n, P (VOther n).

Fixpoint value_full_ind (v : value) : P v :=
  let go := fix go (l : list value) : Forall P l :=
    match l with
    | [] => List.Forall_nil _
    | x :: l' => List.Forall_cons _ x l' (value_full_ind x) (go l')
    end in
  match v with
  | VBool b => HBool b
  | VInt z => HInt z
  | VString s => HString s
  | VBig z => HBig z
  | VPtr p => HPtr p
  | VSlice l => HSlice l (go l)
  | VMap m => HMap m
  | VStruct fs => HStruct fs (go fs)
  | VOther n => HOther n
  end.
End value_ind.

Inductive cell : Type :=
  | CVal (v : value)
  | CMap (m : gmap string value).

Abbreviation heap := (list cell).

(** The cells a value refers to. *)
Fixpoint refs (v : value) : list addr :=
  match v with
  | VPtr (Some p) => [p.1]
  | VMap (Some a) => [a]
  | VSlice l => flat_map refs l
  | VStruct fs => flat_map refs fs
  | _ => []
  end.

(** [reflect.Zero(t)]. *)
Fixpoint zero (t : rtype) : value :=
  match t with
  | TBool => VBool false
  | TString => VString ""
  | TInt | TInt8 | TInt16 | TInt32 | TInt64
  | TUint | TUint8 | TUint16 | TUint32 | TUint64 | TUintptr => VInt 0
  | TBigInt => VBig 0
  | TOther _ _ => VOther 0
  | TNamed _ u => zero u
  | TPtr _ => VPtr None
  | TSlice _ => VSlice []
  | TMap _ _ => VMap None
  | TStruct fs => VStruct (List.map (fun f => zero (FType f)) fs)
  end.

Fixpoint get_path (v : value) (p : list nat) : option value :=
  match p with
  | [] => Some v
  | i :: p' =>
      match v with
      | VStruct fs => match fs !! i with Some w => get_path w p' | None => None end
      | _ => None
      end
  end.

Fixpoint set_path (v : value) (p : list nat) (w : value) : option value :=
  match p with
  | [] => Some w
  | i :: p' =>
      match v with
      | VStruct fs =>
          match fs !! i with
          | Some x =>
              match set_path x p' w with
              | Some x' => Some (VStruct (<[i := x']> fs))
              | None => None
              end
          | None => None
          end
      | _ => None
      end
  end.

Definition load (h : heap) (pl : place) : option value :=
  match h !! pl.1 with
  | Some (CVal v) => get_path v pl.2
  | _ => None
  end.

Definition store (h : heap) (pl : place) (w : value) : option heap :=
  match h !! pl.1 with
  | Some (CVal v) =>
      match set_path v pl.2 w with
      | Some v' => Some (<[pl.1 := CVal v']> h)
      | None => None
      end
  | _ => None
  end.

(** Allocation takes the next free address. *)
Definition alloc (h : heap) (c : cell) : addr * heap := (List.length h, h ++ [c]).

(** An addressable [reflect.Value]: its type, where it lives, and whether
    it can be set ([v.CanSet()]: it was not reached through an unexported
    field). *)
Record Value : Type := mkValue {
  vtype : rtype;
  vplace : place;
  CanSet : bool
}.

(** [v.Field(i)] for the field [f] at index [i]. *)
Definition Field (v : Value) (i : nat) (f : StructField) : Value :=
  mkValue (FType f) ((vplace v).1, (vplace v).2 ++ [i])
          (CanSet v && FExported f).

(** ** Errors, diagnostics, panics *)

(** The errors the setters produce: the two package-level error values
    (compared by identity in [set]) and errors made by a collaborator,
    known by their message. *)
Inductive error : Type :=
  | errUnsupportedType
  | errBlankUnsupported
  | errorString (msg : string).

#[global] Instance error_eq_dec : EqDecision error.
Proof. solve_decision. Defined.

(** [err.Error()]. *)
Definition Error (e : error) : string :=
  match e with
  | errUnsupportedType => "unsupported type"
  | errBlankUnsupported => "blank value not supported for type"
  | errorString m => m
  end.

(** [loc], [extraData] and [locErr] are declared outside [set.go]; their
    shape is the one [set] builds them with. *)
Record loc : Type := mkLoc {
  section : string;
  subsection : option string;
  variable : option string
}.

#[global] Instance loc_eq_dec : EqDecision loc.
Proof. solve_decision. Defined.

(** What [set] returns or hands to the collector.  [extraFieldTypeErr t]
    is the [fmt.Errorf] of [setExtraDataInSection], [otherErr] an error of
    the gob round trip. *)
Inductive diagnostic : Type :=
  | extraData (l : loc)
  | locErr (msg : string) (l : loc)
  | extraFieldTypeErr (t : rtype)
  | otherErr (msg : string).

#[global] Instance diagnostic_eq_dec : EqDecision diagnostic.
Proof. solve_decision. Defined.

Inductive panic : Type :=
  | PanicConfig
      (* "config must be a pointer to a struct" *)
  | PanicMapField (sect : string)
      (* "map field for section must have string keys and pointer-to-struct
         or string values" *)
  | PanicSectField (sect : string)
      (* "field for section must be a map or a struct" *)
  | PanicReflect (what : string)
      (* a panic raised inside package reflect *)
  | PanicLib (what : string)
      (* a panic raised by a collaborator *)
  | PanicNilError
      (* calling Error() on a nil error *)
  | IllTyped.
      (* the heap holds no value of the expected shape at a place; the
         memory of a Go program never does *)

Inductive result (A : Type) : Type :=
  | Ok (a : A)
  | Panic (p : panic).
Arguments Ok {A} _.
Arguments Panic {A} _.

#[global] Instance result_ret : MRet result := fun A a => Ok a.
#[global] Instance result_bind : MBind result :=
  fun A B f m => match m with Ok a => f a | Panic p => Panic p end.

(** An option that must be there. *)
Definition must {A} (o : option A) : result A :=
  match o with Some a => Ok a | None => Panic IllTyped end.

(** ** Package types: integer modes *)

(** Modelled from the spec: the [IntMode] flags of package [types], which
    is not among the sources.  The spec gives the three bases as
    independent flags that can be combined; [set.go] combines them with
    [|=] and tests the result against 0. *)
Definition IntMode := Z.
Definition Dec : IntMode := 1%Z.
Definition Hex : IntMode := 2%Z.
Definition Oct : IntMode := 4%Z.

(** ** Collaborators *)

(** What a collaborator that is given a destination pointer does: it
    panics, or it leaves a value in the destination and returns an error
    or nil. *)
Inductive ext : Type :=
  | ExtPanic (what : string)
  | ExtRet (v : value) (err : option string).

Class Lib : Type := {
  (* unicode/utf8, unicode, strings *)
  DecodeRuneInString : string -> Z;
  IsLetter : Z -> bool;
  IsLower : Z -> bool;
  IsUpper : Z -> bool;
  EqualFold : string -> string -> bool;
  (* package types; the arguments are the destination's type, the value
     it holds, the text and, for ParseInt, the mode, for ScanFully, the
     verb *)
  ParseBool : string -> bool + string;
  ParseInt : rtype -> value -> string -> IntMode -> ext;
  ScanFully : rtype -> value -> string -> ascii -> ext;
  (* the UnmarshalText method of a defined type, if it has one *)
  UnmarshalText : rtype -> option (value -> string -> ext);
  (* encoding/gob: EncodeValue of a value into a buffer, DecodeValue from
     the buffer into the cell at an address *)
  Buffer : Type;
  EncodeValue : heap -> rtype -> value -> result (Buffer * option string);
  DecodeValue : Buffer -> rtype -> addr -> heap -> heap * option string;
  (* gopkg.in/warnings.v0: Collect of a non-nil error *)
  Collector : Type;
  Collect : Collector -> diagnostic -> Collector * option diagnostic
}.

(** ** Strings *)

(** [strings.Split(s, sep)] for a one-byte separator. *)
Fixpoint Split (s : string) (sep : ascii) : list string :=
  match s with
  | EmptyString => [""]
  | String a s' =>
      if Ascii.eqb a sep then "" :: Split s' sep
      else match Split s' sep with
           | x :: r => String a x :: r
           | [] => [String a ""]
           end
  end.

(** [strings.HasPrefix(s, prefix)]. *)
Definition HasPrefix (s prefix : string) : bool := String.prefix prefix s.

(** [s[n:]]. *)
Fixpoint sliceFrom (n : nat) (s : string) : string :=
  match n, s with
  | O, _ => s
  | S n', String _ s' => sliceFrom n' s'
  | S _, EmptyString => EmptyString
  end.

Fixpoint hasByte (c : ascii) (s : string) : bool :=
  match s with
  | EmptyString => false
  | String a s' => Ascii.eqb a c || hasByte c s'
  end.

(** [strings.ContainsAny(s, chars)] for one-byte characters. *)
Fixpoint ContainsAny (s chars : string) : bool :=
  match s with
  | EmptyString => false
  | String a s' => hasByte a chars || ContainsAny s' chars
  end.

(** [strings.Replace(s, old, new, -1)] for one-byte [old] and [new]. *)
Fixpoint Replace (s : string) (old new : ascii) : string :=
  match s with
  | EmptyString => EmptyString
  | String a s' =>
      String (if Ascii.eqb a old then new else a) (Replace s' old new)
  end.

(** ** Tags (lines 18-33) *)

Record tag : Type := mkTag { t_ident : string; t_intMode : string }.

Definition newTag (ts : string) : tag :=
  let s := Split ts "," in
  fold_left
    (fun t tse =>
       if HasPrefix tse "int=" then mkTag (t_ident t) (sliceFrom 4 tse)
       else t)
    (tl s) (mkTag (hd "" s) "").

Section WithLib.
Context {L : Lib}.

(** ** Field resolution (lines 35-57) *)

(** [Type.FieldByName] on a flat struct: the field of that name and its
    index. *)
Definition FieldByName (fs : list StructField) (name : string)
  : option (nat * StructField) :=
  list_find (fun f => FName f = name) fs.

(** [Type.FieldByNameFunc] on a flat struct: the field whose name
    satisfies [match_] when exactly one does; when several do they cancel
    each other and no field is found. *)
Definition FieldByNameFunc (fs : list StructField) (match_ : string -> bool)
  : option StructField :=
  match List.filter (fun f => match_ (FName f)) fs with
  | [f] => Some f
  | _ => None
  end.

(** The name [n] that field names are compared with. *)
Definition foldName (name : string) : string :=
  let r0 := DecodeRuneInString name in
  String.append
    (if IsLetter r0 && negb (IsLower r0) && negb (IsUpper r0) then "X" else "")
    (Replace name "-" "_").

(** The function handed to [FieldByNameFunc]. *)
Definition foldMatch (v : Value) (fs : list StructField)
    (name fieldName : string) : bool :=
  match FieldByName fs fieldName with
  | None => false (* the zero Value cannot be set *)
  | Some (i, f) =>
      if negb (CanSet (Field v i f)) then false
      else
        let t := newTag (FTag f) in
        if negb (String.eqb (t_ident t) "") then EqualFold (t_ident t) name
        else EqualFold (foldName name) fieldName
  end.

(** [fieldFold]: the zero [reflect.Value] is [None]. *)
Definition fieldFold (v : Value) (name : string)
  : result (option Value * tag) :=
  match fieldsOf (vtype v) with
  | None => Panic (PanicReflect "FieldByNameFunc of non-struct type")
  | Some fs =>
      match FieldByNameFunc fs (foldMatch v fs name) with
      | None => Ok (None, mkTag "" "")
      | Some f =>
          Ok (match FieldByName fs (FName f) with
              | Some (i, f') => Some (Field v i f')
              | None => None
              end,
              newTag (FTag f))
      end
  end.

(** ** Setters (lines 59-194) *)

(** A setter is given the destination pointer [d] (the type it points to
    and the place it points at), [blank], the text and the tag. *)
Definition setter : Type :=
  Value -> bool -> string -> tag -> heap -> result (heap * option error).

(** A collaborator is run on the value the destination holds and what it
    leaves is stored there. *)
Definition callExt (d : Value) (f : value -> ext) (h : heap)
  : result (heap * option error) :=
  cur ← must (load h (vplace d));
  match f cur with
  | ExtPanic what => Panic (PanicLib what)
  | ExtRet v err =>
      h' ← must (store h (vplace d) v);
      Ok (h', option_map errorString err)
  end.

(** [reflect.ValueOf(d).Elem().Set(reflect.ValueOf(x))] for [x] of type
    [t]. *)
Definition SetValueOf (d : Value) (t : rtype) (x : value) (h : heap)
  : result heap :=
  if assignable (vtype d) t then must (store h (vplace d) x)
  else Panic (PanicReflect "reflect.Set: value is not assignable to type").

(** The types with methods are the defined ones. *)
Definition methodUnmarshalText (t : rtype) : option (value -> string -> ext) :=
  match t with
  | TNamed _ _ | TBigInt | TOther _ _ => UnmarshalText t
  | _ => None
  end.

Definition textUnmarshalerSetter : setter := fun d blank val t h =>
  match methodUnmarshalText (vtype d) with
  | None => Ok (h, Some errUnsupportedType)
  | Some dtu =>
      if blank then Ok (h, Some errBlankUnsupported)
      else callExt d (fun cur => dtu cur val) h
  end.

Definition boolSetter : setter := fun d blank val t h =>
  if blank then
    h' ← SetValueOf d TBool (VBool true) h;
    Ok (h', None)
  else
    match ParseBool val with
    | inl b =>
        h' ← SetValueOf d TBool (VBool b) h;
        Ok (h', None)
    | inr msg => Ok (h, Some (errorString msg))
    end.

Definition intMode (mode : string) : IntMode :=
  let m := 0%Z in
  let m := if ContainsAny mode "dD" then Z.lor m Dec else m in
  let m := if ContainsAny mode "hH" then Z.lor m Hex else m in
  let m := if ContainsAny mode "oO" then Z.lor m Oct else m in
  m.

(** A Go map literal keyed by [reflect.Type] or [reflect.Kind] is the
    list of its entries. *)
Definition lookupBy {K V : Type} `{EqDecision K} (k : K) (m : list (K * V))
  : option V :=
  option_map snd (List.find (fun kv => bool_decide (kv.1 = k)) m).

Definition typeModes : list (rtype * IntMode) :=
  [ (TInt, Z.lor Dec Hex);
    (TInt8, Z.lor Dec Hex);
    (TInt16, Z.lor Dec Hex);
    (TInt32, Z.lor Dec Hex);
    (TInt64, Z.lor Dec Hex);
    (TUint, Z.lor Dec Hex);
    (TUint8, Z.lor Dec Hex);
    (TUint16, Z.lor Dec Hex);
    (TUint32, Z.lor Dec Hex);
    (TUint64, Z.lor Dec Hex);
    (* use default mode (allow dec/hex/oct) for uintptr type *)
    (TBigInt, Z.lor Dec Hex) ].

Definition intModeDefault (t : rtype) : IntMode :=
  match lookupBy t typeModes with
  | Some m => m
  | None => Z.lor (Z.lor Dec Hex) Oct
  end.

Definition intSetter : setter := fun d blank val t h =>
  if blank then Ok (h, Some errBlankUnsupported)
  else
    let mode := intMode (t_intMode t) in
    let mode := if Z.eqb mode 0 then intModeDefault (vtype d) else mode in
    callExt d (fun cur => ParseInt (vtype d) cur val mode) h.

Definition stringSetter : setter := fun d blank val t h =>
  if blank then Ok (h, Some errBlankUnsupported)
  else if bool_decide (vtype d = TString) then
    h' ← must (store h (vplace d) (VString val));
    Ok (h', None)
  else Ok (h, Some errUnsupportedType).

Definition kindSetters : list (Kind * setter) :=
  [ (reflect.String, stringSetter);
    (reflect.Bool, boolSetter);
    (reflect.Int, intSetter);
    (reflect.Int8, intSetter);
    (reflect.Int16, intSetter);
    (reflect.Int32, intSetter);
    (reflect.Int64, intSetter);
    (reflect.Uint, intSetter);
    (reflect.Uint8, intSetter);
    (reflect.Uint16, intSetter);
    (reflect.Uint32, intSetter);
    (reflect.Uint64, intSetter);
    (reflect.Uintptr, intSetter) ].

Definition typeSetters : list (rtype * setter) :=
  [ (TBigInt, intSetter) ].

Definition typeSetter : setter := fun d blank val tt h =>
  let t := vtype d in
  match lookupBy t typeSetters with
  | None => Ok (h, Some errUnsupportedType)
  | Some setter => setter d blank val tt h
  end.

Definition kindSetter : setter := fun d blank val tt h =>
  let k := kindOf (vtype d) in
  match lookupBy k kindSetters with
  | None => Ok (h, Some errUnsupportedType)
  | Some setter => setter d blank val tt h
  end.

Definition scanSetter : setter := fun d blank val tt h =>
  if blank then Ok (h, Some errBlankUnsupported)
  else callExt d (fun cur => ScanFully (vtype d) cur val "v"%char) h.

Definition setters : list setter :=
  [ typeSetter; textUnmarshalerSetter; kindSetter; scanSetter ].


(** ** New subsection values (lines 196-215) *)

(** [c.Collect(err)]: a nil error is returned as it is. *)
Definition collect (c : Collector) (err : option diagnostic)
  : Collector * option diagnostic :=
  match err with
  | None => (c, None)
  | Some e => Collect c e
  end.

(** [newValue] returns the pointer [pv] to the new value (it points at a
    whole cell) and an error. *)
Definition newValue (c : Collector) (sect : string) (vCfg : Value)
    (vType : rtype) (h : heap)
  : result (heap * Collector * place * option diagnostic) :=
  let '(a, h) := alloc h (CVal (zero vType)) in
  let pv : place := (a, []) in
  let dfltName := String.append "default-" sect in
  '(dfltField, _) ← fieldFold vCfg dfltName;
  match dfltField with
  | None => Ok (h, c, pv, None)
  | Some dfltField =>
      dv ← must (load h (vplace dfltField));
      '(b, eerr) ← EncodeValue h (vtype dfltField) dv;
      let '(c, err) := collect c (option_map otherErr eerr) in
      match err with
      | Some e => Ok (h, c, pv, Some e)
      | None =>
          let '(h, derr) := DecodeValue b vType a h in
          let '(c, err) := collect c (option_map otherErr derr) in
          match err with
          | Some e => Ok (h, c, pv, Some e)
          | None => Ok (h, c, pv, None)
          end
      end
  end.

(** ** Operations of package reflect on values in memory *)

(** [v.Set(x)] for an [x] of [v]'s own type. *)
Definition SetV (v : Value) (x : value) (h : heap) : result heap :=
  if CanSet v then must (store h (vplace v) x)
  else Panic (PanicReflect "reflect.Value.Set using unexported field").

(** The reference a map-kinded value holds ([None]: [v.IsNil()]). *)
Definition loadMap (h : heap) (v : Value) : result (option addr) :=
  x ← must (load h (vplace v));
  match x with
  | VMap m => Ok m
  | _ => Panic IllTyped
  end.

(** The reference a pointer-kinded value holds. *)
Definition loadPtr (h : heap) (v : Value) : result (option place) :=
  x ← must (load h (vplace v));
  match x with
  | VPtr p => Ok p
  | _ => Panic IllTyped
  end.

Definition mapCell (h : heap) (a : addr) : result (gmap string value) :=
  match h !! a with
  | Some (CMap m) => Ok m
  | _ => Panic IllTyped
  end.

(** [v.Set(reflect.MakeMap(v.Type()))]. *)
Definition SetMakeMap (v : Value) (h : heap) : result (addr * heap) :=
  let '(a, h) := alloc h (CMap ∅) in
  h ← SetV v (VMap (Some a)) h;
  Ok (a, h).

(** [v.SetMapIndex(reflect.ValueOf(k), x)] on the map at [a], for a key
    of type string and an [x] of type [xt]: the map must have been reached
    through exported fields and the key and the element must be assignable
    to the map's key and element types. *)
Definition SetMapIndex (v : Value) (a : addr) (k : string) (xt : rtype)
    (x : value) (h : heap) : result heap :=
  if negb (CanSet v) then
    Panic (PanicReflect "reflect.Value.SetMapIndex using unexported field")
  else
    match Key (vtype v), Elem (vtype v) with
    | Some kt, Some et =>
        if assignable kt TString && assignable et xt then
          m ← mapCell h a;
          Ok (<[a := CMap (<[k := x]> m)]> h)
        else Panic (PanicReflect "reflect.Value.SetMapIndex: value is not assignable")
    | _, _ => Panic (PanicReflect "reflect: Key of non-map type")
    end.

(** [v.MapIndex(reflect.ValueOf(k))] on the map at [a]: [None] is the zero
    Value of an absent key. *)
Definition MapIndex (v : Value) (a : addr) (k : string) (h : heap)
  : result (option value) :=
  match Key (vtype v) with
  | Some kt =>
      if assignable kt TString then
        m ← mapCell h a;
        Ok (m !! k)
      else Panic (PanicReflect "reflect.Value.MapIndex: value is not assignable")
  | None => Panic (PanicReflect "reflect: Key of non-map type")
  end.

(** ** Multi-valued fields (lines 345-349) *)

Definition isMultiVal (v : Value) : bool :=
  let t := vtype v in
  String.eqb (TypeName t) "" && bool_decide (kindOf t = reflect.Slice)
  || String.eqb (TypeName t) "" && bool_decide (kindOf t = reflect.Ptr)
     && match Elem t with
        | Some e =>
            String.eqb (TypeName e) "" && bool_decide (kindOf e = reflect.Slice)
        | None => false
        end.

(** ** Extra data (lines 351-391) *)

(** [findExtraDataField]: the last field tagged [extra_values]; [None] is
    the nil pointer. *)
Definition findExtraDataField (vSect : Value) : result (option Value) :=
  match fieldsOf (vtype vSect) with
  | None => Panic (PanicReflect "reflect: NumField of non-struct type")
  | Some fs =>
      Ok (fold_left
            (fun value '(i, f) =>
               if String.eqb (FTag f) "extra_values"
               then Some (Field vSect i f) else value)
            (imap pair fs) None)
  end.

(** [extraData{}]. *)
Definition noLoc : loc := mkLoc "" None None.

Definition setExtraDataInSection (vSect : Value) (key value : string)
    (l : loc) (h : heap) : result (heap * bool * diagnostic) :=
  o ← findExtraDataField vSect;
  match o with
  | None => Ok (h, true, extraData l)
  | Some extraDataField =>
      if bool_decide (vtype extraDataField = TMap TString TString) then
        m ← loadMap h extraDataField;
        match m with
        | None =>
            let '(a, h) := alloc h (CMap {[ key := VString value ]}) in
            h ← SetV extraDataField (VMap (Some a)) h;
            Ok (h, false, extraData noLoc)
        | Some a =>
            h ← SetMapIndex extraDataField a key TString (VString value) h;
            Ok (h, false, extraData noLoc)
        end
      else if bool_decide (vtype extraDataField = TMap TString (TSlice TString))
      then
        m ← loadMap h extraDataField;
        match m with
        | None =>
            let '(a, h) :=
              alloc h (CMap {[ key := VSlice [VString value] ]}) in
            h ← SetV extraDataField (VMap (Some a)) h;
            Ok (h, false, extraData noLoc)
        | Some a =>
            v ← MapIndex extraDataField a key h;
            match v with
            | Some v =>
                if negb (CanSet extraDataField) then
                  Panic (PanicReflect "reflect.Value.Interface: unexported field")
                else
                  match v with
                  | VSlice vs =>
                      h ← SetMapIndex extraDataField a key (TSlice TString)
                            (VSlice (vs ++ [VString value])) h;
                      Ok (h, false, extraData noLoc)
                  | _ => Panic IllTyped
                  end
            | None =>
                h ← SetMapIndex extraDataField a key (TSlice TString)
                      (VSlice [VString value]) h;
                Ok (h, false, extraData noLoc)
            end
        end
      else Ok (h, true, extraFieldTypeErr (vtype extraDataField))
  end.

(** ** The assignment engine (lines 217-343) *)

(** The loop over the setters and the test that follows it (lines
    321-335): [None] when a setter succeeded, the [locErr] that [set]
    returns otherwise.  [err] is the error of the setter tried last. *)
Fixpoint trySetters (ss : list setter) (err : option error) (d : Value)
    (blank : bool) (value : string) (t : tag) (l : loc) (h : heap)
  : result (heap * option diagnostic) :=
  match ss with
  | [] =>
      match err with
      | Some e => Ok (h, Some (locErr (Error e) l))
      | None => Panic PanicNilError
      end
  | s :: ss' =>
      '(h, err) ← s d blank value t h;
      match err with
      | None => Ok (h, None)
      | Some e =>
          if bool_decide (e = errUnsupportedType)
          then trySetters ss' (Some e) d blank value t l h
          else Ok (h, Some (locErr (Error e) l))
      end
  end.

(** Lines 299-342: [vVar] is the variable, or the slice it points to
    when it is a pointer to a slice; [isMulti] tells whether the variable
    is multi-valued. *)
Definition setResolved (isMulti : bool) (vVar : Value) (t : tag) (l : loc)
    (blank : bool) (value : string) (h : heap)
  : result (heap * option diagnostic) :=
  if isMulti && blank then
    h ← SetV vVar (zero (vtype vVar)) h;
    Ok (h, None)
  else
    (* vVal is either single-valued var, or newly allocated value within
       multi-valued var *)
    '(vVal, h) ←
      (if isMulti then
         e ← must (Elem (vtype vVar));
         let '(a, h) := alloc h (CVal (zero e)) in
         Ok (mkValue e (a, []) true, h)
       else Ok (vVar, h));
    let isDeref :=
      String.eqb (TypeName (vtype vVal)) ""
      && bool_decide (kindOf (vtype vVal) = reflect.Ptr) in
    cur ← (if isDeref then loadPtr h vVal else Ok None);
    let isNew := isDeref && bool_decide (cur = None) in
    (* vAddr is the address of the value to set: the setters get the type
       it points to and the place it points at *)
    '(vAddr, h) ←
      (if isNew then
         e ← must (Elem (vtype vVal));
         let '(a, h) := alloc h (CVal (zero e)) in
         Ok (mkValue e (a, []) true, h)
       else if isDeref then
         e ← must (Elem (vtype vVal));
         p ← must cur;
         Ok (mkValue e p true, h)
       else Ok (mkValue (vtype vVal) (vplace vVal) true, h));
    '(h, err) ← trySetters setters None vAddr blank value t l h;
    match err with
    | Some e => Ok (h, Some e)
    | None =>
        (* set reference if it was dereferenced and newly allocated *)
        h ← (if isNew then SetV vVal (VPtr (Some (vplace vAddr))) h
             else Ok h);
        (* append if multi-valued *)
        h ← (if isMulti then
               s ← must (load h (vplace vVar));
               x ← must (load h (vplace vVal));
               match s with
               | VSlice xs => SetV vVar (VSlice (xs ++ [x])) h
               | _ => Panic IllTyped
               end
             else Ok h);
        Ok (h, None)
    end.

(** Lines 290-342: the variable [vVar] has been found.  Lines 292-298
    replace a multi-valued pointer by the slice it points to, allocating
    the slice first if the pointer is nil. *)
Definition setValue (vVar : Value) (t : tag) (l : loc) (blank : bool)
    (value : string) (h : heap) : result (heap * option diagnostic) :=
  let isMulti := isMultiVal vVar in
  '(vVar, h) ←
    (if isMulti && bool_decide (kindOf (vtype vVar) = reflect.Ptr) then
       e ← must (Elem (vtype vVar));
       p ← loadPtr h vVar;
       match p with
       | None =>
           let '(a, h) := alloc h (CVal (zero e)) in
           h ← SetV vVar (VPtr (Some (a, []))) h;
           Ok (mkValue e (a, []) true, h)
       | Some p => Ok (mkValue e p true, h)
       end
     else Ok (vVar, h));
  setResolved isMulti vVar t l blank value h.

(** Lines 277-342: the section or subsection object [vSect] has been
    found ([None] is the zero Value that [pv.Elem()] gives for a nil
    pointer). *)
Definition setVariable (c : Collector) (vSect : option Value) (l : loc)
    (name : string) (blank : bool) (value : string) (h : heap)
  : result (heap * Collector * option diagnostic) :=
  if String.eqb name "" then Ok (h, c, None)
  else
    match vSect with
    | None => Panic (PanicReflect "call of reflect.Value.Type on zero Value")
    | Some vSect =>
        '(vVar, t) ← fieldFold vSect name;
        let l := mkLoc (section l) (subsection l) (Some name) in
        match vVar with
        | None =>
            '(h, ok, err) ← setExtraDataInSection vSect name value l h;
            if ok : bool then
              let '(c, r) := Collect c err in Ok (h, c, r)
            else Ok (h, c, None)
        | Some vVar =>
            '(h, err) ← setValue vVar t l blank value h;
            Ok (h, c, err)
        end
    end.

(** The [cfg] argument: the dynamic type and the value of the interface.
    [cfgStruct] is [vPCfg.Elem()] when [cfg] is a pointer to a struct. *)
Definition cfgStruct (cfg : rtype * value) : option Value :=
  if bool_decide (kindOf cfg.1 = reflect.Ptr) then
    match cfg.2, Elem cfg.1 with
    | VPtr (Some p), Some s =>
        if bool_decide (kindOf s = reflect.Struct)
        then Some (mkValue s p true) else None
    | _, _ => None
    end
  else None.

Definition set (c : Collector) (cfg : rtype * value)
    (sect sub name : string) (blank : bool) (value : string)
    (subsectPass : bool) (h : heap)
  : result (heap * Collector * option diagnostic) :=
  match cfgStruct cfg with
  | None => Panic PanicConfig
  | Some vCfg =>
      '(vSect, _) ← fieldFold vCfg sect;
      let l := mkLoc sect None None in
      match vSect with
      | None =>
          let err := extraData l in
          let '(c, r) := Collect c err in Ok (h, c, r)
      | Some vSect =>
          let isSubsect := bool_decide (kindOf (vtype vSect) = reflect.Map) in
          if negb (Bool.eqb subsectPass isSubsect) then Ok (h, c, None)
          else if isSubsect then
            let l := mkLoc sect (Some sub) None in
            let vst := vtype vSect in
            kt ← must (Key vst);
            et ← must (Elem vst);
            if bool_decide (kindOf kt = reflect.String)
               && bool_decide (kindOf et = reflect.String) then
              m ← loadMap h vSect;
              '(a, h) ← (match m with
                         | None => SetMakeMap vSect h
                         | Some a => Ok (a, h)
                         end);
              if negb (String.eqb value "") then
                h ← (if negb (String.eqb sub "") then
                       SetMapIndex vSect a
                         (String.append sub (String.append " " name))
                         TString (VString value) h
                     else
                       SetMapIndex vSect a name TString (VString value) h);
                Ok (h, c, None)
              else Ok (h, c, None)
            else if negb (bool_decide (kindOf kt = reflect.String))
                    || negb (bool_decide (kindOf et = reflect.Ptr))
                    || negb (bool_decide
                               (option_map kindOf (Elem et) = Some reflect.Struct))
            then Panic (PanicMapField sect)
            else
              m ← loadMap h vSect;
              '(a, h) ← (match m with
                         | None => SetMakeMap vSect h
                         | Some a => Ok (a, h)
                         end);
              pv ← MapIndex vSect a sub h;
              vType ← must (Elem et);
              match pv with
              | Some pv =>
                  match pv with
                  | VPtr p =>
                      setVariable c
                        (option_map (fun p => mkValue vType p true) p)
                        l name blank value h
                  | _ => Panic IllTyped
                  end
              | None =>
                  '(h, c, pv, err) ← newValue c sect vCfg vType h;
                  match err with
                  | Some e => Ok (h, c, Some e)
                  | None =>
                      h ← SetMapIndex vSect a sub (TPtr vType)
                            (VPtr (Some pv)) h;
                      setVariable c (Some (mkValue vType pv true))
                        l name blank value h
                  end
              end
          else if negb (bool_decide (kindOf (vtype vSect) = reflect.Struct))
          then Panic (PanicSectField sect)
          else if negb (String.eqb sub "") then
            let '(c, r) := Collect c (extraData l) in Ok (h, c, r)
          else setVariable c (Some vSect) l name blank value h
      end
  end.

End WithLib.

(** ** A sample library

    One concrete choice of collaborators, used to run [set] on examples:
    ASCII case folding, a decimal integer parser, a collector in the
    manner of gcfg's own (an [extraData] is a warning, any other error is
    fatal and handed back), and a gob that carries values holding no
    references. *)
Module Sample.

Definition isUpperB (a : ascii) : bool :=
  (65 <=? nat_of_ascii a)%nat && (nat_of_ascii a <=? 90)%nat.
Definition isLowerB (a : ascii) : bool :=
  (97 <=? nat_of_ascii a)%nat && (nat_of_ascii a <=? 122)%nat.
Definition toLowerB (a : ascii) : ascii :=
  if isUpperB a then ascii_of_nat (nat_of_ascii a + 32) else a.

Fixpoint equalFold (s t : string) : bool :=
  match s, t with
  | EmptyString, EmptyString => true
  | String a s', String b t' =>
      Ascii.eqb (toLowerB a) (toLowerB b) && equalFold s' t'
  | _, _ => false
  end.

Definition decodeRune (s : string) : Z :=
  match s with
  | EmptyString => 65533
  | String a _ => Z.of_nat (nat_of_ascii a)
  end.

Definition isUpperZ (r : Z) : bool := (65 <=? r)%Z && (r <=? 90)%Z.
Definition isLowerZ (r : Z) : bool := (97 <=? r)%Z && (r <=? 122)%Z.

Definition parseBool (s : string) : bool + string :=
  if existsb (String.eqb s) ["true"; "yes"; "on"; "1"] then inl true
  else if existsb (String.eqb s) ["false"; "no"; "off"; "0"] then inl false
  else inr "failed to parse bool".

Fixpoint parseDigits (s : string) (acc : Z) : option Z :=
  match s with
  | EmptyString => Some acc
  | String a s' =>
      let n := nat_of_ascii a in
      if (48 <=? n)%nat && (n <=? 57)%nat
      then parseDigits s' (10 * acc + Z.of_nat (n - 48))
      else None
  end.

Definition parseInt (t : rtype) (cur : value) (s : string) (m : IntMode)
  : ext :=
  match s with
  | EmptyString => ExtRet cur (Some "failed to parse int")
  | _ =>
      match parseDigits s 0 with
      | Some z => ExtRet (match t with TBigInt => VBig z | _ => VInt z end) None
      | None => ExtRet cur (Some "failed to parse int")
      end
  end.

Definition scanFully (t : rtype) (cur : value) (s : string) (verb : ascii)
  : ext :=
  match underlying t with
  | TString => ExtRet (VString s) None
  | _ => ExtRet cur (Some "can't scan type")
  end.

(** [Flag] is a defined boolean type with an [UnmarshalText] method that
    accepts only the text [set]. *)
Definition Flag : rtype := TNamed "Flag" TBool.

Definition unmarshalText (t : rtype) : option (value -> string -> ext) :=
  if bool_decide (t = Flag) then
    Some (fun cur s =>
            if String.eqb s "set" then ExtRet (VBool true) None
            else ExtRet cur (Some "bad flag"))
  else None.

(** Values that hold no reference. *)
Fixpoint flat (v : value) : bool :=
  match v with
  | VPtr p => bool_decide (p = None)
  | VMap m => bool_decide (m = None)
  | VSlice l => forallb flat l
  | VStruct fs => forallb flat fs
  | _ => true
  end.

Definition encodeValue (h : heap) (t : rtype) (v : value)
  : result (option value * option string) :=
  if flat v then Ok (Some v, None)
  else Ok (None, Some "gob: references are not carried").

Definition decodeValue (b : option value) (t : rtype) (a : addr) (h : heap)
  : heap * option string :=
  match b with
  | Some v =>
      if flat v then (<[a := CVal v]> h, None)
      else (h, Some "gob: references are not carried")
  | None => (h, Some "EOF")
  end.

Definition collectWarn (c : list diagnostic) (e : diagnostic)
  : list diagnostic * option diagnostic :=
  match e with
  | extraData _ => (c ++ [e], None)
  | _ => (c, Some e)
  end.

#[global] Instance lib : Lib := {|
  DecodeRuneInString := decodeRune;
  IsLetter := fun r => isUpperZ r || isLowerZ r;
  IsLower := isLowerZ;
  IsUpper := isUpperZ;
  EqualFold := equalFold;
  ParseBool := parseBool;
  ParseInt := parseInt;
  ScanFully := scanFully;
  UnmarshalText := unmarshalText;
  Buffer := option value;
  EncodeValue := encodeValue;
  DecodeValue := decodeValue;
  Collector := list diagnostic;
  Collect := collectWarn
|}.

(** The collector before anything is collected. *)
Definition noWarnings : @Collector lib := ([] : list diagnostic).

(** A schema:
<<
    type Core struct { Editor string; Bare bool; Depth int; Mask uintptr
                       Names []string; Limit *int; Seen Flag }
    type Remote struct { Url string; Fetch []string
                         Extra map[string]string `gcfg:"extra_values"` }
    type Config struct {
        Core Core
        Default_Remote Remote
        Remote map[string]*Remote
        Alias map[string]string
    }
>> *)
Definition Core : rtype :=
  TNamed "Core" (TStruct
    [ mkField "Editor" TString "" true;
      mkField "Bare" TBool "" true;
      mkField "Depth" TInt "" true;
      mkField "Mask" TUintptr "" true;
      mkField "Names" (TSlice TString) "" true;
      mkField "Limit" (TPtr TInt) "" true;
      mkField "Seen" Flag "" true ]).

Definition Remote : rtype :=
  TNamed "Remote" (TStruct
    [ mkField "Url" TString "" true;
      mkField "Fetch" (TSlice TString) "" true;
      mkField "Extra" (TMap TString TString) "extra_values" true ]).

Definition Config : rtype :=
  TNamed "Config" (TStruct
    [ mkField "Core" Core "" true;
      mkField "Default_Remote" Remote "" true;
      mkField "Remote" (TMap TString (TPtr Remote)) "" true;
      mkField "Alias" (TMap TString TString) "" true ]).

(** Two settable fields claim the name [name], with different tags. *)
Definition Ambiguous : rtype :=
  TStruct
    [ mkField "First" TString "name" true;
      mkField "Second" TInt "name,int=h" true ].

Definition vAmbiguous : Value := mkValue Ambiguous (0, []) true.

(** A section whose catch-all field is an [int]:
<<
    type Odd struct { Known string; Rest int `gcfg:"extra_values"` }
    type OddConfig struct { Sec Odd }
>> *)
Definition Odd : rtype :=
  TNamed "Odd" (TStruct
    [ mkField "Known" TString "" true;
      mkField "Rest" TInt "extra_values" true ]).

Definition OddConfig : rtype :=
  TNamed "OddConfig" (TStruct [ mkField "Sec" Odd "" true ]).

Definition heapOdd : heap := [CVal (zero OddConfig)].
Definition cfgOdd : rtype * value := (TPtr OddConfig, VPtr (Some (0, []))).

(** [cfg := &Config{}]: one cell holding the zero [Config]. *)
Definition heap0 : heap := [CVal (zero Config)].
Definition cfg0 : rtype * value := (TPtr Config, VPtr (Some (0, []))).

(** The fields of [*cfg] as [reflect.Value]s. *)
Definition vCore : Value := mkValue Core (0, [0]) true.
Definition vEditor : Value := mkValue TString (0, [0; 0]) true.
Definition vBare : Value := mkValue TBool (0, [0; 1]) true.
Definition vDepth : Value := mkValue TInt (0, [0; 2]) true.
Definition vNames : Value := mkValue (TSlice TString) (0, [0; 4]) true.
Definition vLimit : Value := mkValue (TPtr TInt) (0, [0; 5]) true.
Definition vSeen : Value := mkValue Flag (0, [0; 6]) true.
Definition vRemote : Value :=
  mkValue (TMap TString (TPtr Remote)) (0, [2]) true.
Definition vAlias : Value := mkValue (TMap TString TString) (0, [3]) true.

(** [cfgOdd.Sec]. *)
Definition vSec : Value := mkValue Odd (0, [0]) true.

(** The heap after [[remote "a"] url = u] has been read into [heap0]:
    the map object of [cfg.Remote] in cell 1, the [Remote] of subsection
    [a] in cell 2. *)
Definition heapA : heap :=
  [ CVal (VStruct
            [ VStruct [VString ""; VBool false; VInt 0; VInt 0; VSlice [];
                       VPtr None; VBool false];
              VStruct [VString ""; VSlice []; VMap None];
              VMap (Some 1);
              VMap None ]);
    CMap {[ "a" := VPtr (Some (2, [])) ]};
    CVal (VStruct [VString "u"; VSlice []; VMap None]) ].

(** A second schema:
<<
    type Name string
    type Level bool
    type Server struct { Host Name; Ports []int; Debug Level
                         Rest map[string][]string `gcfg:"extra_values"` }
    type Hidden struct { Known string
                         rest map[string]string `gcfg:"extra_values"` }
    type Plain struct {
        Server Server
        Branch map[string]*Server
        Count int
        Weights map[string]int
        Hidden Hidden
    }
>>
    Neither [Name] nor [Level] has an [UnmarshalText] method. *)
Definition Name : rtype := TNamed "Name" TString.
Definition Level : rtype := TNamed "Level" TBool.

Definition Server : rtype :=
  TNamed "Server" (TStruct
    [ mkField "Host" Name "" true;
      mkField "Ports" (TSlice TInt) "" true;
      mkField "Debug" Level "" true;
      mkField "Rest" (TMap TString (TSlice TString)) "extra_values" true ]).

Definition Hidden : rtype :=
  TNamed "Hidden" (TStruct
    [ mkField "Known" TString "" true;
      mkField "rest" (TMap TString TString) "extra_values" false ]).

Definition Plain : rtype :=
  TNamed "Plain" (TStruct
    [ mkField "Server" Server "" true;
      mkField "Branch" (TMap TString (TPtr Server)) "" true;
      mkField "Count" TInt "" true;
      mkField "Weights" (TMap TString TInt) "" true;
      mkField "Hidden" Hidden "" true ]).

(** [cfg := &Plain{Branch: m}], with the map object [m] in cell 1. *)
Definition plainWith (m : gmap string value) : heap :=
  [ CVal (VStruct
            [ VStruct [VString ""; VSlice []; VBool false; VMap None];
              VMap (Some 1);
              VInt 0;
              VMap None;
              VStruct [VString ""; VMap None] ]);
    CMap m ].

(** [Branch] is an empty map. *)
Definition heapP : heap := plainWith ∅.

(** [Branch] binds [x] to a nil pointer. *)
Definition heapN : heap := plainWith {[ "x" := VPtr None ]}.

Definition cfgP : rtype * value := (TPtr Plain, VPtr (Some (0, []))).

Definition vPlain : Value := mkValue Plain (0, []) true.
Definition vServer : Value := mkValue Server (0, [0]) true.
Definition vHost : Value := mkValue Name (0, [0; 0]) true.
Definition vPorts : Value := mkValue (TSlice TInt) (0, [0; 1]) true.
Definition vDebug : Value := mkValue Level (0, [0; 2]) true.
Definition vRest : Value :=
  mkValue (TMap TString (TSlice TString)) (0, [0; 3]) true.
Definition vBranch : Value :=
  mkValue (TMap TString (TPtr Server)) (0, [1]) true.
Definition vCount : Value := mkValue TInt (0, [2]) true.
Definition vWeights : Value := mkValue (TMap TString TInt) (0, [3]) true.
Definition vHidden : Value := mkValue Hidden (0, [4]) true.

(** The heap after [[core] limit = 7] has been read into [heap0]: the
    [int] that [cfg.Core.Limit] points to is in cell 1. *)
Definition heapL : heap :=
  [ CVal (VStruct
            [ VStruct [VString ""; VBool false; VInt 0; VInt 0; VSlice [];
                       VPtr (Some (1, [])); VBool false];
              VStruct [VString ""; VSlice []; VMap None];
              VMap None;
              VMap None ]);
    CVal (VInt 7) ].

(** [cfg := &Config{}] after [cfg.Default_Remote.Extra] and [cfg.Remote]
    have been made empty maps, in cells 1 and 2: the template now holds a
    reference. *)
Definition heapD : heap :=
  [ CVal (VStruct
            [ VStruct [VString ""; VBool false; VInt 0; VInt 0; VSlice [];
                       VPtr None; VBool false];
              VStruct [VString ""; VSlice []; VMap (Some 1)];
              VMap (Some 2);
              VMap None ]);
    CMap ∅;
    CMap ∅ ].

End Sample.

(** ** The words of the specification *)

(** The fixed-width integer types, as opposed to the platform-width
    [int], [uint] and [uintptr] and to arbitrary-precision integers. *)
Definition fixedWidth (t : rtype) : bool :=
  bool_decide (t ∈ [TInt8; TInt16; TInt32; TInt64;
                    TUint8; TUint16; TUint32; TUint64]).

(** The types that [typeModes] lists. *)
Definition typeModesKeys : list rtype :=
  [TInt; TInt8; TInt16; TInt32; TInt64;
   TUint; TUint8; TUint16; TUint32; TUint64; TBigInt].

(** The integer kinds of [kindSetters]. *)
Definition isIntKind (k : Kind) : bool :=
  bool_decide (k ∈ [reflect.Int; reflect.Int8; reflect.Int16; reflect.Int32;
                    reflect.Int64; reflect.Uint; reflect.Uint8;
                    reflect.Uint16; reflect.Uint32; reflect.Uint64;
                    reflect.Uintptr]).

(** The kinds that [kindSetters] has an entry for. *)
Definition hasKindSetter (k : Kind) : bool :=
  bool_decide (k = reflect.String) || bool_decide (k = reflect.Bool)
  || isIntKind k.

(** A type whose values [set] hands whole to the setters: a defined type,
    or a type whose kind is neither slice nor pointer. *)
Definition wholeValued (t : rtype) : Prop :=
  TypeName t <> "" \/ (kindOf t <> reflect.Slice /\ kindOf t <> reflect.Ptr).

(** Every setter of a list reports [errUnsupportedType], taking the heap
    from [h] to [h']. *)
Inductive allUnsupported (d : Value) (blank : bool) (value : string)
    (t : tag) : list setter -> heap -> heap -> Prop :=
  | allUnsupported_nil h : allUnsupported d blank value t [] h h
  | allUnsupported_cons s ss h h1 h2 :
      s d blank value t h = Ok (h1, Some errUnsupportedType) ->
      allUnsupported d blank value t ss h1 h2 ->
      allUnsupported d blank value t (s :: ss) h h2.

(** The map a map-kinded field holds: the map object it refers to, if it
    is not nil, and the entries (a nil map has none). *)
Definition mapContents (h : heap) (v : Value)
  : option (option addr * gmap string value) :=
  match load h (vplace v) with
  | Some (VMap None) => Some (None, ∅)
  | Some (VMap (Some a)) =>
      match h !! a with
      | Some (CMap m) => Some (Some a, m)
      | _ => None
      end
  | _ => None
  end.

(** The sequence a multi-valued variable holds: the elements of the
    slice, or of the slice it points to; a nil pointer holds none.  The
    slice a pointer refers to lives in another cell than the pointer. *)
Inductive holdsSeq (h : heap) (v : Value) : list value -> Prop :=
  | holdsSeq_slice xs :
      kindOf (vtype v) = reflect.Slice ->
      load h (vplace v) = Some (VSlice xs) ->
      holdsSeq h v xs
  | holdsSeq_nil :
      kindOf (vtype v) = reflect.Ptr ->
      load h (vplace v) = Some (VPtr None) ->
      holdsSeq h v []
  | holdsSeq_ptr p xs :
      kindOf (vtype v) = reflect.Ptr ->
      load h (vplace v) = Some (VPtr (Some p)) ->
      p.1 <> (vplace v).1 ->
      load h p = Some (VSlice xs) ->
      holdsSeq h v xs.

(** A cell that refers to no cell below [n], and a heap whose cells from
    [n] on are all such: nothing allocated from [n] on leads back to what
    was there before. *)
Definition cellAbove (n : nat) (c : cell) : Prop :=
  match c with
  | CVal v => Forall (fun r => n <= r) (refs v)
  | CMap m => map_Forall (fun _ v => Forall (fun r => n <= r) (refs v)) m
  end.

Definition closedAbove (n : nat) (h : heap) : Prop :=
  forall i c, n <= i -> h !! i = Some c -> cellAbove n c.

(** What is assumed of gob's decoder: decoding into a cell that holds a
    zero value changes no other existing cell, and the cell it fills and
    the cells it allocates refer only to cells it has allocated. *)
Definition DecodeValue_fresh {L : Lib} : Prop :=
  forall (b : Buffer) (T : rtype) (a : addr) (h h' : heap)
         (e : option string),
    h !! a = Some (CVal (zero T)) ->
    DecodeValue b T a h = (h', e) ->
    length h <= length h'
    /\ (forall i, i < length h -> i <> a -> h' !! i = h !! i)
    /\ (forall i c, i = a \/ length h <= i -> h' !! i = Some c ->
                    cellAbove (length h) c).

(** What is assumed of the parsers and of [UnmarshalText]: the value they
    leave in the destination refers to nothing the destination did not
    refer to before. *)
Definition keepsRefs (f : value -> ext) : Prop :=
  forall cur v e, f cur = ExtRet v e -> refs v ⊆ refs cur.

Definition collaborators_keep_refs {L : Lib} : Prop :=
  (forall T s m, keepsRefs (fun cur => ParseInt T cur s m))
  /\ (forall T s verb, keepsRefs (fun cur => ScanFully T cur s verb))
  /\ (forall T f s, UnmarshalText T = Some f -> keepsRefs (fun cur => f cur s)).

(** What holds of the heap [h1] while tuples are applied to the subsection
    [sub] of a map-shaped section, starting from the heap [h] in which the
    section's map object, at [a], had the entries [m] and none for [sub]:
    the cells of [h] other than the map object are as they were, the cells
    allocated since lead to none of them, and the map object has the
    entries of [m] and possibly one for [sub], bound to a cell allocated
    since. *)
Definition subsectionInv (h : heap) (a : addr) (m : gmap string value)
    (sub : string) (h1 : heap) : Prop :=
  length h <= length h1
  /\ closedAbove (length h) h1
  /\ (forall i, i < length h -> i <> a -> h1 !! i = h !! i)
  /\ exists m1,
       h1 !! a = Some (CMap m1)
       /\ (forall k, k <> sub -> m1 !! k = m !! k)
       /\ (m1 !! sub = None
           \/ exists p, m1 !! sub = Some (VPtr (Some p)) /\ length h <= p.1).

(** [h'] is at least as long as [h] and has the same first [n] cells. *)
Definition keepsFirst (n : nat) (h h' : heap) : Prop :=
  length h <= length h' /\ forall i, i < n -> h' !! i = h !! i.

(** [h'] is [h] with, at most, another value in the cell at [a]. *)
Definition writesCell (a : addr) (h h' : heap) : Prop :=
  h' = h \/ exists w v, h !! a = Some (CVal w) /\ h' = <[a := CVal v]> h.

(** A setter that writes nowhere but in the cell of its destination. *)
Definition framed {L : Lib} (s : setter) : Prop :=
  forall d blank val t h h' e,
    s d blank val t h = Ok (h', e) -> writesCell (vplace d).1 h h'.

(** A setter that, given a destination above the mark [n] in a heap that
    is closed above [n], keeps the cells below [n] and the heap closed. *)
Definition staysAbove {L : Lib} (s : setter) : Prop :=
  forall n d blank val t h h' e,
    closedAbove n h -> n <= (vplace d).1 ->
    s d blank val t h = Ok (h', e) ->
    keepsFirst n h h' /\ closedAbove n h'.

Section Reaching.
Context {L : Lib}.

(** How [set] gets to the aggregate [vSect] in which it then looks for the
    variable, and the location [l] it has built by then: [vSect] is a
    struct-shaped section (and there is no subsection name), or it is an
    existing subsection of a section shaped as a map from string to
    pointer-to-struct. *)
Inductive reaches (h : heap) (cfg : rtype * value) (sect sub : string)
  : bool -> Value -> loc -> Prop :=
  | reaches_section vCfg t vSect :
      cfgStruct cfg = Some vCfg ->
      fieldFold vCfg sect = Ok (Some vSect, t) ->
      kindOf (vtype vSect) = reflect.Struct ->
      sub = "" ->
      reaches h cfg sect sub false vSect (mkLoc sect None None)
  | reaches_subsection vCfg t vSect et vType a m p :
      cfgStruct cfg = Some vCfg ->
      fieldFold vCfg sect = Ok (Some vSect, t) ->
      kindOf (vtype vSect) = reflect.Map ->
      Key (vtype vSect) = Some TString ->
      Elem (vtype vSect) = Some et ->
      kindOf et = reflect.Ptr ->
      Elem et = Some vType ->
      kindOf vType = reflect.Struct ->
      load h (vplace vSect) = Some (VMap (Some a)) ->
      h !! a = Some (CMap m) ->
      m !! sub = Some (VPtr (Some p)) ->
      reaches h cfg sect sub true (mkValue vType p true)
              (mkLoc sect (Some sub) None).

(** [assigned ... vals h h']: the values [vals] are assigned one after
    the other, without [blank], to the variable [name] of one section or
    subsection; every call of [set] reaches the aggregate, finds the
    variable [vVar] and succeeds; the heap goes from [h] to [h']. *)
Inductive assigned (c : Collector) (cfg : rtype * value)
    (sect sub name : string) (pass : bool) (vVar : Value)
  : list string -> heap -> heap -> Prop :=
  | assigned_nil h : assigned c cfg sect sub name pass vVar [] h h
  | assigned_cons val vals h h1 h2 vSect l t :
      reaches h cfg sect sub pass vSect l ->
      fieldFold vSect name = Ok (Some vVar, t) ->
      set c cfg sect sub name false val pass h = Ok (h1, c, None) ->
      assigned c cfg sect sub name pass vVar vals h1 h2 ->
      assigned c cfg sect sub name pass vVar (val :: vals) h h2.

(** [applied ... c h c' h']: any number of tuples are applied, in the
    subsection pass, to the subsection [sub] of the section [sect], and
    every call of [set] returns. *)
Inductive applied (cfg : rtype * value) (sect sub : string)
  : Collector -> heap -> Collector -> heap -> Prop :=
  | applied_nil c h : applied cfg sect sub c h c h
  | applied_cons name blank val c h c1 h1 r c2 h2 :
      set c cfg sect sub name blank val true h = Ok (h1, c1, r) ->
      applied cfg sect sub c1 h1 c2 h2 ->
      applied cfg sect sub c h c2 h2.

End Reaching.

(** * Properties *)

Section Properties.
Context {L : Lib}.

(** ** Memory *)

Lemma get_set_path (v : value) (p : list nat) (w : value) (v' : value) :
  set_path v p w = Some v' -> get_path v' p = Some w.
Proof.
  revert v v'. induction p as [|i p IH]; intros v v'; simpl.
  - intros [= <-]. reflexivity.
  - destruct v; try discriminate.
    destruct (fs !! i) as [x|] eqn:Ei; [|discriminate].
    destruct (set_path x p w) as [x'|] eqn:Ex; [|discriminate].
    intros [= <-]. rewrite list_lookup_insert_eq by (eapply lookup_lt_Some, Ei).
    eapply IH, Ex.
Qed.

Lemma set_path_is_Some (v : value) (p : list nat) (w : value) :
  is_Some (get_path v p) -> is_Some (set_path v p w).
Proof.
  revert v. induction p as [|i p IH]; intros v; simpl; [eauto|].
  destruct v; try (intros [? ?]; discriminate).
  destruct (fs !! i) as [y|]; [|intros [? ?]; discriminate].
  intros H. destruct (IH y H) as [y' ->]. eauto.
Qed.

Lemma store_is_Some (h : heap) (pl : place) (w : value) :
  is_Some (load h pl) -> is_Some (store h pl w).
Proof.
  unfold load, store.
  destruct (h !! pl.1) as [[v|m]|]; try (intros [? ?]; discriminate).
  intros H. destruct (set_path_is_Some v pl.2 w H) as [v' ->]. eauto.
Qed.

Lemma store_length (h h' : heap) (pl : place) (w : value) :
  store h pl w = Some h' -> length h' = length h.
Proof.
  unfold store. destruct (h !! pl.1) as [[v|m]|]; try discriminate.
  destruct (set_path v pl.2 w); [|discriminate].
  intros [= <-]. apply length_insert.
Qed.

Lemma store_lt (h h' : heap) (pl : place) (w : value) :
  store h pl w = Some h' -> pl.1 < length h.
Proof.
  unfold store. destruct (h !! pl.1) as [c|] eqn:E; [|discriminate].
  intros _. eapply lookup_lt_Some, E.
Qed.

Lemma store_lookup_ne (h h' : heap) (pl : place) (w : value) (i : nat) :
  store h pl w = Some h' -> i <> pl.1 -> h' !! i = h !! i.
Proof.
  unfold store. destruct (h !! pl.1) as [[v|m]|]; try discriminate.
  destruct (set_path v pl.2 w); [|discriminate].
  intros [= <-] Hi. apply list_lookup_insert_ne. congruence.
Qed.

Lemma load_store (h h' : heap) (pl : place) (w : value) :
  store h pl w = Some h' -> load h' pl = Some w.
Proof.
  unfold store, load. destruct (h !! pl.1) as [[v|m]|] eqn:E; try discriminate.
  destruct (set_path v pl.2 w) as [v'|] eqn:Ev; [|discriminate].
  intros [= <-]. rewrite list_lookup_insert_eq by (eapply lookup_lt_Some, E).
  eapply get_set_path, Ev.
Qed.

Lemma load_lt (h : heap) (pl : place) (v : value) :
  load h pl = Some v -> pl.1 < length h.
Proof.
  unfold load. destruct (h !! pl.1) as [c|] eqn:E; [|discriminate].
  intros _. eapply lookup_lt_Some, E.
Qed.

(** A load depends only on the cell it reads. *)
Lemma load_ext (h h' : heap) (pl : place) :
  h' !! pl.1 = h !! pl.1 -> load h' pl = load h pl.
Proof. unfold load. intros ->. reflexivity. Qed.

(** ** Integer bases *)

Lemma intModeDefault_spec (t : rtype) :
  intModeDefault t =
    if bool_decide (t ∈ typeModesKeys) then Z.lor Dec Hex
    else Z.lor (Z.lor Dec Hex) Oct.
Proof.
  destruct (bool_decide (t ∈ typeModesKeys)) eqn:E.
  - apply bool_decide_eq_true in E. unfold typeModesKeys in E.
    rewrite !elem_of_cons, elem_of_nil in E.
    repeat (destruct E as [->|E]; [reflexivity|]). destruct E.
  - apply bool_decide_eq_false in E.
    unfold intModeDefault, lookupBy, typeModes. simpl.
    repeat (rewrite bool_decide_eq_false_2;
            [|intros <-; apply E; unfold typeModesKeys; set_solver]).
    reflexivity.
Qed.

Lemma intMode_empty : intMode "" = 0%Z.
Proof. reflexivity. Qed.

(** A tag with no [int=] segment has an empty [intMode]. *)
Lemma newTag_no_int (ts : string) :
  Forall (fun tse => HasPrefix tse "int=" = false) (tl (Split ts ",")) ->
  t_intMode (newTag ts) = "".
Proof.
  unfold newTag. intros H.
  assert (Ht : t_intMode (mkTag (hd "" (Split ts ",")) "") = "") by reflexivity.
  revert Ht. generalize (mkTag (hd "" (Split ts ",")) ""). intros t0 Ht.
  revert t0 Ht. induction H as [|x r Hx _ IH]; intros t0 Ht; simpl; [exact Ht|].
  rewrite Hx. apply IH, Ht.
Qed.

(** What a collaborator returns is never [errUnsupportedType]. *)
Lemma callExt_supported (d : Value) (f : value -> ext) (h h' : heap)
    (e : option error) :
  callExt d f h = Ok (h', e) -> e <> Some errUnsupportedType.
Proof.
  unfold callExt. destruct (load h (vplace d)); simpl; [|discriminate].
  destruct (f v) as [?|w err]; [discriminate|].
  destruct (store h (vplace d) w); simpl; [|discriminate].
  intros [= <- <-]. destruct err; discriminate.
Qed.

(** A setter that is a call of a collaborator ends the chain. *)
Lemma trySetters_callExt (s : setter) (ss : list setter) (err : option error)
    (d : Value) (blank : bool) (val : string) (t : tag) (l : loc) (h : heap)
    (f : value -> ext) :
  s d blank val t h = callExt d f h ->
  trySetters (s :: ss) err d blank val t l h =
    '(h', e) ← callExt d f h;
    Ok (h', option_map (fun e => locErr (Error e) l) e).
Proof.
  intros Hs. simpl. rewrite Hs.
  destruct (callExt d f h) as [[h' e]|p] eqn:E; simpl; [|reflexivity].
  destruct e as [e|]; simpl; [|reflexivity].
  case_bool_decide as Hu; [|reflexivity].
  subst e. exfalso. eapply callExt_supported; eauto.
Qed.

(** A setter that reports [errUnsupportedType] passes the turn. *)
Lemma trySetters_unsupported (s : setter) (ss : list setter)
    (err : option error) (d : Value) (blank : bool) (val : string) (t : tag)
    (l : loc) (h h1 : heap) :
  s d blank val t h = Ok (h1, Some errUnsupportedType) ->
  trySetters (s :: ss) err d blank val t l h =
    trySetters ss (Some errUnsupportedType) d blank val t l h1.
Proof.
  intros Hs. cbn [trySetters]. rewrite Hs. cbn [mbind result_bind].
  rewrite bool_decide_eq_true_2 by reflexivity. reflexivity.
Qed.

Lemma typeSetter_not_bigInt (d : Value) blank val t h :
  vtype d <> TBigInt ->
  typeSetter d blank val t h = Ok (h, Some errUnsupportedType).
Proof.
  intros Hn. unfold typeSetter, lookupBy, typeSetters. simpl.
  rewrite bool_decide_eq_false_2 by congruence. reflexivity.
Qed.

Lemma typeSetter_bigInt (d : Value) blank val t h :
  vtype d = TBigInt ->
  typeSetter d blank val t h = intSetter d blank val t h.
Proof.
  intros E. unfold typeSetter, lookupBy, typeSetters. rewrite E. reflexivity.
Qed.

Lemma textUnmarshalerSetter_none (d : Value) blank val t h :
  methodUnmarshalText (vtype d) = None ->
  textUnmarshalerSetter d blank val t h = Ok (h, Some errUnsupportedType).
Proof. intros E. unfold textUnmarshalerSetter. rewrite E. reflexivity. Qed.

Lemma kindSetter_int (d : Value) blank val t h :
  isIntKind (kindOf (vtype d)) = true ->
  kindSetter d blank val t h = intSetter d blank val t h.
Proof.
  intros E. apply bool_decide_eq_true in E.
  rewrite !elem_of_cons, elem_of_nil in E.
  unfold kindSetter, lookupBy, kindSetters.
  repeat (destruct E as [->|E]; [reflexivity|]). destruct E.
Qed.

Lemma intSetter_default (d : Value) (val : string) (t : tag) (h : heap) :
  t_intMode t = "" ->
  intSetter d false val t h =
    callExt d (fun cur =>
                 ParseInt (vtype d) cur val (intModeDefault (vtype d))) h.
Proof. intros E. unfold intSetter. rewrite E. reflexivity. Qed.

(** C1 (as amended).  For a destination of integer kind (or a [big.Int])
    whose tag has no [int=] directive, the chain hands the text to
    [ParseInt] with exactly the default mode of the destination type:
    decimal+hexadecimal for the eleven types that [typeModes] lists (the
    platform-width [int] and [uint] and [big.Int] among them),
    decimal+hexadecimal+octal for every other type (uintptr, defined
    integer types).  What the parser leaves is stored, and an error it
    returns ends the chain as the located error of [set]. *)
Theorem int_default_bases (d : Value) (val : string) (t : tag) (l : loc)
    (h : heap) :
  t_intMode t = "" ->
  vtype d = TBigInt
  \/ (isIntKind (kindOf (vtype d)) = true
      /\ methodUnmarshalText (vtype d) = None) ->
  trySetters setters None d false val t l h =
    '(h', e) ← callExt d
        (fun cur =>
           ParseInt (vtype d) cur val
             (if bool_decide (vtype d ∈ typeModesKeys) then Z.lor Dec Hex
              else Z.lor (Z.lor Dec Hex) Oct)) h;
    Ok (h', option_map (fun e => locErr (Error e) l) e).
Proof.
  intros Ht Hd. rewrite <- intModeDefault_spec.
  destruct Hd as [Hbig|[Hk Hm]].
  - unfold setters. apply trySetters_callExt.
    rewrite typeSetter_bigInt by exact Hbig. apply intSetter_default, Ht.
  - assert (Hn : vtype d <> TBigInt).
    { intros E. rewrite E in Hk. discriminate. }
    unfold setters.
    rewrite (trySetters_unsupported _ _ _ _ _ _ _ _ h h)
      by (apply typeSetter_not_bigInt, Hn).
    rewrite (trySetters_unsupported _ _ _ _ _ _ _ _ h h)
      by (apply textUnmarshalerSetter_none, Hm).
    apply trySetters_callExt.
    rewrite kindSetter_int by exact Hk. apply intSetter_default, Ht.
Qed.

(** ** The chain of setters *)

Lemma trySetters_allUnsupported (d : Value) (blank : bool) (val : string)
    (t : tag) (l : loc) (ss : list setter) (h h' : heap) :
  allUnsupported d blank val t ss h h' ->
  trySetters ss (Some errUnsupportedType) d blank val t l h =
    Ok (h', Some (locErr "unsupported type" l)).
Proof.
  induction 1 as [h|s ss h h1 h2 Hs _ IH]; [reflexivity|].
  rewrite (trySetters_unsupported _ _ _ _ _ _ _ _ _ _ Hs). exact IH.
Qed.

Lemma trySetters_first_decisive (d : Value) (blank : bool) (val : string)
    (t : tag) (l : loc) (pre post : list setter) (s : setter)
    (err0 : option error) (h h1 h2 : heap) (r : option error) :
  allUnsupported d blank val t pre h h1 ->
  s d blank val t h1 = Ok (h2, r) ->
  r <> Some errUnsupportedType ->
  trySetters (pre ++ s :: post) err0 d blank val t l h =
    Ok (h2, option_map (fun e => locErr (Error e) l) r).
Proof.
  intros Hpre Hs Hr. revert err0.
  induction Hpre as [h|s' ss h h1 h1' Hs' _ IH]; intros err0.
  - cbn [app trySetters]. rewrite Hs. cbn [mbind result_bind].
    destruct r as [e|]; [|reflexivity].
    rewrite bool_decide_eq_false_2 by congruence. reflexivity.
  - cbn [app]. rewrite (trySetters_unsupported _ _ _ _ _ _ _ _ _ _ Hs').
    apply IH, Hs.
Qed.

(** C4.  The chain tries [typeSetter], [textUnmarshalerSetter],
    [kindSetter], [scanSetter] in this order.  The first setter that does
    not report [errUnsupportedType] decides: on success the chain
    succeeds, on any other error the chain ends with that error as a
    located error; in both cases the result is the same whatever setters
    come after it.  When all of them report [errUnsupportedType] the chain
    fails with that last error. *)
Theorem setters_chain (d : Value) (blank : bool) (val : string) (t : tag)
    (l : loc) :
  setters = [typeSetter; textUnmarshalerSetter; kindSetter; scanSetter]
  /\ (forall (pre post : list setter) (s : setter) (err0 : option error)
             (h h1 h2 : heap) (r : option error),
        allUnsupported d blank val t pre h h1 ->
        s d blank val t h1 = Ok (h2, r) ->
        r <> Some errUnsupportedType ->
        trySetters (pre ++ s :: post) err0 d blank val t l h =
          Ok (h2, option_map (fun e => locErr (Error e) l) r))
  /\ (forall h h' : heap,
        allUnsupported d blank val t setters h h' ->
        trySetters setters None d blank val t l h =
          Ok (h', Some (locErr (Error errUnsupportedType) l))).
Proof.
  split; [reflexivity|]. split.
  - intros. eapply trySetters_first_decisive; eauto.
  - intros h h' H. unfold setters in *.
    inversion H as [|s ss h0 h1 h2 Hs Hrest]; subst.
    rewrite (trySetters_unsupported _ _ _ _ _ _ _ _ _ _ Hs).
    apply trySetters_allUnsupported, Hrest.
Qed.

(** ** Field resolution *)

Lemma FieldByName_of_match (v : Value) (fs : list StructField)
    (name : string) (f : StructField) :
  List.filter (fun f => foldMatch v fs name (FName f)) fs = [f] ->
  exists i, fs !! i = Some f /\ FieldByName fs (FName f) = Some (i, f).
Proof.
  intros Hhits.
  assert (Hin : In f (List.filter (fun f => foldMatch v fs name (FName f)) fs))
    by (rewrite Hhits; left; reflexivity).
  apply filter_In in Hin. destruct Hin as [Hin Hm].
  unfold FieldByName.
  destruct (list_find (fun g => FName g = FName f) fs) as [[i f']|] eqn:E.
  - apply list_find_Some in E. destruct E as (Hi & Hn & _).
    assert (Hin' : In f' (List.filter (fun f => foldMatch v fs name (FName f)) fs)).
    { apply filter_In. split.
      - apply list_elem_of_In. eapply list_elem_of_lookup_2, Hi.
      - rewrite Hn. exact Hm. }
    rewrite Hhits in Hin'. destruct Hin' as [<-|[]].
    exists i. split; [exact Hi|reflexivity].
  - apply list_find_None in E. rewrite Forall_forall in E.
    exfalso. apply (E f); [|reflexivity]. apply list_elem_of_In, Hin.
Qed.

(** C3 (as amended).  On a struct, field resolution never panics: it
    returns "no match" when no settable field qualifies and also when more
    than one does (they cancel each other), and the field itself, with its
    tag, when exactly one does. *)
Theorem fieldFold_resolution (v : Value) (name : string)
    (fs : list StructField) :
  fieldsOf (vtype v) = Some fs ->
  let hits := List.filter (fun f => foldMatch v fs name (FName f)) fs in
  (hits = [] -> fieldFold v name = Ok (None, mkTag "" ""))
  /\ (1 < length hits -> fieldFold v name = Ok (None, mkTag "" ""))
  /\ (forall f, hits = [f] ->
        exists i, fs !! i = Some f
                  /\ fieldFold v name = Ok (Some (Field v i f), newTag (FTag f))).
Proof.
  intros Hfs hits. unfold fieldFold, FieldByNameFunc. rewrite Hfs.
  fold hits. repeat split.
  - intros ->. reflexivity.
  - destruct hits as [|a [|b r]]; simpl; try lia. reflexivity.
  - intros f Hf. destruct (FieldByName_of_match v fs name f Hf) as (i & Hi & E).
    exists i. split; [exact Hi|]. rewrite Hf, E. reflexivity.
Qed.

(** ** Unresolved sections *)

(** C10.  When the section name matches no field of the schema object,
    [set] hands an [extraData] for the section alone to the collector and
    returns what the collector returns, whatever [subsectPass] is, and
    leaves the heap as it was; so the two passes hand the collector the
    same [extraData] twice. *)
Theorem unresolved_section_collected_twice (c : Collector)
    (cfg : rtype * value) (vCfg : Value) (t : tag)
    (sect sub name : string) (blank : bool) (val : string) (h : heap) :
  cfgStruct cfg = Some vCfg ->
  fieldFold vCfg sect = Ok (None, t) ->
  let e := extraData (mkLoc sect None None) in
  (forall subsectPass : bool,
     set c cfg sect sub name blank val subsectPass h =
       Ok (h, (Collect c e).1, (Collect c e).2))
  /\ ('(h1, c1, _) ← set c cfg sect sub name blank val false h;
      set c1 cfg sect sub name blank val true h1) =
     Ok (h, (Collect (Collect c e).1 e).1, (Collect (Collect c e).1 e).2).
Proof.
  intros Hcfg Hsect e.
  assert (Hone : forall c' pass,
             set c' cfg sect sub name blank val pass h =
               Ok (h, (Collect c' e).1, (Collect c' e).2)).
  { intros c' pass. unfold set. rewrite Hcfg, Hsect. cbn.
    fold e. destruct (Collect c' e). reflexivity. }
  split; [apply Hone|].
  rewrite Hone. cbn. apply Hone.
Qed.

(** ** From [set] to the variable *)

Lemma fieldFold_Some (v fv : Value) (name : string) (t : tag) :
  fieldFold v name = Ok (Some fv, t) ->
  exists fs i f,
    fieldsOf (vtype v) = Some fs /\ fs !! i = Some f
    /\ fv = Field v i f /\ t = newTag (FTag f) /\ CanSet fv = true.
Proof.
  unfold fieldFold, FieldByNameFunc.
  destruct (fieldsOf (vtype v)) as [fs|] eqn:Hfs; [|discriminate].
  destruct (List.filter _ fs) as [|f [|g r]] eqn:Hhits; try discriminate.
  destruct (FieldByName_of_match v fs name f Hhits) as (i & Hi & E).
  rewrite E. intros [= <- <-]. exists fs, i, f. repeat split; auto.
  assert (Hin : In f (List.filter (fun f => foldMatch v fs name (FName f)) fs))
    by (rewrite Hhits; left; reflexivity).
  apply filter_In in Hin. destruct Hin as [_ Hm].
  unfold foldMatch in Hm. rewrite E in Hm.
  destruct (CanSet (Field v i f)); [reflexivity|discriminate].
Qed.

Lemma fieldFold_CanSet (v fv : Value) (name : string) (t : tag) :
  fieldFold v name = Ok (Some fv, t) -> CanSet fv = true.
Proof.
  intros H. apply fieldFold_Some in H. destruct H as (?&?&?&?&?&?&?&?). assumption.
Qed.

Lemma assignable_refl (t : rtype) : assignable t t = true.
Proof. unfold assignable. rewrite bool_decide_eq_true_2; reflexivity. Qed.

(** Once the aggregate is reached, [set] is [setVariable] on it. *)
Lemma set_reaches (c : Collector) (cfg : rtype * value)
    (sect sub name : string) (blank : bool) (val : string) (pass : bool)
    (h : heap) (vSect : Value) (l : loc) :
  reaches h cfg sect sub pass vSect l ->
  set c cfg sect sub name blank val pass h =
    setVariable c (Some vSect) l name blank val h.
Proof.
  intros H. unfold set.
  destruct H as [vCfg t vSect Hcfg Hfold Hk ->
                |vCfg t vSect et vType a m p Hcfg Hfold Hk HK HE Hket HEe Hkv
                   Hload Hcell Hsub];
    rewrite Hcfg, Hfold; cbn [mbind result_bind]; rewrite Hk.
  - reflexivity.
  - rewrite HK, HE. cbn [must mbind result_bind]. rewrite Hket.
    cbn [kindOf]. rewrite HEe. cbn [option_map]. rewrite Hkv.
    unfold loadMap. rewrite Hload. cbn [must mbind result_bind].
    unfold MapIndex, mapCell. rewrite HK, assignable_refl, Hcell.
    cbn [mbind result_bind must]. rewrite Hsub. reflexivity.
Qed.

(** Once the variable is found, [setVariable] is [setValue] on it. *)
Lemma setVariable_found (c : Collector) (vSect vVar : Value) (l : loc)
    (name : string) (blank : bool) (val : string) (t : tag) (h : heap) :
  name <> "" ->
  fieldFold vSect name = Ok (Some vVar, t) ->
  setVariable c (Some vSect) l name blank val h =
    '(h', e) ← setValue vVar t (mkLoc (section l) (subsection l) (Some name))
                 blank val h;
    Ok (h', c, e).
Proof.
  intros Hn Hf. unfold setVariable.
  destruct (String.eqb_spec name ""); [contradiction|].
  rewrite Hf. reflexivity.
Qed.

(** ** Extra data *)

(** C2 (as amended).  When the variable matches no field and the
    aggregate's catch-all field has a type other than the two recognised
    ones, [set] does not panic: it hands the error that names the
    offending type to the collector, returns what the collector returns,
    and leaves the heap as it was. *)
Theorem extra_field_of_other_type (c : Collector) (cfg : rtype * value)
    (sect sub name : string) (blank : bool) (val : string) (pass : bool)
    (h : heap) (vSect f : Value) (l : loc) (t : tag) :
  reaches h cfg sect sub pass vSect l ->
  name <> "" ->
  fieldFold vSect name = Ok (None, t) ->
  findExtraDataField vSect = Ok (Some f) ->
  vtype f <> TMap TString TString ->
  vtype f <> TMap TString (TSlice TString) ->
  set c cfg sect sub name blank val pass h =
    Ok (h, (Collect c (extraFieldTypeErr (vtype f))).1,
           (Collect c (extraFieldTypeErr (vtype f))).2).
Proof.
  intros Hr Hn Hf Hx H1 H2. rewrite (set_reaches _ _ _ _ _ _ _ _ _ _ _ Hr).
  unfold setVariable. destruct (String.eqb_spec name ""); [contradiction|].
  rewrite Hf. cbn [mbind result_bind].
  unfold setExtraDataInSection. rewrite Hx. cbn [mbind result_bind].
  rewrite !bool_decide_eq_false_2 by assumption. cbn [mbind result_bind].
  destruct (Collect c _). reflexivity.
Qed.

(** ** Single values *)

(** A variable that is neither multi-valued nor an unnamed pointer is
    handed to the chain as it is. *)
Lemma setValue_plain (vVar : Value) (t : tag) (l : loc) (blank : bool)
    (val : string) (h : heap) :
  isMultiVal vVar = false ->
  String.eqb (TypeName (vtype vVar)) ""
    && bool_decide (kindOf (vtype vVar) = reflect.Ptr) = false ->
  setValue vVar t l blank val h =
    trySetters setters None (mkValue (vtype vVar) (vplace vVar) true)
      blank val t l h.
Proof.
  intros Hm Hd. unfold setValue, setResolved. rewrite Hm.
  cbn [andb mbind result_bind]. rewrite Hd. cbn [andb mbind result_bind].
  destruct (trySetters _ _ _ _ _ _ _ _) as [[h' [e|]]|p]; reflexivity.
Qed.

(** The chain on a destination of type [bool] is [boolSetter]. *)
Lemma trySetters_bool (d : Value) (blank : bool) (val : string) (t : tag)
    (l : loc) (h : heap) :
  vtype d = TBool ->
  trySetters setters None d blank val t l h =
    '(h', e) ← boolSetter d blank val t h;
    Ok (h', option_map (fun e => locErr (Error e) l) e).
Proof.
  intros Ht. unfold setters.
  rewrite (trySetters_unsupported _ _ _ _ _ _ _ _ h h)
    by (apply typeSetter_not_bigInt; congruence).
  rewrite (trySetters_unsupported _ _ _ _ _ _ _ _ h h)
    by (apply textUnmarshalerSetter_none; rewrite Ht; reflexivity).
  cbn [trySetters].
  replace (kindSetter d blank val t h) with (boolSetter d blank val t h)
    by (unfold kindSetter, lookupBy, kindSetters; rewrite Ht; reflexivity).
  destruct (boolSetter d blank val t h) as [[h' e]|p] eqn:E;
    cbn [mbind result_bind]; [|reflexivity].
  destruct e as [e|]; [|reflexivity]. cbn [option_map].
  case_bool_decide as Hu; [|reflexivity]. subst e. exfalso.
  unfold boolSetter in E. destruct blank.
  - destruct (SetValueOf _ _ _ _); discriminate.
  - destruct (ParseBool val); [destruct (SetValueOf _ _ _ _)|]; discriminate.
Qed.

(** C8 (as amended).  For a destination field of the predeclared type
    [bool]: an assignment with [blank] set stores [true]; an assignment
    whose text the boolean parser reads as [b] stores [b] (so [false] for
    a text it reads as false); an assignment whose text the parser rejects
    returns the parser's message as a located error, without a panic, and
    leaves the heap, and so the field, as it was. *)
Theorem bool_field (c : Collector) (cfg : rtype * value)
    (sect sub name : string) (val : string) (pass : bool)
    (h : heap) (vSect vVar : Value) (l : loc) (t : tag) (old : value) :
  reaches h cfg sect sub pass vSect l ->
  name <> "" ->
  fieldFold vSect name = Ok (Some vVar, t) ->
  vtype vVar = TBool ->
  load h (vplace vVar) = Some old ->
  (exists h', set c cfg sect sub name true val pass h = Ok (h', c, None)
              /\ store h (vplace vVar) (VBool true) = Some h'
              /\ load h' (vplace vVar) = Some (VBool true))
  /\ (forall b, ParseBool val = inl b ->
       exists h', set c cfg sect sub name false val pass h = Ok (h', c, None)
                  /\ store h (vplace vVar) (VBool b) = Some h'
                  /\ load h' (vplace vVar) = Some (VBool b))
  /\ (forall msg, ParseBool val = inr msg ->
       set c cfg sect sub name false val pass h =
         Ok (h, c, Some (locErr msg (mkLoc (section l) (subsection l)
                                           (Some name))))).
Proof.
  intros Hr Hn Hf Ht Hl.
  assert (Hset : forall blank,
    set c cfg sect sub name blank val pass h =
      '(h', e) ← ('(h', e) ← boolSetter (mkValue TBool (vplace vVar) true)
                               blank val t h;
                  Ok (h', option_map
                            (fun e => locErr (Error e)
                               (mkLoc (section l) (subsection l) (Some name)))
                            e));
      Ok (h', c, e)).
  { intros blank. rewrite (set_reaches _ _ _ _ _ _ _ _ _ _ _ Hr).
    rewrite (setVariable_found _ _ _ _ _ _ _ _ _ Hn Hf).
    rewrite setValue_plain.
    - rewrite Ht. rewrite trySetters_bool by reflexivity. reflexivity.
    - unfold isMultiVal. rewrite Ht. reflexivity.
    - rewrite Ht. reflexivity. }
  assert (Hst : forall b, exists h', store h (vplace vVar) (VBool b) = Some h').
  { intros b. apply store_is_Some. eauto. }
  repeat split.
  - destruct (Hst true) as [h' Hh']. exists h'. rewrite Hset.
    unfold boolSetter, SetValueOf. cbn [vtype vplace].
    rewrite assignable_refl, Hh'. repeat split; auto.
    eapply load_store, Hh'.
  - intros b Hb. destruct (Hst b) as [h' Hh']. exists h'. rewrite Hset.
    unfold boolSetter, SetValueOf. cbn [vtype vplace].
    rewrite Hb, assignable_refl, Hh'. repeat split; auto.
    eapply load_store, Hh'.
  - intros msg Hmsg. rewrite Hset. unfold boolSetter. rewrite Hmsg.
    reflexivity.
Qed.

(** ** Flat map sections *)

Lemma load_app (h : heap) (c : cell) (pl : place) (v : value) :
  load h pl = Some v -> load (h ++ [c]) pl = Some v.
Proof.
  intros H. rewrite <- H. apply load_ext.
  apply lookup_app_l. eapply load_lt, H.
Qed.

Lemma load_CVal (h : heap) (pl : place) (v : value) :
  load h pl = Some v -> exists w, h !! pl.1 = Some (CVal w).
Proof.
  unfold load. destruct (h !! pl.1) as [[w|m]|]; try discriminate. eauto.
Qed.

(** C9.  For a section field shaped as a map from string to string, in
    the subsection pass: [set] succeeds without touching the collector;
    afterwards the field refers to a map (the one it referred to, or a new
    one if it was nil) whose entries are the former ones when the value is
    empty, and the former ones with the value stored under [name], or
    under [sub name] when there is a subsection name, when it is not; no
    other cell of the heap changes, and no parser is consulted. *)
Theorem flat_map_section (c : Collector) (cfg : rtype * value)
    (vCfg vSect : Value) (t : tag) (sect sub name : string) (blank : bool)
    (val : string) (h : heap) (oa : option addr) (m0 : gmap string value) :
  cfgStruct cfg = Some vCfg ->
  fieldFold vCfg sect = Ok (Some vSect, t) ->
  kindOf (vtype vSect) = reflect.Map ->
  Key (vtype vSect) = Some TString ->
  Elem (vtype vSect) = Some TString ->
  mapContents h vSect = Some (oa, m0) ->
  let key := if String.eqb sub "" then name
             else String.append sub (String.append " " name) in
  exists h' a,
    set c cfg sect sub name blank val true h = Ok (h', c, None)
    /\ (oa = Some a \/ (oa = None /\ a = length h))
    /\ mapContents h' vSect =
         Some (Some a, if String.eqb val "" then m0
                       else <[key := VString val]> m0)
    /\ (forall i, i < length h -> i <> (vplace vSect).1 -> i <> a ->
                  h' !! i = h !! i).
Proof.
  intros Hcfg Hfold Hk HK HE Hmc key.
  pose proof (fieldFold_CanSet _ _ _ _ Hfold) as Hcan.
  assert (Hput : forall (h1 : heap) a m,
            h1 !! a = Some (CMap m) ->
            SetMapIndex vSect a key TString (VString val) h1 =
              Ok (<[a := CMap (<[key := VString val]> m)]> h1)).
  { intros h1 a m Hc. unfold SetMapIndex, mapCell.
    rewrite Hcan, HK, HE, assignable_refl, Hc. reflexivity. }
  assert (Hset : set c cfg sect sub name blank val true h =
            m ← loadMap h vSect;
            '(a, h) ← (match m with
                       | None => SetMakeMap vSect h
                       | Some a => Ok (a, h)
                       end);
            if negb (String.eqb val "") then
              h ← SetMapIndex vSect a key TString (VString val) h;
              Ok (h, c, None)
            else Ok (h, c, None)).
  { unfold set. rewrite Hcfg, Hfold. cbn [mbind result_bind]. rewrite Hk.
    rewrite HK, HE. cbn [must mbind result_bind kindOf].
    unfold key. destruct (String.eqb sub ""); reflexivity. }
  rewrite Hset. clear Hset. unfold mapContents in Hmc.
  destruct (load h (vplace vSect)) as [v|] eqn:Hl; [|discriminate].
  destruct v as [| | | | |  |[a|]| |]; try discriminate.
  - (* the field refers to a map *)
    destruct (h !! a) as [[w|m]|] eqn:Ha; try discriminate.
    injection Hmc as <- <-.
    destruct (load_CVal _ _ _ Hl) as [w Hw].
    assert (Hne : (vplace vSect).1 <> a) by congruence.
    unfold loadMap. rewrite Hl. cbn [must mbind result_bind].
    destruct (String.eqb val ""); cbn [negb].
    + exists h, a. unfold mapContents. rewrite Hl, Ha. auto.
    + rewrite (Hput h a m Ha). cbn [mbind result_bind].
      eexists _, a. split; [reflexivity|]. split; [auto|]. split.
      * unfold mapContents.
        rewrite (load_ext h) by (apply list_lookup_insert_ne; congruence).
        rewrite Hl, list_lookup_insert_eq by (eapply lookup_lt_Some, Ha).
        reflexivity.
      * intros i _ _ Hi. apply list_lookup_insert_ne. congruence.
  - (* the field is nil *)
    injection Hmc as <- <-.
    pose proof (load_lt _ _ _ Hl) as Hlt.
    unfold loadMap. rewrite Hl. cbn [must mbind result_bind].
    unfold SetMakeMap, alloc, SetV. rewrite Hcan.
    destruct (store_is_Some (h ++ [CMap ∅]) (vplace vSect)
                (VMap (Some (length h)))) as [h2 Hh2].
    { rewrite (load_app _ _ _ _ Hl). eauto. }
    rewrite Hh2. cbn [must mbind result_bind].
    assert (Hcell : h2 !! length h = Some (CMap ∅)).
    { rewrite (store_lookup_ne _ _ _ _ _ Hh2) by lia.
      rewrite lookup_app_r by lia. rewrite Nat.sub_diag. reflexivity. }
    assert (Hold : forall i, i < length h -> i <> (vplace vSect).1 ->
                     h2 !! i = h !! i).
    { intros i Hi Hne. rewrite (store_lookup_ne _ _ _ _ _ Hh2) by exact Hne.
      apply lookup_app_l, Hi. }
    destruct (String.eqb val ""); cbn [negb].
    + exists h2, (length h). split; [reflexivity|]. split; [auto|]. split.
      * unfold mapContents. rewrite (load_store _ _ _ _ Hh2), Hcell.
        reflexivity.
      * intros i Hi Hne _. apply Hold; assumption.
    + rewrite (Hput h2 _ _ Hcell). cbn [mbind result_bind].
      eexists _, (length h). split; [reflexivity|]. split; [auto|]. split.
      * unfold mapContents.
        rewrite (load_ext h2) by (apply list_lookup_insert_ne; lia).
        rewrite (load_store _ _ _ _ Hh2).
        rewrite list_lookup_insert_eq by (eapply lookup_lt_Some, Hcell).
        reflexivity.
      * intros i Hi Hne Hia. rewrite list_lookup_insert_ne by congruence.
        apply Hold; assumption.
Qed.

(** ** The setters write their destination only *)

Lemma writesCell_refl (a : addr) (h : heap) : writesCell a h h.
Proof. left. reflexivity. Qed.

Lemma writesCell_trans (a : addr) (h1 h2 h3 : heap) :
  writesCell a h1 h2 -> writesCell a h2 h3 -> writesCell a h1 h3.
Proof.
  intros [->|(w & v & Hw & ->)] [->|(w' & v' & Hw' & ->)].
  - left. reflexivity.
  - right. eauto.
  - right. eauto.
  - right. exists w, v'. split; [exact Hw|]. apply list_insert_insert_eq.
Qed.

Lemma store_writesCell (h h' : heap) (pl : place) (v : value) :
  store h pl v = Some h' -> writesCell pl.1 h h'.
Proof.
  unfold store. destruct (h !! pl.1) as [[w|m]|] eqn:E; try discriminate.
  destruct (set_path w pl.2 v) as [w'|]; [|discriminate].
  intros [= <-]. right. eauto.
Qed.

Lemma writesCell_length (a : addr) (h h' : heap) :
  writesCell a h h' -> length h' = length h.
Proof. intros [->|(w & v & _ & ->)]; [reflexivity|apply length_insert]. Qed.

Lemma writesCell_lookup_ne (a i : addr) (h h' : heap) :
  writesCell a h h' -> i <> a -> h' !! i = h !! i.
Proof.
  intros [->|(w & v & _ & ->)] Hi; [reflexivity|].
  apply list_lookup_insert_ne. congruence.
Qed.

Lemma writesCell_CVal (a : addr) (h h' : heap) (w : value) :
  writesCell a h h' -> h !! a = Some (CVal w) ->
  exists x, h' !! a = Some (CVal x).
Proof.
  intros [->|(w' & v & Hw & ->)] H; [eauto|].
  exists v. apply list_lookup_insert_eq. eapply lookup_lt_Some, H.
Qed.

(** Writing the last cell leaves the cells before it alone. *)
Lemma writesCell_last (h h' : heap) (z : value) :
  writesCell (length h) (h ++ [CVal z]) h' -> exists x, h' = h ++ [CVal x].
Proof.
  intros [->|(w & v & _ & ->)]; [eauto|]. exists v.
  rewrite insert_app_r_alt by lia. rewrite Nat.sub_diag. reflexivity.
Qed.

Lemma callExt_framed (d : Value) (f : value -> ext) (h h' : heap)
    (e : option error) :
  callExt d f h = Ok (h', e) -> writesCell (vplace d).1 h h'.
Proof.
  unfold callExt. destruct (load h (vplace d)); simpl; [|discriminate].
  destruct (f v) as [?|w err]; [discriminate|].
  destruct (store h (vplace d) w) eqn:E; simpl; [|discriminate].
  intros [= <- _]. eapply store_writesCell, E.
Qed.

Lemma SetValueOf_framed (d : Value) (t : rtype) (x : value) (h h' : heap) :
  SetValueOf d t x h = Ok h' -> writesCell (vplace d).1 h h'.
Proof.
  unfold SetValueOf. destruct (assignable _ _); [|discriminate].
  destruct (store h (vplace d) x) eqn:E; simpl; [|discriminate].
  intros [= <-]. eapply store_writesCell, E.
Qed.

Lemma intSetter_framed : framed intSetter.
Proof.
  intros d blank val t h h' e. unfold intSetter. destruct blank.
  - intros [= <- _]. apply writesCell_refl.
  - apply callExt_framed.
Qed.

Lemma boolSetter_framed : framed boolSetter.
Proof.
  intros d blank val t h h' e. unfold boolSetter. destruct blank.
  - destruct (SetValueOf _ _ _ _) eqn:E; simpl; [|discriminate].
    intros [= <- _]. eapply SetValueOf_framed, E.
  - destruct (ParseBool val).
    + destruct (SetValueOf _ _ _ _) eqn:E; simpl; [|discriminate].
      intros [= <- _]. eapply SetValueOf_framed, E.
    + intros [= <- _]. apply writesCell_refl.
Qed.

Lemma stringSetter_framed : framed stringSetter.
Proof.
  intros d blank val t h h' e. unfold stringSetter. destruct blank.
  - intros [= <- _]. apply writesCell_refl.
  - case_bool_decide.
    + destruct (store h (vplace d) (VString val)) eqn:E; simpl; [|discriminate].
      intros [= <- _]. eapply store_writesCell, E.
    + intros [= <- _]. apply writesCell_refl.
Qed.

Lemma typeSetter_framed : framed typeSetter.
Proof.
  intros d blank val t h h' e. unfold typeSetter, lookupBy, typeSetters.
  simpl. case_bool_decide; simpl.
  - apply intSetter_framed.
  - intros [= <- _]. apply writesCell_refl.
Qed.

Lemma kindSetter_framed : framed kindSetter.
Proof.
  intros d blank val t h h' e. unfold kindSetter, lookupBy, kindSetters.
  simpl.
  repeat (case_bool_decide;
          [simpl; first [apply stringSetter_framed | apply boolSetter_framed
                        | apply intSetter_framed]|]).
  simpl. intros [= <- _]. apply writesCell_refl.
Qed.

Lemma textUnmarshalerSetter_framed : framed textUnmarshalerSetter.
Proof.
  intros d blank val t h h' e. unfold textUnmarshalerSetter.
  destruct (methodUnmarshalText (vtype d)).
  - destruct blank; [intros [= <- _]; apply writesCell_refl|].
    apply callExt_framed.
  - intros [= <- _]. apply writesCell_refl.
Qed.

Lemma scanSetter_framed : framed scanSetter.
Proof.
  intros d blank val t h h' e. unfold scanSetter. destruct blank.
  - intros [= <- _]. apply writesCell_refl.
  - apply callExt_framed.
Qed.

Lemma trySetters_framed (ss : list setter) (err : option error) (d : Value)
    (blank : bool) (val : string) (t : tag) (l : loc) (h h' : heap)
    (r : option diagnostic) :
  Forall framed ss ->
  trySetters ss err d blank val t l h = Ok (h', r) ->
  writesCell (vplace d).1 h h'.
Proof.
  intros Hss. revert err h. induction Hss as [|s ss Hs _ IH]; intros err h.
  - simpl. destruct err; [|discriminate]. intros [= <- _]. apply writesCell_refl.
  - cbn [trySetters]. destruct (s d blank val t h) as [[h1 e]|p] eqn:E;
      cbn [mbind result_bind]; [|discriminate].
    pose proof (Hs _ _ _ _ _ _ _ E) as H1.
    destruct e as [e|].
    + case_bool_decide.
      * intros H2. eapply writesCell_trans; [exact H1|]. eapply IH, H2.
      * intros [= <- _]. exact H1.
    + intros [= <- _]. exact H1.
Qed.

Lemma setters_framed : Forall framed setters.
Proof.
  apply Forall_forall. intros s Hs. unfold setters in Hs.
  rewrite !elem_of_cons, elem_of_nil in Hs.
  destruct Hs as [->|[->|[->|[->|[]]]]].
  - apply typeSetter_framed.
  - apply textUnmarshalerSetter_framed.
  - apply kindSetter_framed.
  - apply scanSetter_framed.
Qed.

(** ** Nil pointers *)

Lemma isMultiVal_ptr (v : Value) (e : rtype) :
  vtype v = TPtr e ->
  isMultiVal v =
    String.eqb (TypeName e) "" && bool_decide (kindOf e = reflect.Slice).
Proof. intros E. unfold isMultiVal. rewrite E. reflexivity. Qed.

(** Lines 308-338 for a nil pointer that is not multi-valued. *)
Lemma setValue_nil_ptr (vVar : Value) (e : rtype) (t : tag) (l : loc)
    (blank : bool) (val : string) (h : heap) :
  vtype vVar = TPtr e ->
  String.eqb (TypeName e) "" && bool_decide (kindOf e = reflect.Slice) = false ->
  CanSet vVar = true ->
  load h (vplace vVar) = Some (VPtr None) ->
  setValue vVar t l blank val h =
    '(h1, r) ← trySetters setters None (mkValue e (length h, []) true)
                 blank val t l (h ++ [CVal (zero e)]);
    match r with
    | Some err => Ok (h1, Some err)
    | None =>
        h2 ← must (store h1 (vplace vVar) (VPtr (Some (length h, []))));
        Ok (h2, None)
    end.
Proof.
  intros Ht Hns Hcan Hl. unfold setValue.
  rewrite (isMultiVal_ptr _ _ Ht), Hns. cbn [andb mbind result_bind].
  unfold setResolved. cbn [andb mbind result_bind]. rewrite Ht.
  cbn [TypeName kindOf String.eqb]. rewrite bool_decide_eq_true_2 by reflexivity.
  cbn [andb]. unfold loadPtr. rewrite Hl. cbn [must mbind result_bind].
  rewrite bool_decide_eq_true_2 by reflexivity.
  cbn [Elem underlying must mbind result_bind alloc].
  destruct (trySetters _ _ _ _ _ _ _ _) as [[h1 [err|]]|p];
    cbn [mbind result_bind]; try reflexivity.
  unfold SetV. rewrite Hcan. cbn [vplace].
  destruct (must _); reflexivity.
Qed.

(** C6.  For a single-valued field of unnamed pointer type that is nil,
    [set] allocates a fresh cell holding the zero value of the pointed-to
    type and runs the chain on that cell.  If the chain fails, [set]
    returns its error; the heap is the old one followed by the fresh cell,
    so the field is still nil.  If the chain succeeds, the field is made
    to point to the fresh cell, which holds what the chain left there. *)
Theorem nil_pointer_field (c : Collector) (cfg : rtype * value)
    (sect sub name : string) (blank : bool) (val : string) (pass : bool)
    (h : heap) (vSect vVar : Value) (l : loc) (t : tag) (e : rtype) :
  reaches h cfg sect sub pass vSect l ->
  name <> "" ->
  fieldFold vSect name = Ok (Some vVar, t) ->
  vtype vVar = TPtr e ->
  String.eqb (TypeName e) "" && bool_decide (kindOf e = reflect.Slice) = false ->
  load h (vplace vVar) = Some (VPtr None) ->
  match trySetters setters None (mkValue e (length h, []) true) blank val t
          (mkLoc (section l) (subsection l) (Some name))
          (h ++ [CVal (zero e)]) with
  | Panic p => set c cfg sect sub name blank val pass h = Panic p
  | Ok (h1, Some err) =>
      set c cfg sect sub name blank val pass h = Ok (h1, c, Some err)
      /\ (exists x, h1 = h ++ [CVal x])
      /\ load h1 (vplace vVar) = Some (VPtr None)
  | Ok (h1, None) =>
      exists h2 x,
        set c cfg sect sub name blank val pass h = Ok (h2, c, None)
        /\ h1 = h ++ [CVal x]
        /\ store h1 (vplace vVar) (VPtr (Some (length h, []))) = Some h2
        /\ load h2 (vplace vVar) = Some (VPtr (Some (length h, [])))
        /\ load h2 (length h, []) = Some x
  end.
Proof.
  intros Hr Hn Hf Ht Hns Hl.
  pose proof (fieldFold_CanSet _ _ _ _ Hf) as Hcan.
  rewrite (set_reaches _ _ _ _ _ _ _ _ _ _ _ Hr).
  rewrite (setVariable_found _ _ _ _ _ _ _ _ _ Hn Hf).
  rewrite (setValue_nil_ptr _ _ _ _ _ _ _ Ht Hns Hcan Hl).
  pose proof (load_lt _ _ _ Hl) as Hlt.
  destruct (trySetters _ _ _ _ _ _ _ _) as [[h1 r]|p] eqn:E;
    cbn [mbind result_bind]; [|reflexivity].
  pose proof (trySetters_framed _ _ _ _ _ _ _ _ _ _ setters_framed E) as Hw.
  cbn [vplace fst] in Hw. destruct (writesCell_last _ _ _ Hw) as [x ->].
  assert (Hl1 : load (h ++ [CVal x]) (vplace vVar) = Some (VPtr None))
    by (apply load_app, Hl).
  destruct r as [err|].
  - split; [reflexivity|]. split; [eauto|exact Hl1].
  - destruct (store_is_Some (h ++ [CVal x]) (vplace vVar)
                (VPtr (Some (length h, [])))) as [h2 Hh2]; [eauto|].
    exists h2, x. rewrite Hh2. cbn [must mbind result_bind].
    split; [reflexivity|]. split; [reflexivity|]. split; [reflexivity|].
    split; [eapply load_store, Hh2|].
    unfold load. cbn [fst snd].
    rewrite (store_lookup_ne _ _ _ _ _ Hh2) by lia.
    rewrite lookup_app_r by lia. rewrite Nat.sub_diag. reflexivity.
Qed.

(** ** Multi-valued fields *)

Lemma keepsFirst_refl n h : keepsFirst n h h.
Proof. split; auto. Qed.

Lemma keepsFirst_trans n h1 h2 h3 :
  keepsFirst n h1 h2 -> keepsFirst n h2 h3 -> keepsFirst n h1 h3.
Proof.
  intros [L1 K1] [L2 K2]. split; [lia|].
  intros i Hi. rewrite K2, K1; auto.
Qed.

Lemma keepsFirst_alloc n (h : heap) c : n <= length h -> keepsFirst n h (h ++ [c]).
Proof.
  intros Hn. split; [rewrite length_app; lia|].
  intros i Hi. apply lookup_app_l. lia.
Qed.

Lemma writesCell_keepsFirst n a h h' :
  n <= a -> writesCell a h h' -> keepsFirst n h h'.
Proof.
  intros Hn Hw. split.
  - rewrite (writesCell_length _ _ _ Hw). lia.
  - intros i Hi. eapply writesCell_lookup_ne; [exact Hw|lia].
Qed.

Lemma store_keepsFirst n (h h' : heap) pl v :
  n <= pl.1 -> store h pl v = Some h' -> keepsFirst n h h'.
Proof. intros Hn Hs. eapply writesCell_keepsFirst; [exact Hn|]. eapply store_writesCell, Hs. Qed.

Lemma keepsFirst_load n (h h' : heap) pl :
  keepsFirst n h h' -> pl.1 < n -> load h' pl = load h pl.
Proof. intros [_ K] Hp. apply load_ext, K, Hp. Qed.

Lemma zero_VPtr (t : rtype) (p : option place) : zero t = VPtr p -> p = None.
Proof.
  induction t using rtype_full_ind; simpl; try discriminate; auto.
  intros [= <-]. reflexivity.
Qed.

Lemma load_last (h : heap) (v : value) : load (h ++ [CVal v]) (length h, []) = Some v.
Proof.
  unfold load. cbn [fst snd]. rewrite lookup_app_r by lia.
  rewrite Nat.sub_diag. reflexivity.
Qed.

Lemma setResolved_append (vS : Value) (t : tag) (l : loc) (val : string)
    (h h' : heap) (xs : list value) :
  CanSet vS = true ->
  load h (vplace vS) = Some (VSlice xs) ->
  setResolved true vS t l false val h = Ok (h', None) ->
  (exists x, load h' (vplace vS) = Some (VSlice (xs ++ [x])))
  /\ length h <= length h'
  /\ (forall i, i < length h -> i <> (vplace vS).1 -> h' !! i = h !! i).
Proof.
  intros Hcan Hl. pose proof (load_lt _ _ _ Hl) as Hlt.
  unfold setResolved. cbn [andb mbind result_bind].
  destruct (Elem (vtype vS)) as [e|]; cbn [must mbind result_bind alloc]; [|discriminate].
  cbn [vtype vplace].
  assert (K1 : keepsFirst (length h) h (h ++ [CVal (zero e)]))
    by (apply keepsFirst_alloc; lia).
  assert (Hfin : forall h4 x,
     keepsFirst (length h) h h4 ->
     load h4 (length h, []) = Some x ->
     (s ← must (load h4 (vplace vS));
      x ← must (load h4 (length h, []));
      match s with
      | VSlice xs => SetV vS (VSlice (xs ++ [x])) h4
      | _ => Panic IllTyped
      end) ≫= (fun h => Ok (h, @None diagnostic)) = Ok (h', None) ->
     (exists x, load h' (vplace vS) = Some (VSlice (xs ++ [x])))
     /\ length h <= length h'
     /\ (forall i, i < length h -> i <> (vplace vS).1 -> h' !! i = h !! i)).
  { intros h4 x K4 Hx. rewrite (keepsFirst_load _ _ _ _ K4 Hlt), Hl, Hx.
    cbn [must mbind result_bind]. unfold SetV. rewrite Hcan.
    destruct (store h4 (vplace vS) (VSlice (xs ++ [x]))) as [h5|] eqn:E5;
      cbn [must mbind result_bind]; [|discriminate].
    intros [= <-]. split; [exists x; eapply load_store, E5|].
    destruct K4 as [L4 K4]. split.
    - rewrite (store_length _ _ _ _ E5). exact L4.
    - intros i Hi Hne. rewrite (store_lookup_ne _ _ _ _ _ E5) by exact Hne.
      apply K4, Hi. }
  destruct ((TypeName e =? "") && bool_decide (kindOf e = reflect.Ptr)) eqn:Hd;
    cbn [andb mbind result_bind].
  - (* the element is an unnamed pointer: it is nil, a cell is allocated *)
    unfold loadPtr. cbn [vplace]. rewrite load_last.
    cbn [must mbind result_bind].
    destruct (zero e) as [| | | |p| | | |] eqn:Hz; try discriminate.
    rewrite (zero_VPtr _ _ Hz) in *. cbn [mbind result_bind].
    rewrite bool_decide_eq_true_2 by reflexivity.
    destruct (Elem e) as [e2|]; cbn [must mbind result_bind]; [|discriminate].
    assert (K2 : keepsFirst (length h) (h ++ [CVal (VPtr None)])
                   ((h ++ [CVal (VPtr None)]) ++ [CVal (zero e2)])).
    { apply keepsFirst_alloc. rewrite length_app. lia. }
    destruct (trySetters _ _ _ _ _ _ _ _) as [[h3 [err|]]|pp] eqn:E;
      cbn [mbind result_bind]; try discriminate.
    pose proof (trySetters_framed _ _ _ _ _ _ _ _ _ _ setters_framed E) as Hw.
    cbn [vplace fst] in Hw.
    assert (K3 : keepsFirst (length h)
                   ((h ++ [CVal (VPtr None)]) ++ [CVal (zero e2)]) h3).
    { eapply writesCell_keepsFirst; [|exact Hw]. rewrite length_app. lia. }
    unfold SetV in Hfin |- *. cbn [CanSet vplace].
    match goal with
    | |- context [store h3 ?pl ?v] =>
        destruct (store h3 pl v) as [h4|] eqn:E4
    end; cbn [must mbind result_bind]; [|discriminate].
    assert (K4 : keepsFirst (length h) h3 h4).
    { eapply store_keepsFirst; [|exact E4]. cbn. lia. }
    eapply (Hfin h4).
    + eauto using keepsFirst_trans.
    + eapply load_store, E4.
  - (* the element itself is the destination *)
    destruct (trySetters _ _ _ _ _ _ _ _) as [[h3 [err|]]|pp] eqn:E;
      cbn [mbind result_bind]; try discriminate.
    pose proof (trySetters_framed _ _ _ _ _ _ _ _ _ _ setters_framed E) as Hw.
    cbn [vplace fst] in Hw.
    assert (K3 : keepsFirst (length h) (h ++ [CVal (zero e)]) h3).
    { eapply writesCell_keepsFirst; [|exact Hw]. lia. }
    destruct (writesCell_last _ _ _ Hw) as [x Hx].
    apply (Hfin h3 x).
    + eauto using keepsFirst_trans.
    + rewrite Hx. apply load_last.
Qed.

Lemma isMultiVal_slice (v : Value) (e : rtype) :
  vtype v = TSlice e \/ vtype v = TPtr (TSlice e) -> isMultiVal v = true.
Proof. intros [E|E]; unfold isMultiVal; rewrite E; reflexivity. Qed.

(** An assignment appends one element. *)
Lemma setValue_append (vVar : Value) (e : rtype) (t : tag) (l : loc)
    (val : string) (h h' : heap) (xs : list value) :
  vtype vVar = TSlice e \/ vtype vVar = TPtr (TSlice e) ->
  CanSet vVar = true ->
  holdsSeq h vVar xs ->
  setValue vVar t l false val h = Ok (h', None) ->
  exists x, holdsSeq h' vVar (xs ++ [x]).
Proof.
  intros Hty Hcan Hseq. unfold setValue.
  rewrite (isMultiVal_slice _ _ Hty). destruct Hty as [Ht|Ht].
  - (* a slice *)
    rewrite Ht. cbn [kindOf andb]. rewrite bool_decide_eq_false_2 by discriminate.
    cbn [mbind result_bind]. intros Hset.
    destruct Hseq as [xs Hk Hl|Hk _|p xs Hk _ _ _];
      try (rewrite Ht in Hk; discriminate).
    destruct (setResolved_append _ _ _ _ _ _ _ Hcan Hl Hset) as ([x Hx] & _ & _).
    exists x. apply holdsSeq_slice; assumption.
  - (* a pointer to a slice *)
    assert (Hkp : kindOf (vtype vVar) = reflect.Ptr) by (rewrite Ht; reflexivity).
    rewrite Ht. cbn [kindOf andb]. rewrite bool_decide_eq_true_2 by reflexivity.
    cbn [Elem underlying must mbind result_bind]. unfold loadPtr.
    destruct Hseq as [xs Hk _|_ Hl|p xs _ Hl Hne Hp];
      [rewrite Ht in Hk; discriminate| |]; rewrite Hl;
      cbn [must mbind result_bind alloc].
    + (* nil: the slice is allocated *)
      pose proof (load_lt _ _ _ Hl) as Hlt.
      unfold SetV. rewrite Hcan.
      destruct (store_is_Some (h ++ [CVal (zero (TSlice e))]) (vplace vVar)
                  (VPtr (Some (length h, [])))) as [h1 Hh1].
      { rewrite (load_app _ _ _ _ Hl). eauto. }
      rewrite Hh1. cbn [must mbind result_bind]. intros Hset.
      assert (Hl1 : load h1 (length h, []) = Some (VSlice [])).
      { rewrite (load_ext (h ++ [CVal (zero (TSlice e))]))
          by (eapply store_lookup_ne; [exact Hh1|cbn; lia]).
        apply load_last. }
      destruct (setResolved_append
                  (mkValue (TSlice e) (length h, []) true) _ _ _ _ _ _
                  eq_refl Hl1 Hset) as ([x Hx] & _ & Hfr).
      exists x. cbn [vplace] in Hx, Hfr.
      apply holdsSeq_ptr with (p := (length h, [])); auto.
      * rewrite (load_ext h1).
        -- eapply load_store, Hh1.
        -- apply Hfr; cbn [fst]; [|lia].
           rewrite (store_length _ _ _ _ Hh1), length_app. lia.
      * cbn [fst]. lia.
    + (* the slice exists *)
      intros Hset.
      destruct (setResolved_append (mkValue (TSlice e) p true) _ _ _ _ _ _
                  eq_refl Hp Hset) as ([x Hx] & _ & Hfr).
      exists x. cbn [vplace] in Hx, Hfr.
      apply holdsSeq_ptr with (p := p); auto.
      rewrite (load_ext h); [exact Hl|].
      apply Hfr; [eapply load_lt, Hl|congruence].
Qed.

(** A blank assignment empties the sequence. *)
Lemma setValue_blank (vVar : Value) (e : rtype) (t : tag) (l : loc)
    (val : string) (h : heap) (xs : list value) :
  vtype vVar = TSlice e \/ vtype vVar = TPtr (TSlice e) ->
  CanSet vVar = true ->
  holdsSeq h vVar xs ->
  exists h', setValue vVar t l true val h = Ok (h', None)
             /\ holdsSeq h' vVar [].
Proof.
  intros Hty Hcan Hseq. unfold setValue.
  rewrite (isMultiVal_slice _ _ Hty). destruct Hty as [Ht|Ht].
  - rewrite Ht. cbn [kindOf andb]. rewrite bool_decide_eq_false_2 by discriminate.
    cbn [mbind result_bind]. unfold setResolved. cbn [andb]. unfold SetV.
    rewrite Hcan, Ht. cbn [zero].
    destruct Hseq as [xs Hk Hl|Hk _|p xs Hk _ _ _];
      try (rewrite Ht in Hk; discriminate).
    destruct (store_is_Some h (vplace vVar) (VSlice [])) as [h' Hh']; [eauto|].
    exists h'. rewrite Hh'. split; [reflexivity|].
    apply holdsSeq_slice; [exact Hk|eapply load_store, Hh'].
  - assert (Hkp : kindOf (vtype vVar) = reflect.Ptr) by (rewrite Ht; reflexivity).
    rewrite Ht. cbn [kindOf andb]. rewrite bool_decide_eq_true_2 by reflexivity.
    cbn [Elem underlying must mbind result_bind]. unfold loadPtr.
    destruct Hseq as [xs Hk _|_ Hl|p xs _ Hl Hne Hp];
      [rewrite Ht in Hk; discriminate| |]; rewrite Hl;
      cbn [must mbind result_bind alloc].
    + pose proof (load_lt _ _ _ Hl) as Hlt.
      unfold SetV at 1. rewrite Hcan.
      destruct (store_is_Some (h ++ [CVal (zero (TSlice e))]) (vplace vVar)
                  (VPtr (Some (length h, [])))) as [h1 Hh1].
      { rewrite (load_app _ _ _ _ Hl). eauto. }
      rewrite Hh1. cbn [must mbind result_bind].
      assert (Hl1 : load h1 (length h, []) = Some (VSlice [])).
      { rewrite (load_ext (h ++ [CVal (zero (TSlice e))]))
          by (eapply store_lookup_ne; [exact Hh1|cbn; lia]).
        apply load_last. }
      unfold setResolved. cbn [andb]. unfold SetV. cbn [CanSet vplace vtype zero].
      destruct (store_is_Some h1 (length h, []) (VSlice [])) as [h' Hh']; [eauto|].
      exists h'. rewrite Hh'. split; [reflexivity|].
      apply holdsSeq_ptr with (p := (length h, [])); auto.
      * rewrite (load_ext h1).
        -- eapply load_store, Hh1.
        -- eapply store_lookup_ne; [exact Hh'|cbn; lia].
      * cbn [fst]. lia.
      * eapply load_store, Hh'.
    + unfold setResolved. cbn [andb]. unfold SetV. cbn [CanSet vplace vtype zero].
      destruct (store_is_Some h p (VSlice [])) as [h' Hh']; [eauto|].
      exists h'. rewrite Hh'. split; [reflexivity|].
      apply holdsSeq_ptr with (p := p); auto.
      * rewrite (load_ext h); [exact Hl|].
        eapply store_lookup_ne; [exact Hh'|congruence].
      * eapply load_store, Hh'.
Qed.

Lemma set_append (c : Collector) (cfg : rtype * value)
    (sect sub name : string) (val : string) (pass : bool) (h h1 : heap)
    (vSect vVar : Value) (l : loc) (t : tag) (e : rtype) (xs : list value) :
  reaches h cfg sect sub pass vSect l ->
  name <> "" ->
  fieldFold vSect name = Ok (Some vVar, t) ->
  vtype vVar = TSlice e \/ vtype vVar = TPtr (TSlice e) ->
  holdsSeq h vVar xs ->
  set c cfg sect sub name false val pass h = Ok (h1, c, None) ->
  exists x, holdsSeq h1 vVar (xs ++ [x]).
Proof.
  intros Hr Hn Hf Hty Hseq.
  rewrite (set_reaches _ _ _ _ _ _ _ _ _ _ _ Hr).
  rewrite (setVariable_found _ _ _ _ _ _ _ _ _ Hn Hf).
  destruct (setValue _ _ _ _ _ _) as [[h1' r]|p] eqn:E;
    cbn [mbind result_bind]; [|discriminate].
  intros [= -> ->].
  eapply setValue_append; eauto using fieldFold_CanSet.
Qed.

(** C5.  For a multi-valued field (an unnamed slice, or an unnamed
    pointer to an unnamed slice), N successive successful assignments
    without [blank] to the same variable of the same section or subsection
    add N elements at the end of the sequence the field holds: the
    sequence after the first k of them is the original one followed by the
    first k new elements, so the elements stand in the order of arrival
    and a field that started empty ends with exactly N of them.  A blank
    assignment after them succeeds and leaves the empty sequence. *)
Theorem multi_valued_field (c : Collector) (cfg : rtype * value)
    (sect sub name : string) (pass : bool) (vVar : Value) (e : rtype)
    (vals : list string) (h h' : heap) (xs : list value) :
  name <> "" ->
  vtype vVar = TSlice e \/ vtype vVar = TPtr (TSlice e) ->
  holdsSeq h vVar xs ->
  assigned c cfg sect sub name pass vVar vals h h' ->
  exists ys,
    length ys = length vals
    /\ holdsSeq h' vVar (xs ++ ys)
    /\ (forall k hk,
          assigned c cfg sect sub name pass vVar (take k vals) h hk ->
          holdsSeq hk vVar (xs ++ take k ys))
    /\ (forall vSect l t val,
          reaches h' cfg sect sub pass vSect l ->
          fieldFold vSect name = Ok (Some vVar, t) ->
          exists h'',
            set c cfg sect sub name true val pass h' = Ok (h'', c, None)
            /\ holdsSeq h'' vVar []).
Proof.
  intros Hn Hty Hseq Hrun. revert xs Hseq.
  induction Hrun as [h|val vals h h1 h2 vSect l t Hr Hf Hset Hrun IH];
    intros xs Hseq.
  - exists []. rewrite app_nil_r. repeat split; auto.
    + intros k hk Hk. destruct k; cbn [take] in Hk |- *; rewrite app_nil_r;
        inversion Hk; subst; exact Hseq.
    + intros vSect l t val Hr Hf.
      rewrite (set_reaches _ _ _ _ _ _ _ _ _ _ _ Hr).
      rewrite (setVariable_found _ _ _ _ _ _ _ _ _ Hn Hf).
      destruct (setValue_blank vVar e t
                  (mkLoc (section l) (subsection l) (Some name)) val h xs Hty
                  (fieldFold_CanSet _ _ _ _ Hf) Hseq) as (h'' & -> & Hb).
      exists h''. split; [reflexivity|exact Hb].
  - destruct (set_append _ _ _ _ _ _ _ _ _ _ _ _ _ _ _ Hr Hn Hf Hty Hseq Hset)
      as [x Hx].
    destruct (IH _ Hx) as (ys & Hlen & Hfin & Hpre & Hblank).
    exists (x :: ys). rewrite <- app_assoc in Hfin. cbn [app] in Hfin.
    split; [cbn; lia|]. split; [exact Hfin|]. split; [|exact Hblank].
    intros [|k] hk Hk.
    + cbn [take] in Hk |- *. rewrite app_nil_r. inversion Hk; subst. exact Hseq.
    + cbn [take] in Hk |- *. inversion Hk as [|? ? ? h1' ? ? ? ? _ _ Hset' Hrest]; subst.
      rewrite Hset in Hset'. injection Hset' as <-.
      specialize (Hpre _ _ Hrest). rewrite <- app_assoc in Hpre. exact Hpre.
Qed.

(** ** New subsections *)

Lemma get_path_refs (P : addr -> Prop) (v w : value) (p : list nat) :
  get_path v p = Some w -> Forall P (refs v) -> Forall P (refs w).
Proof.
  revert v. induction p as [|i p IH]; intros v; simpl.
  - intros [= <-]. auto.
  - destruct v; try discriminate.
    destruct (fs !! i) as [x|] eqn:Ei; [|discriminate].
    intros Hw Hv. apply (IH x Hw). cbn [refs] in Hv.
    apply Forall_flat_map in Hv. rewrite Forall_lookup in Hv. eapply Hv, Ei.
Qed.

Lemma set_path_refs (P : addr -> Prop) (v w v' : value) (p : list nat) :
  set_path v p w = Some v' ->
  Forall P (refs v) -> Forall P (refs w) -> Forall P (refs v').
Proof.
  revert v v'. induction p as [|i p IH]; intros v v'; simpl.
  - intros [= <-]. auto.
  - destruct v; try discriminate.
    destruct (fs !! i) as [x|] eqn:Ei; [|discriminate].
    destruct (set_path x p w) as [x'|] eqn:Ex; [|discriminate].
    intros [= <-] Hv Hw. cbn [refs] in Hv |- *.
    apply Forall_flat_map in Hv. apply Forall_flat_map.
    apply Forall_insert; [exact Hv|].
    apply (IH x x' Ex); [|exact Hw].
    rewrite Forall_lookup in Hv. eapply Hv, Ei.
Qed.

Lemma refs_zero (t : rtype) : refs (zero t) = [].
Proof.
  induction t using rtype_full_ind; cbn [zero refs]; auto.
  induction H as [|f fs Hf _ IH]; cbn [List.map flat_map]; [reflexivity|].
  rewrite Hf, IH. reflexivity.
Qed.

Lemma SetV_Ok (v : Value) (x : value) (h h' : heap) :
  SetV v x h = Ok h' -> store h (vplace v) x = Some h'.
Proof.
  unfold SetV. destruct (CanSet v); [|discriminate].
  destruct (store h (vplace v) x); [|discriminate]. intros [= <-]. reflexivity.
Qed.

Lemma cellAbove_mono (n n' : nat) (c : cell) :
  n <= n' -> cellAbove n' c -> cellAbove n c.
Proof.
  intros Hn. destruct c as [v|m]; cbn [cellAbove].
  - intros H. eapply Forall_impl; [exact H|]. intros r Hr. cbn in Hr. lia.
  - intros H. eapply map_Forall_impl; [exact H|]. intros k v Hv. cbn in Hv.
    eapply Forall_impl; [exact Hv|]. intros r Hr. cbn in Hr. lia.
Qed.

(** A value read above the mark refers to nothing below it. *)
Lemma load_closed (n : nat) (h : heap) (pl : place) (v : value) :
  closedAbove n h -> n <= pl.1 -> load h pl = Some v ->
  Forall (fun r => n <= r) (refs v).
Proof.
  intros Hcl Hn. unfold load.
  destruct (h !! pl.1) as [[w|m]|] eqn:E; try discriminate.
  intros Hv. eapply get_path_refs; [exact Hv|]. apply (Hcl _ _ Hn E).
Qed.

Lemma closed_alloc (n : nat) (h : heap) (c : cell) :
  closedAbove n h -> cellAbove n c -> closedAbove n (h ++ [c]).
Proof.
  intros Hcl Hc i c' Hi. destruct (decide (i < length h)) as [Hlt|Hge].
  - rewrite lookup_app_l by exact Hlt. apply Hcl, Hi.
  - rewrite lookup_app_r by lia. intros Hl.
    apply list_lookup_singleton_Some in Hl. destruct Hl as [_ <-]. exact Hc.
Qed.

Lemma closed_store (n : nat) (h h' : heap) (pl : place) (v : value) :
  closedAbove n h -> Forall (fun r => n <= r) (refs v) ->
  store h pl v = Some h' -> closedAbove n h'.
Proof.
  intros Hcl Hv. unfold store.
  destruct (h !! pl.1) as [[w|m]|] eqn:E; try discriminate.
  destruct (set_path w pl.2 v) as [w'|] eqn:Ew; [|discriminate].
  intros [= <-] i c Hi. destruct (decide (i = pl.1)) as [->|Hne].
  - rewrite list_lookup_insert_eq by (eapply lookup_lt_Some, E).
    intros [= <-]. cbn [cellAbove].
    eapply set_path_refs; [exact Ew| |exact Hv]. apply (Hcl _ _ Hi E).
  - rewrite list_lookup_insert_ne by congruence. apply Hcl, Hi.
Qed.

Lemma closed_SetMapIndex (n : nat) (v : Value) (a : addr) (k : string)
    (xt : rtype) (x : value) (h h' : heap) :
  closedAbove n h -> Forall (fun r => n <= r) (refs x) ->
  SetMapIndex v a k xt x h = Ok h' -> closedAbove n h'.
Proof.
  intros Hcl Hx. unfold SetMapIndex. destruct (negb (CanSet v)); [discriminate|].
  destruct (Key (vtype v)); [|discriminate].
  destruct (Elem (vtype v)); [|discriminate].
  destruct (_ && _); [|discriminate]. unfold mapCell.
  destruct (h !! a) as [[w|m]|] eqn:E; cbn [mbind result_bind]; try discriminate.
  intros [= <-] i c Hi. destruct (decide (i = a)) as [->|Hne].
  - rewrite list_lookup_insert_eq by (eapply lookup_lt_Some, E).
    intros [= <-]. cbn [cellAbove]. apply map_Forall_insert_2; [exact Hx|].
    apply (Hcl _ _ Hi E).
  - rewrite list_lookup_insert_ne by congruence. apply Hcl, Hi.
Qed.

Lemma SetMapIndex_keepsFirst (n : nat) (v : Value) (a : addr) (k : string)
    (xt : rtype) (x : value) (h h' : heap) :
  n <= a -> SetMapIndex v a k xt x h = Ok h' -> keepsFirst n h h'.
Proof.
  intros Hn. unfold SetMapIndex. destruct (negb (CanSet v)); [discriminate|].
  destruct (Key (vtype v)); [|discriminate].
  destruct (Elem (vtype v)); [|discriminate].
  destruct (_ && _); [|discriminate].
  destruct (mapCell h a); cbn [mbind result_bind]; [|discriminate].
  intros [= <-]. split; [rewrite length_insert; lia|].
  intros i Hi. apply list_lookup_insert_ne. lia.
Qed.

(** *** The setters stay above the mark *)

Lemma store_above (n : nat) (h h' : heap) (pl : place) (v : value) :
  closedAbove n h -> n <= pl.1 -> Forall (fun r => n <= r) (refs v) ->
  store h pl v = Some h' -> keepsFirst n h h' /\ closedAbove n h'.
Proof.
  intros Hcl Hn Hv Hs. split.
  - eapply store_keepsFirst; eauto.
  - eapply closed_store; eauto.
Qed.

Lemma same_above (n : nat) (h : heap) :
  closedAbove n h -> keepsFirst n h h /\ closedAbove n h.
Proof. intros Hcl. split; [apply keepsFirst_refl|exact Hcl]. Qed.

Lemma callExt_above (n : nat) (d : Value) (f : value -> ext) (h h' : heap)
    (e : option error) :
  keepsRefs f -> closedAbove n h -> n <= (vplace d).1 ->
  callExt d f h = Ok (h', e) -> keepsFirst n h h' /\ closedAbove n h'.
Proof.
  intros Hf Hcl Hn. unfold callExt.
  destruct (load h (vplace d)) as [cur|] eqn:El; simpl; [|discriminate].
  destruct (f cur) as [?|w err] eqn:Ef; [discriminate|].
  destruct (store h (vplace d) w) eqn:E; simpl; [|discriminate].
  intros [= <- _]. eapply store_above; eauto.
  pose proof (load_closed _ _ _ _ Hcl Hn El) as Hcur.
  rewrite Forall_forall in Hcur |- *. intros r Hr.
  apply Hcur. apply (Hf _ _ _ Ef), Hr.
Qed.

Lemma SetValueOf_above (n : nat) (d : Value) (t : rtype) (x : value)
    (h h' : heap) :
  closedAbove n h -> n <= (vplace d).1 -> refs x = [] ->
  SetValueOf d t x h = Ok h' -> keepsFirst n h h' /\ closedAbove n h'.
Proof.
  intros Hcl Hn Hx. unfold SetValueOf. destruct (assignable _ _); [|discriminate].
  destruct (store h (vplace d) x) eqn:E; simpl; [|discriminate].
  intros [= <-]. eapply store_above; eauto. rewrite Hx. constructor.
Qed.

Section Laws.
Hypothesis Hlaw : collaborators_keep_refs.

Lemma intSetter_above : staysAbove intSetter.
Proof.
  intros n d blank val t h h' e Hcl Hn. unfold intSetter. destruct blank.
  - intros [= <- _]. apply same_above, Hcl.
  - apply callExt_above; [|exact Hcl|exact Hn].
    destruct Hlaw as (Hi & _ & _). apply Hi.
Qed.

Lemma boolSetter_above : staysAbove boolSetter.
Proof.
  intros n d blank val t h h' e Hcl Hn. unfold boolSetter. destruct blank.
  - destruct (SetValueOf _ _ _ _) eqn:E; simpl; [|discriminate].
    intros [= <- _].
      eapply SetValueOf_above; [exact Hcl|exact Hn| |exact E]; reflexivity.
  - destruct (ParseBool val).
    + destruct (SetValueOf _ _ _ _) eqn:E; simpl; [|discriminate].
      intros [= <- _].
      eapply SetValueOf_above; [exact Hcl|exact Hn| |exact E]; reflexivity.
    + intros [= <- _]. apply same_above, Hcl.
Qed.

Lemma stringSetter_above : staysAbove stringSetter.
Proof.
  intros n d blank val t h h' e Hcl Hn. unfold stringSetter. destruct blank.
  - intros [= <- _]. apply same_above, Hcl.
  - case_bool_decide.
    + destruct (store h (vplace d) (VString val)) eqn:E; simpl; [|discriminate].
      intros [= <- _]. eapply store_above; eauto. constructor.
    + intros [= <- _]. apply same_above, Hcl.
Qed.

Lemma typeSetter_above : staysAbove typeSetter.
Proof.
  intros n d blank val t h h' e Hcl Hn. unfold typeSetter, lookupBy, typeSetters.
  simpl. case_bool_decide; simpl.
  - apply intSetter_above; auto.
  - intros [= <- _]. apply same_above, Hcl.
Qed.

Lemma kindSetter_above : staysAbove kindSetter.
Proof.
  intros n d blank val t h h' e Hcl Hn. unfold kindSetter, lookupBy, kindSetters.
  simpl.
  repeat (case_bool_decide;
          [simpl; first [apply stringSetter_above | apply boolSetter_above
                        | apply intSetter_above]; auto|]).
  simpl. intros [= <- _]. apply same_above, Hcl.
Qed.

Lemma textUnmarshalerSetter_above : staysAbove textUnmarshalerSetter.
Proof.
  intros n d blank val t h h' e Hcl Hn. unfold textUnmarshalerSetter.
  destruct (methodUnmarshalText (vtype d)) as [f|] eqn:Em.
  - destruct blank; [intros [= <- _]; apply same_above, Hcl|].
    apply callExt_above; [|exact Hcl|exact Hn].
    destruct Hlaw as (_ & _ & Hu). apply (Hu (vtype d)).
    unfold methodUnmarshalText in Em. destruct (vtype d); try discriminate; exact Em.
  - intros [= <- _]. apply same_above, Hcl.
Qed.

Lemma scanSetter_above : staysAbove scanSetter.
Proof.
  intros n d blank val t h h' e Hcl Hn. unfold scanSetter. destruct blank.
  - intros [= <- _]. apply same_above, Hcl.
  - apply callExt_above; [|exact Hcl|exact Hn].
    destruct Hlaw as (_ & Hs & _). apply Hs.
Qed.

Lemma trySetters_above (ss : list setter) (n : nat) (err : option error)
    (d : Value) (blank : bool) (val : string) (t : tag) (l : loc)
    (h h' : heap) (r : option diagnostic) :
  Forall staysAbove ss ->
  closedAbove n h -> n <= (vplace d).1 ->
  trySetters ss err d blank val t l h = Ok (h', r) ->
  keepsFirst n h h' /\ closedAbove n h'.
Proof.
  intros Hss. revert err h. induction Hss as [|s ss Hs _ IH]; intros err h Hcl Hn.
  - simpl. destruct err; [|discriminate]. intros [= <- _]. apply same_above, Hcl.
  - cbn [trySetters]. destruct (s d blank val t h) as [[h1 e]|p] eqn:E;
      cbn [mbind result_bind]; [|discriminate].
    destruct (Hs _ _ _ _ _ _ _ _ Hcl Hn E) as [K1 C1].
    destruct e as [e|].
    + case_bool_decide.
      * intros H2. destruct (IH _ _ C1 Hn H2) as [K2 C2].
        split; [eapply keepsFirst_trans; eauto|exact C2].
      * intros [= <- _]. auto.
    + intros [= <- _]. auto.
Qed.

Lemma setters_above : Forall staysAbove setters.
Proof.
  apply Forall_forall. intros s Hs. unfold setters in Hs.
  rewrite !elem_of_cons, elem_of_nil in Hs.
  destruct Hs as [->|[->|[->|[->|[]]]]].
  - apply typeSetter_above.
  - apply textUnmarshalerSetter_above.
  - apply kindSetter_above.
  - apply scanSetter_above.
Qed.

(** *** The variable stays above the mark *)

Lemma above_chain (n : nat) (h1 h2 h3 : heap) :
  keepsFirst n h1 h2 -> keepsFirst n h2 h3 /\ closedAbove n h3 ->
  keepsFirst n h1 h3 /\ closedAbove n h3.
Proof. intros K1 [K2 C]. split; [eapply keepsFirst_trans; eauto|exact C]. Qed.

Lemma alloc_above (n : nat) (h : heap) (t : rtype) :
  closedAbove n h -> n <= length h ->
  keepsFirst n h (h ++ [CVal (zero t)])
  /\ closedAbove n (h ++ [CVal (zero t)]).
Proof.
  intros Hcl Hn. split; [apply keepsFirst_alloc, Hn|].
  apply closed_alloc; [exact Hcl|]. cbn [cellAbove]. rewrite refs_zero.
  constructor.
Qed.

Lemma SetV_above (n : nat) (v : Value) (x : value) (h h' : heap) :
  closedAbove n h -> n <= (vplace v).1 -> Forall (fun r => n <= r) (refs x) ->
  SetV v x h = Ok h' -> keepsFirst n h h' /\ closedAbove n h'.
Proof. intros Hcl Hn Hx E. apply SetV_Ok in E. eapply store_above; eauto. Qed.

Lemma append_above (n : nat) (isMulti : bool) (vS vVal : Value)
    (h2 h' : heap) (r : option diagnostic) :
  closedAbove n h2 -> n <= (vplace vS).1 -> n <= (vplace vVal).1 ->
  (if isMulti
   then s ← must (load h2 (vplace vS));
        x ← must (load h2 (vplace vVal));
        match s with
        | VSlice xs => SetV vS (VSlice (xs ++ [x])) h2
        | _ => Panic IllTyped
        end
   else Ok h2) ≫= (fun h4 => Ok (h4, @None diagnostic)) = Ok (h', r) ->
  keepsFirst n h2 h' /\ closedAbove n h'.
Proof.
  intros Hcl Hc Hv. destruct isMulti; cbn [mbind result_bind].
  - destruct (load h2 (vplace vS)) as [s|] eqn:Es; cbn [must mbind result_bind];
      [|discriminate].
    destruct (load h2 (vplace vVal)) as [x|] eqn:Ex; cbn [must mbind result_bind];
      [|discriminate].
    destruct s; cbn [mbind result_bind]; try discriminate.
    destruct (SetV vS _ h2) as [h3|] eqn:E3; cbn [mbind result_bind];
      [|discriminate].
    intros [= <- _]. eapply SetV_above; [exact Hcl|exact Hc| |exact E3].
    pose proof (load_closed _ _ _ _ Hcl Hc Es) as Hs.
    pose proof (load_closed _ _ _ _ Hcl Hv Ex) as Hx.
    cbn [refs] in Hs |- *. rewrite flat_map_app. apply Forall_app.
    split; [exact Hs|]. cbn [flat_map]. rewrite app_nil_r. exact Hx.
  - intros [= <- _]. apply same_above, Hcl.
Qed.

Lemma setResolved_above (n : nat) (isMulti : bool) (vS : Value) (t : tag)
    (l : loc) (blank : bool) (val : string) (h h' : heap)
    (r : option diagnostic) :
  closedAbove n h -> n <= length h -> n <= (vplace vS).1 ->
  setResolved isMulti vS t l blank val h = Ok (h', r) ->
  keepsFirst n h h' /\ closedAbove n h'.
Proof.
  intros Hcl Hn Hc. unfold setResolved.
  destruct (isMulti && blank).
  { destruct (SetV vS _ h) as [h1|] eqn:E; cbn [mbind result_bind];
      [|discriminate].
    intros [= <- _]. eapply SetV_above; [exact Hcl|exact Hc| |exact E].
    rewrite refs_zero. constructor. }
  (* the value to set *)
  assert (Hval : forall vVal h1,
    (if isMulti
     then e ← must (Elem (vtype vS));
          let '(a, h0) := alloc h (CVal (zero e)) in
          Ok (mkValue e (a, []) true, h0)
     else Ok (vS, h)) = Ok (vVal, h1) ->
    (keepsFirst n h h1 /\ closedAbove n h1) /\ n <= (vplace vVal).1).
  { intros vVal h1. destruct isMulti.
    - destruct (Elem (vtype vS)) as [e|]; cbn [must mbind result_bind alloc];
        [|discriminate].
      intros [= <- <-]. cbn [vplace fst]. split; [|exact Hn].
      apply alloc_above; assumption.
    - intros [= <- <-]. split; [apply same_above, Hcl|exact Hc]. }
  match goal with
  | |- context [mbind _ ?m] => destruct m as [[vVal h1]|pp] eqn:EvVal
  end; cbn [mbind result_bind]; [|discriminate].
  destruct (Hval _ _ eq_refl) as ([K1 C1] & HcV). clear Hval EvVal.
  pose proof (proj1 K1) as L1.
  (* the end, once the setters have run *)
  assert (Hend : forall (isNew : bool) vAddr h2 h3,
    keepsFirst n h1 h2 -> closedAbove n h2 ->
    (isNew = true -> n <= (vplace vAddr).1) ->
    n <= (vplace vAddr).1 ->
    trySetters setters None vAddr blank val t l h2 = Ok (h3, None) ->
    ((if isNew then SetV vVal (VPtr (Some (vplace vAddr))) h3 else Ok h3)
     ≫= fun h4 =>
       (if isMulti
        then s ← must (load h4 (vplace vS));
             x ← must (load h4 (vplace vVal));
             match s with
             | VSlice xs => SetV vS (VSlice (xs ++ [x])) h4
             | _ => Panic IllTyped
             end
        else Ok h4) ≫= (fun h5 => Ok (h5, @None diagnostic))) = Ok (h', r) ->
    keepsFirst n h h' /\ closedAbove n h').
  { intros isNew vAddr h2 h3 K2 C2 _ Ha E.
    destruct (trySetters_above _ _ _ _ _ _ _ _ _ _ _ setters_above C2 Ha E)
      as [K3 C3].
    destruct isNew.
    - destruct (SetV vVal _ h3) as [h4|] eqn:E4; cbn [mbind result_bind];
        [|discriminate].
      assert (Hr : Forall (fun r => n <= r) (refs (VPtr (Some (vplace vAddr)))))
        by (cbn [refs]; constructor; [exact Ha|constructor]).
      destruct (SetV_above n _ _ _ _ C3 HcV Hr E4) as [K4 C4].
      intros Hfin. apply (append_above n _ _ _ _ _ _ C4 Hc HcV) in Hfin.
      destruct Hfin as [K5 C5]. split; [|exact C5].
      eauto using keepsFirst_trans.
    - cbn [mbind result_bind]. intros Hfin.
      apply (append_above n _ _ _ _ _ _ C3 Hc HcV) in Hfin.
      destruct Hfin as [K5 C5]. split; [|exact C5].
      eauto using keepsFirst_trans. }
  assert (Herr : forall vAddr h2 h3 err,
    keepsFirst n h1 h2 -> closedAbove n h2 -> n <= (vplace vAddr).1 ->
    trySetters setters None vAddr blank val t l h2 = Ok (h3, Some err) ->
    keepsFirst n h h3 /\ closedAbove n h3).
  { intros vAddr h2 h3 err K2 C2 Ha E.
    destruct (trySetters_above _ _ _ _ _ _ _ _ _ _ _ setters_above C2 Ha E)
      as [K3 C3].
    split; [|exact C3]. eauto using keepsFirst_trans. }
  destruct (String.eqb (TypeName (vtype vVal)) ""
            && bool_decide (kindOf (vtype vVal) = reflect.Ptr)) eqn:Hd.
  - unfold loadPtr. destruct (load h1 (vplace vVal)) as [cv|] eqn:Ecur;
      cbn [must mbind result_bind]; [|discriminate].
    destruct cv as [| | | |cur| | | |]; try discriminate.
    pose proof (load_closed _ _ _ _ C1 HcV Ecur) as Hcur.
    destruct cur as [p|]; cbn [andb mbind result_bind].
    + (* an existing pointee *)
      rewrite bool_decide_eq_false_2 by discriminate.
      destruct (Elem (vtype vVal)) as [e|]; cbn [must mbind result_bind];
        [|discriminate].
      cbn [refs] in Hcur. apply Forall_cons_1 in Hcur. destruct Hcur as [Hp _].
      destruct (trySetters _ _ _ _ _ _ _ _) as [[h3 [err|]]|pp] eqn:E;
        cbn [mbind result_bind]; try discriminate.
      * intros [= <- _].
        eapply (Herr _ h1); [apply keepsFirst_refl|exact C1| |exact E]. exact Hp.
      * apply (Hend false (mkValue e p true) h1 h3); auto using keepsFirst_refl.
    + (* nil: a new pointee *)
      rewrite bool_decide_eq_true_2 by reflexivity.
      destruct (Elem (vtype vVal)) as [e|]; cbn [must mbind result_bind alloc];
        [|discriminate].
      destruct (alloc_above n h1 e C1 ltac:(lia)) as [K2 C2].
      destruct (trySetters _ _ _ _ _ _ _ _) as [[h3 [err|]]|pp] eqn:E;
        cbn [mbind result_bind]; try discriminate.
      * intros [= <- _].
        eapply (Herr _ _ _ _ K2 C2); [|exact E]. cbn [vplace fst]. lia.
      * apply (Hend true (mkValue e (length h1, []) true) _ h3 K2 C2);
          cbn [vplace fst]; try lia. exact E.
  - cbn [andb mbind result_bind].
    destruct (trySetters _ _ _ _ _ _ _ _) as [[h3 [err|]]|pp] eqn:E;
      cbn [mbind result_bind]; try discriminate.
    + intros [= <- _].
      eapply (Herr _ h1); [apply keepsFirst_refl|exact C1| |exact E]. exact HcV.
    + apply (Hend false (mkValue (vtype vVal) (vplace vVal) true) h1 h3);
        auto using keepsFirst_refl.
Qed.

Lemma setValue_above (n : nat) (vVar : Value) (t : tag) (l : loc)
    (blank : bool) (val : string) (h h' : heap) (r : option diagnostic) :
  closedAbove n h -> n <= length h -> n <= (vplace vVar).1 ->
  setValue vVar t l blank val h = Ok (h', r) ->
  keepsFirst n h h' /\ closedAbove n h'.
Proof.
  intros Hcl Hn Hc. unfold setValue.
  destruct (isMultiVal vVar && bool_decide (kindOf (vtype vVar) = reflect.Ptr));
    cbn [mbind result_bind].
  - destruct (Elem (vtype vVar)) as [e|]; cbn [must mbind result_bind];
      [|discriminate].
    unfold loadPtr. destruct (load h (vplace vVar)) as [cv|] eqn:El;
      cbn [must mbind result_bind]; [|discriminate].
    destruct cv as [| | | |[p|]| | | |]; cbn [mbind result_bind alloc];
      try discriminate.
    + pose proof (load_closed _ _ _ _ Hcl Hc El) as Hp. cbn [refs] in Hp.
      apply Forall_cons_1 in Hp. destruct Hp as [Hp _].
      intros Hset. apply (setResolved_above n) in Hset; assumption.
    + destruct (alloc_above n h e Hcl Hn) as [K1 C1].
      destruct (SetV vVar _ _) as [h2|] eqn:E2; cbn [mbind result_bind];
        [|discriminate].
      assert (Hr : Forall (fun r => n <= r) (refs (VPtr (Some (length h, [])))))
        by (cbn [refs]; constructor; [exact Hn|constructor]).
      destruct (SetV_above n _ _ _ _ C1 Hc Hr E2) as [K2 C2].
      intros Hset. apply (above_chain n h h2 h').
      * eauto using keepsFirst_trans.
      * apply (setResolved_above n) in Hset; auto.
        destruct K1, K2. lia.
  - intros Hset. apply (setResolved_above n) in Hset; assumption.
Qed.

Lemma findExtraDataField_place (vSect f : Value) :
  findExtraDataField vSect = Ok (Some f) -> (vplace f).1 = (vplace vSect).1.
Proof.
  unfold findExtraDataField. destruct (fieldsOf (vtype vSect)) as [fs|];
    [|discriminate].
  intros [= H]. revert H.
  assert (Hgen : forall (l : list (nat * StructField)) acc,
            (forall g, acc = Some g -> (vplace g).1 = (vplace vSect).1) ->
            fold_left
              (fun value '(i, f) =>
                 if String.eqb (FTag f) "extra_values"
                 then Some (Field vSect i f) else value) l acc = Some f ->
            (vplace f).1 = (vplace vSect).1).
  { induction l as [|[i g] l IH]; intros acc Hacc; cbn [fold_left].
    - apply Hacc.
    - apply IH. destruct (String.eqb (FTag g) "extra_values"); [|exact Hacc].
      intros g' [= <-]. reflexivity. }
  apply Hgen. discriminate.
Qed.

Lemma loadMap_closed (n : nat) (h : heap) (v : Value) (a : addr) :
  closedAbove n h -> n <= (vplace v).1 -> loadMap h v = Ok (Some a) -> n <= a.
Proof.
  intros Hcl Hn. unfold loadMap. destruct (load h (vplace v)) as [x|] eqn:E;
    cbn [must mbind result_bind]; [|discriminate].
  destruct x; try discriminate. intros [= ->].
  pose proof (load_closed _ _ _ _ Hcl Hn E) as H. cbn [refs] in H.
  apply Forall_cons_1 in H. tauto.
Qed.

Lemma SetMapIndex_above (n : nat) (v : Value) (a : addr) (k : string)
    (xt : rtype) (x : value) (h h' : heap) :
  closedAbove n h -> n <= a -> Forall (fun r => n <= r) (refs x) ->
  SetMapIndex v a k xt x h = Ok h' -> keepsFirst n h h' /\ closedAbove n h'.
Proof.
  intros Hcl Hn Hx E. split.
  - eapply SetMapIndex_keepsFirst; eauto.
  - eapply closed_SetMapIndex; eauto.
Qed.

Lemma setExtraDataInSection_above (n : nat) (vSect : Value)
    (key val : string) (l : loc) (h h' : heap) (ok : bool) (e : diagnostic) :
  closedAbove n h -> n <= length h -> n <= (vplace vSect).1 ->
  setExtraDataInSection vSect key val l h = Ok (h', ok, e) ->
  keepsFirst n h h' /\ closedAbove n h'.
Proof.
  intros Hcl Hn Hc. unfold setExtraDataInSection.
  destruct (findExtraDataField vSect) as [[f|]|] eqn:Ef;
    cbn [mbind result_bind]; try discriminate.
  2: { intros [= <- _ _]. apply same_above, Hcl. }
  pose proof (findExtraDataField_place _ _ Ef) as Hpl.
  assert (Hcf : n <= (vplace f).1) by (rewrite Hpl; exact Hc).
  assert (Hnew : forall m h2,
             map_Forall (fun _ v => Forall (fun r => n <= r) (refs v)) m ->
             SetV f (VMap (Some (length h))) (h ++ [CMap m]) = Ok h2 ->
             keepsFirst n h h2 /\ closedAbove n h2).
  { intros m h2 Hm E. apply (above_chain n h (h ++ [CMap m]) h2).
    - apply keepsFirst_alloc, Hn.
    - eapply SetV_above; [|exact Hcf| |exact E].
      + apply closed_alloc; [exact Hcl|exact Hm].
      + cbn [refs]. constructor; [exact Hn|constructor]. }
  assert (Hstr : forall s, Forall (fun r => n <= r) (refs (VString s)))
    by (intros; constructor).
  case_bool_decide; [|case_bool_decide].
  - destruct (loadMap h f) as [[a|]|] eqn:Em; cbn [mbind result_bind alloc];
      try discriminate.
    + destruct (SetMapIndex _ _ _ _ _ _) as [h1|] eqn:E1;
        cbn [mbind result_bind]; [|discriminate].
      intros [= <- _ _]. eapply SetMapIndex_above; [exact Hcl| | |exact E1].
      * eapply loadMap_closed; eauto.
      * apply Hstr.
    + destruct (SetV _ _ _) as [h1|] eqn:E1; cbn [mbind result_bind];
        [|discriminate].
      intros [= <- _ _]. eapply Hnew; [|exact E1].
      apply map_Forall_singleton. apply Hstr.
  - destruct (loadMap h f) as [[a|]|] eqn:Em; cbn [mbind result_bind alloc];
      try discriminate.
    + pose proof (loadMap_closed _ _ _ _ Hcl Hcf Em) as Ha.
      unfold MapIndex. destruct (Key (vtype f)); [|discriminate].
      destruct (assignable _ _); [|discriminate]. unfold mapCell.
      destruct (h !! a) as [[w|m]|] eqn:Ecell; cbn [mbind result_bind];
        try discriminate.
      pose proof (Hcl _ _ Ha Ecell) as Hm. cbn [cellAbove] in Hm.
      destruct (m !! key) as [v|] eqn:Ek.
      * destruct (negb (CanSet f)); [discriminate|].
        destruct v; try discriminate.
        destruct (SetMapIndex _ _ _ _ _ _) as [h1|] eqn:E1;
          cbn [mbind result_bind]; [|discriminate].
        intros [= <- _ _]. eapply SetMapIndex_above; [exact Hcl|exact Ha| |exact E1].
        pose proof (Hm _ _ Ek) as Hv. cbn [refs] in Hv |- *.
        rewrite flat_map_app. apply Forall_app. split; [exact Hv|constructor].
      * destruct (SetMapIndex _ _ _ _ _ _) as [h1|] eqn:E1;
          cbn [mbind result_bind]; [|discriminate].
        intros [= <- _ _]. eapply SetMapIndex_above; [exact Hcl|exact Ha| |exact E1].
        constructor.
    + destruct (SetV _ _ _) as [h1|] eqn:E1; cbn [mbind result_bind];
        [|discriminate].
      intros [= <- _ _]. eapply Hnew; [|exact E1].
      apply map_Forall_singleton. constructor.
  - intros [= <- _ _]. apply same_above, Hcl.
Qed.

Lemma fieldFold_place (v fv : Value) (name : string) (t : tag) :
  fieldFold v name = Ok (Some fv, t) -> (vplace fv).1 = (vplace v).1.
Proof.
  intros H. apply fieldFold_Some in H.
  destruct H as (fs & i & f & _ & _ & -> & _). reflexivity.
Qed.

Lemma setVariable_above (n : nat) (c c' : Collector) (vSect : Value)
    (l : loc) (name : string) (blank : bool) (val : string) (h h' : heap)
    (r : option diagnostic) :
  closedAbove n h -> n <= length h -> n <= (vplace vSect).1 ->
  setVariable c (Some vSect) l name blank val h = Ok (h', c', r) ->
  keepsFirst n h h' /\ closedAbove n h'.
Proof.
  intros Hcl Hn Hc. unfold setVariable.
  destruct (String.eqb name ""); [intros [= <- _ _]; apply same_above, Hcl|].
  destruct (fieldFold vSect name) as [[[vVar|] t]|] eqn:Ef;
    cbn [mbind result_bind]; try discriminate.
  - pose proof (fieldFold_place _ _ _ _ Ef) as Hpl.
    destruct (setValue _ _ _ _ _ _) as [[h1 e]|] eqn:E;
      cbn [mbind result_bind]; [|discriminate].
    intros [= <- _ _]. eapply setValue_above; [exact Hcl|exact Hn| |exact E].
    rewrite Hpl. exact Hc.
  - destruct (setExtraDataInSection _ _ _ _ _) as [[[h1 ok] e]|] eqn:E;
      cbn [mbind result_bind]; [|discriminate].
    pose proof (setExtraDataInSection_above _ _ _ _ _ _ _ _ _ Hcl Hn Hc E) as K.
    destruct ok.
    + destruct (Collect c e). intros [= <- _ _]. exact K.
    + intros [= <- _ _]. exact K.
Qed.

Hypothesis Hgob : DecodeValue_fresh.

(** What [newValue] does to the heap: the new value is in the first free
    cell, the cells below the mark are kept and the heap stays closed. *)
Lemma newValue_above (n : nat) (c c1 : Collector) (sect : string)
    (vCfg : Value) (vType : rtype) (h h1 : heap) (pv : place)
    (err : option diagnostic) :
  closedAbove n h -> n <= length h ->
  newValue c sect vCfg vType h = Ok (h1, c1, pv, err) ->
  pv = (length h, [])
  /\ (keepsFirst n h h1 /\ closedAbove n h1)
  /\ length h < length h1.
Proof.
  intros Hcl Hn. unfold newValue. cbn [alloc].
  destruct (alloc_above n h vType Hcl Hn) as [K0 C0].
  assert (L0 : length h < length (h ++ [CVal (zero vType)]))
    by (rewrite length_app; cbn; lia).
  destruct (fieldFold vCfg _) as [[[dflt|] t]|]; cbn [mbind result_bind];
    try discriminate.
  2: { intros [= <- _ <- _]. auto. }
  destruct (load _ (vplace dflt)) as [dv|]; cbn [must mbind result_bind];
    [|discriminate].
  destruct (EncodeValue _ _ _) as [[b eerr]|]; cbn [mbind result_bind];
    [|discriminate].
  destruct (collect c _) as [c2 [e|]].
  { intros [= <- _ <- _]. auto. }
  destruct (DecodeValue b vType (length h) _) as [h2 derr] eqn:Ed.
  apply Hgob in Ed.
  2: { rewrite lookup_app_r by lia. rewrite Nat.sub_diag. reflexivity. }
  destruct Ed as (Hlen & Hkeep & Hnew).
  assert (H2 : keepsFirst n h h2 /\ closedAbove n h2).
  { split.
    - split; [lia|]. intros i Hi. rewrite Hkeep by lia.
      apply lookup_app_l. lia.
    - intros i c' Hi Hl.
      destruct (decide (i < length h)) as [Hlt|Hge].
      + rewrite Hkeep in Hl by lia. apply (C0 _ _ Hi Hl).
      + eapply cellAbove_mono; [|eapply (Hnew i c'); [|exact Hl]].
        * lia.
        * rewrite length_app. cbn [length]. lia. }
  destruct (collect c2 _) as [c3 [e|]]; intros [= <- _ <- _];
    (split; [reflexivity|]; split; [exact H2|lia]).
Qed.

(** *** Applying tuples to one subsection *)

Section OneSubsection.
Variables (cfg : rtype * value) (vCfg vSect : Value) (t0 : tag)
          (et vType : rtype) (sect sub : string)
          (h : heap) (a : addr) (m : gmap string value).
Hypothesis Hcfg : cfgStruct cfg = Some vCfg.
Hypothesis Hfold : fieldFold vCfg sect = Ok (Some vSect, t0).
Hypothesis Hk : kindOf (vtype vSect) = reflect.Map.
Hypothesis HK : Key (vtype vSect) = Some TString.
Hypothesis HE : Elem (vtype vSect) = Some et.
Hypothesis Hket : kindOf et = reflect.Ptr.
Hypothesis HEe : Elem et = Some vType.
Hypothesis Hkv : kindOf vType = reflect.Struct.
Hypothesis Hload : load h (vplace vSect) = Some (VMap (Some a)).
Hypothesis Hcell : h !! a = Some (CMap m).

(** [set] in the subsection pass, on a heap where the section still
    refers to the map object at [a]. *)
Lemma set_subsection (c : Collector) (name : string) (blank : bool)
    (val : string) (h1 : heap) (m1 : gmap string value) :
  load h1 (vplace vSect) = Some (VMap (Some a)) ->
  h1 !! a = Some (CMap m1) ->
  set c cfg sect sub name blank val true h1 =
    match m1 !! sub with
    | Some (VPtr p) =>
        setVariable c (option_map (fun p => mkValue vType p true) p)
          (mkLoc sect (Some sub) None) name blank val h1
    | Some _ => Panic IllTyped
    | None =>
        '(h2, c1, pv, err) ← newValue c sect vCfg vType h1;
        match err with
        | Some e => Ok (h2, c1, Some e)
        | None =>
            h3 ← SetMapIndex vSect a sub (TPtr vType) (VPtr (Some pv)) h2;
            setVariable c1 (Some (mkValue vType pv true))
              (mkLoc sect (Some sub) None) name blank val h3
        end
    end.
Proof.
  intros Hl1 Hc1. unfold set. rewrite Hcfg, Hfold. cbn [mbind result_bind].
  rewrite Hk, HK, HE. cbn [must mbind result_bind]. rewrite Hket.
  cbn [kindOf]. rewrite HEe. cbn [option_map]. rewrite Hkv.
  unfold loadMap. rewrite Hl1. cbn [must mbind result_bind].
  unfold MapIndex, mapCell. rewrite HK, assignable_refl, Hc1.
  cbn [mbind result_bind must].
  destruct (m1 !! sub) as [[| | | |p| | | |]|]; reflexivity.
Qed.

(** One more tuple keeps [subsectionInv]. *)
Lemma set_keeps_subsectionInv (c c2 : Collector) (name : string)
    (blank : bool) (val : string) (h1 h2 : heap) (r : option diagnostic) :
  subsectionInv h a m sub h1 ->
  set c cfg sect sub name blank val true h1 = Ok (h2, c2, r) ->
  subsectionInv h a m sub h2.
Proof.
  intros (Hlen & Hcl & Hold & m1 & Hm1 & Hagree & Hsub).
  pose proof (lookup_lt_Some _ _ _ Hcell) as Ha.
  pose proof (load_lt _ _ _ Hload) as Hv.
  assert (Hva : (vplace vSect).1 <> a).
  { destruct (load_CVal _ _ _ Hload) as [w Hw]. congruence. }
  assert (Hl1 : load h1 (vplace vSect) = Some (VMap (Some a))).
  { rewrite <- Hload. apply load_ext. apply Hold; assumption. }
  rewrite (set_subsection _ _ _ _ _ _ Hl1 Hm1).
  (* what a call that stays above the mark leaves *)
  assert (Hstay : forall h1' m1' h2',
            length h <= length h1' ->
            (forall i, i < length h -> i <> a -> h1' !! i = h !! i) ->
            h1' !! a = Some (CMap m1') ->
            (forall k, k <> sub -> m1' !! k = m !! k) ->
            (m1' !! sub = None
             \/ exists p, m1' !! sub = Some (VPtr (Some p)) /\ length h <= p.1) ->
            keepsFirst (length h) h1' h2' /\ closedAbove (length h) h2' ->
            subsectionInv h a m sub h2').
  { intros h1' m1' h2' Hlen' Hold' Hm1' Hagree' Hsub' [[L2 K2] C2].
    split; [lia|]. split; [exact C2|]. split.
    - intros i Hi Hia. rewrite K2 by exact Hi. apply Hold'; assumption.
    - exists m1'. rewrite K2 by exact Ha. auto. }
  destruct Hsub as [Hnone|(p & Hp & Hpn)].
  - (* the subsection is created *)
    rewrite Hnone.
    destruct (newValue c sect vCfg vType h1) as [[[[h1' c1] pv] err]|] eqn:En;
      cbn [mbind result_bind]; [|discriminate].
    destruct (newValue_above _ _ _ _ _ _ _ _ _ _ Hcl Hlen En)
      as (-> & [K1 C1] & Hlt1).
    destruct err as [e|].
    { intros [= <- _ _]. apply (Hstay h1 m1); auto. }
    destruct (SetMapIndex _ _ _ _ _ _) as [h1''|] eqn:E2;
      cbn [mbind result_bind]; [|discriminate].
    assert (Hh2 : h1'' = <[a := CMap (<[sub := VPtr (Some (length h1, []))]> m1)]> h1').
    { revert E2. unfold SetMapIndex, mapCell.
      destruct (negb (CanSet vSect)); [discriminate|].
      rewrite HK, HE. destruct (_ && _); [|discriminate].
      rewrite (proj2 K1) by exact Ha. rewrite Hm1. cbn [mbind result_bind].
      intros [= <-]. reflexivity. }
    intros Hset.
    apply (setVariable_above (length h)) in Hset.
    + apply (Hstay h1'' (<[sub := VPtr (Some (length h1, []))]> m1)); auto.
      * rewrite Hh2, length_insert. destruct K1. lia.
      * intros i Hi Hia. rewrite Hh2, list_lookup_insert_ne by congruence.
        rewrite (proj2 K1) by exact Hi. apply Hold; assumption.
      * rewrite Hh2. apply list_lookup_insert_eq. destruct K1. lia.
      * intros k Hk'. rewrite lookup_insert_ne by congruence. apply Hagree, Hk'.
      * right. exists (length h1, []). rewrite lookup_insert_eq. cbn [fst]. auto.
    + intros i c' Hi. rewrite Hh2, list_lookup_insert_ne by lia. apply C1, Hi.
    + rewrite Hh2, length_insert. destruct K1. lia.
    + cbn [vplace fst]. lia.
  - (* the subsection exists *)
    rewrite Hp. cbn [option_map]. intros Hset.
    apply (setVariable_above (length h)) in Hset; auto.
    apply (Hstay h1 m1); eauto.
Qed.

Lemma applied_keeps_subsectionInv (c c' : Collector) (h1 h' : heap) :
  subsectionInv h a m sub h1 ->
  applied cfg sect sub c h1 c' h' ->
  subsectionInv h a m sub h'.
Proof.
  intros Hinv Hrun. induction Hrun as [|? ? ? ? ? ? ? ? ? ? Hset _ IH]; [exact Hinv|].
  apply IH. eapply set_keeps_subsectionInv; eauto.
Qed.

End OneSubsection.


End Laws.
End Properties.

(** * The properties on the sample schema *)

Lemma flat_refs (v : value) : Sample.flat v = true -> refs v = [].
Proof.
  induction v using value_full_ind; cbn [Sample.flat refs]; auto.
  - destruct p; [|auto]. intros H. apply bool_decide_eq_true in H. discriminate.
  - induction H as [|x l Hx _ IH]; cbn [forallb flat_map]; [auto|].
    intros Hf. apply andb_true_iff in Hf. destruct Hf as [H1 H2].
    rewrite (Hx H1), (IH H2). reflexivity.
  - destruct m; [|auto]. intros H. apply bool_decide_eq_true in H. discriminate.
  - induction H as [|x l Hx _ IH]; cbn [forallb flat_map]; [auto|].
    intros Hf. apply andb_true_iff in Hf. destruct Hf as [H1 H2].
    rewrite (Hx H1), (IH H2). reflexivity.
Qed.

(** The sample decoder is as [DecodeValue_fresh] asks. *)
Lemma sample_DecodeValue_fresh : DecodeValue_fresh (L := Sample.lib).
Proof.
  intros b T a h h' e Hz. cbn [DecodeValue Sample.lib]. unfold Sample.decodeValue.
  assert (Hsame : length h <= length h
                  /\ (forall i, i < length h -> i <> a -> h !! i = h !! i)
                  /\ (forall i c, i = a \/ length h <= i -> h !! i = Some c ->
                                  cellAbove (length h) c)).
  { split; [lia|]. split; [auto|]. intros i c [->|Hi] Hl.
    - rewrite Hz in Hl. injection Hl as <-. cbn [cellAbove].
      rewrite refs_zero. constructor.
    - apply lookup_lt_Some in Hl. lia. }
  destruct b as [v|]; [|intros [= <- _]; exact Hsame].
  destruct (Sample.flat v) eqn:Hf; [|intros [= <- _]; exact Hsame].
  intros [= <- _]. rewrite length_insert. split; [lia|]. split.
  - intros i _ Hi. apply list_lookup_insert_ne. congruence.
  - intros i c [->|Hi] Hl.
    + rewrite list_lookup_insert_eq in Hl by (eapply lookup_lt_Some, Hz).
      injection Hl as <-. cbn [cellAbove]. rewrite (flat_refs _ Hf). constructor.
    + apply lookup_lt_Some in Hl. rewrite length_insert in Hl. lia.
Qed.

(** The sample parsers are as [collaborators_keep_refs] asks. *)
Lemma sample_keep_refs : collaborators_keep_refs (L := Sample.lib).
Proof.
  split; [|split].
  - intros T s m cur v e. cbn [ParseInt Sample.lib]. unfold Sample.parseInt.
    destruct s; [intros [= <- _]; reflexivity|].
    destruct (Sample.parseDigits _ _); intros [= <- _]; [|reflexivity].
    destruct T; cbn [refs]; apply list_subseteq_nil.
  - intros T s verb cur v e. cbn [ScanFully Sample.lib]. unfold Sample.scanFully.
    destruct (underlying T); intros [= <- _];
      try reflexivity. cbn [refs]. apply list_subseteq_nil.
  - intros T f s. cbn [UnmarshalText Sample.lib]. unfold Sample.unmarshalText.
    case_bool_decide; [|discriminate]. intros [= <-] cur v e.
    destruct (String.eqb s "set"); intros [= <- _]; [|reflexivity].
    cbn [refs]. apply list_subseteq_nil.
Qed.

Import Sample.

(** C1, the claim as stated fails: [int] is not a fixed-width type, and
    neither is [big.Int], yet their default mode has no octal. *)
Lemma default_bases_counterexample :
  fixedWidth TInt = false
  /\ intModeDefault TInt = Z.lor Dec Hex
  /\ fixedWidth TBigInt = false
  /\ intModeDefault TBigInt = Z.lor Dec Hex
  /\ Z.lor Dec Hex <> Z.lor (Z.lor Dec Hex) Oct.
Proof. repeat split; try reflexivity. discriminate. Qed.

Lemma int_default_bases_witness :
  trySetters setters None vDepth false "42" (mkTag "" "")
    (mkLoc "core" None (Some "depth")) heap0 =
    '(h', e) ← callExt vDepth
        (fun cur =>
           ParseInt (vtype vDepth) cur "42"
             (if bool_decide (vtype vDepth ∈ typeModesKeys) then Z.lor Dec Hex
              else Z.lor (Z.lor Dec Hex) Oct)) heap0;
    Ok (h', option_map
              (fun e => locErr (Error e) (mkLoc "core" None (Some "depth"))) e).
Proof.
  apply (int_default_bases vDepth "42" (mkTag "" "")); [reflexivity|].
  right. split; reflexivity.
Defined.

(** C2, the claim as stated fails: with an [int] as catch-all field the
    call returns, handing back the error. *)
Lemma extra_field_counterexample :
  set noWarnings cfgOdd "sec" "" "bogus" false "v" false heapOdd =
    Ok (heapOdd, noWarnings, Some (extraFieldTypeErr TInt))
  /\ forall p, set noWarnings cfgOdd "sec" "" "bogus" false "v" false heapOdd <> Panic p.
Proof.
  assert (E : set noWarnings cfgOdd "sec" "" "bogus" false "v" false heapOdd =
              Ok (heapOdd, noWarnings, Some (extraFieldTypeErr TInt)))
    by (vm_compute; reflexivity).
  split; [exact E|]. intros p. rewrite E. discriminate.
Qed.

Lemma extra_field_of_other_type_witness :
  set noWarnings cfgOdd "sec" "" "bogus" false "v" false heapOdd =
    Ok (heapOdd, (Collect noWarnings (extraFieldTypeErr TInt)).1,
                 (Collect noWarnings (extraFieldTypeErr TInt)).2).
Proof.
  apply (extra_field_of_other_type noWarnings cfgOdd "sec" "" "bogus" false "v" false
           heapOdd vSec (mkValue TInt (0, [0; 1]) true)
           (mkLoc "sec" None None) (mkTag "" "")).
  - eapply reaches_section; reflexivity.
  - discriminate.
  - reflexivity.
  - reflexivity.
  - discriminate.
  - discriminate.
Defined.

(** C3, the claim as stated fails: two settable fields match [name] with
    different tags, and the resolution returns "no match". *)
Lemma fieldFold_ambiguous_counterexample :
  length (List.filter
            (fun f => foldMatch vAmbiguous
                        [ mkField "First" TString "name" true;
                          mkField "Second" TInt "name,int=h" true ]
                        "name" (FName f))
            [ mkField "First" TString "name" true;
              mkField "Second" TInt "name,int=h" true ]) = 2
  /\ fieldFold vAmbiguous "name" = Ok (None, mkTag "" "")
  /\ forall p, fieldFold vAmbiguous "name" <> Panic p.
Proof.
  split; [reflexivity|]. split; [reflexivity|]. intros p. discriminate.
Qed.

Lemma fieldFold_resolution_witness :
  exists i,
    [ mkField "Editor" TString "" true;
      mkField "Bare" TBool "" true;
      mkField "Depth" TInt "" true;
      mkField "Mask" TUintptr "" true;
      mkField "Names" (TSlice TString) "" true;
      mkField "Limit" (TPtr TInt) "" true;
      mkField "Seen" Flag "" true ] !! i
      = Some (mkField "Editor" TString "" true)
    /\ fieldFold vCore "editor" =
         Ok (Some (Field vCore i (mkField "Editor" TString "" true)),
             newTag (FTag (mkField "Editor" TString "" true))).
Proof.
  apply (proj2 (proj2 (fieldFold_resolution vCore "editor" _ eq_refl))).
  reflexivity.
Defined.

Lemma setters_chain_witness :
  trySetters ([typeSetter; textUnmarshalerSetter] ++ kindSetter :: [scanSetter])
    None vEditor false "vim" (mkTag "" "") (mkLoc "core" None (Some "editor"))
    heap0 =
  Ok (<[0 := CVal (VStruct
                     [ VStruct [VString "vim"; VBool false; VInt 0; VInt 0;
                                VSlice []; VPtr None; VBool false];
                       VStruct [VString ""; VSlice []; VMap None];
                       VMap None; VMap None ])]> heap0,
      option_map (fun e => locErr (Error e) (mkLoc "core" None (Some "editor")))
        None).
Proof.
  apply (proj1 (proj2 (setters_chain vEditor false "vim" (mkTag "" "")
                         (mkLoc "core" None (Some "editor")))))
         with (h1 := heap0).
  - eapply allUnsupported_cons; [reflexivity|].
    eapply allUnsupported_cons; [reflexivity|]. apply allUnsupported_nil.
  - reflexivity.
  - discriminate.
Defined.

Lemma unresolved_section_witness :
  (forall subsectPass : bool,
     set noWarnings cfg0 "nope" "" "x" false "1" subsectPass heap0 =
       Ok (heap0, (Collect noWarnings (extraData (mkLoc "nope" None None))).1,
                  (Collect noWarnings (extraData (mkLoc "nope" None None))).2))
  /\ ('(h1, c1, _) ← set noWarnings cfg0 "nope" "" "x" false "1" false heap0;
      set c1 cfg0 "nope" "" "x" false "1" true h1) =
     Ok (heap0,
         ([ extraData (mkLoc "nope" None None);
            extraData (mkLoc "nope" None None) ] : list diagnostic), None).
Proof.
  apply (unresolved_section_collected_twice noWarnings cfg0
           (mkValue Config (0, []) true) (mkTag "" "")
           "nope" "" "x" false "1" heap0); reflexivity.
Defined.

(** C8, the claim as stated fails: [Seen] is of boolean kind, its type has
    an [UnmarshalText] method, and a blank assignment is an error that
    leaves the field false. *)
Lemma bool_kind_counterexample :
  kindOf (vtype vSeen) = reflect.Bool
  /\ fieldFold vCore "seen" = Ok (Some vSeen, mkTag "" "")
  /\ set noWarnings cfg0 "core" "" "seen" true "" false heap0 =
       Ok (heap0, [],
           Some (locErr "blank value not supported for type"
                   (mkLoc "core" None (Some "seen"))))
  /\ load heap0 (vplace vSeen) = Some (VBool false).
Proof. repeat split; vm_compute; reflexivity. Qed.

Lemma bool_field_witness :
  (exists h', set noWarnings cfg0 "core" "" "bare" true "false" false heap0
                = Ok (h', noWarnings, None)
              /\ store heap0 (vplace vBare) (VBool true) = Some h'
              /\ load h' (vplace vBare) = Some (VBool true))
  /\ (forall b, ParseBool "false" = inl b ->
       exists h', set noWarnings cfg0 "core" "" "bare" false "false" false heap0
                    = Ok (h', noWarnings, None)
                  /\ store heap0 (vplace vBare) (VBool b) = Some h'
                  /\ load h' (vplace vBare) = Some (VBool b))
  /\ (forall msg, ParseBool "false" = inr msg ->
       set noWarnings cfg0 "core" "" "bare" false "false" false heap0 =
         Ok (heap0, noWarnings, Some (locErr msg (mkLoc "core" None (Some "bare"))))).
Proof.
  apply (bool_field noWarnings cfg0 "core" "" "bare" "false" false heap0 vCore vBare
           (mkLoc "core" None None) (mkTag "" "") (VBool false)).
  - eapply reaches_section; reflexivity.
  - discriminate.
  - reflexivity.
  - reflexivity.
  - reflexivity.
Defined.

Lemma flat_map_section_witness :
  exists h' a,
    set noWarnings cfg0 "alias" "" "co" false "checkout" true heap0 = Ok (h', noWarnings, None)
    /\ (None = Some a \/ (@None addr = None /\ a = length heap0))
    /\ mapContents h' vAlias =
         Some (Some a, <["co" := VString "checkout"]> ∅)
    /\ (forall i, i < length heap0 -> i <> (vplace vAlias).1 -> i <> a ->
                  h' !! i = heap0 !! i).
Proof.
  apply (flat_map_section noWarnings cfg0 (mkValue Config (0, []) true) vAlias
           (mkTag "" "") "alias" "" "co" false "checkout" heap0 None ∅);
    reflexivity.
Defined.

Lemma nil_pointer_field_witness :
  match trySetters setters None (mkValue TInt (length heap0, []) true) false
          "7" (mkTag "" "") (mkLoc "core" None (Some "limit"))
          (heap0 ++ [CVal (zero TInt)]) with
  | Panic p => set noWarnings cfg0 "core" "" "limit" false "7" false heap0 = Panic p
  | Ok (h1, Some err) =>
      set noWarnings cfg0 "core" "" "limit" false "7" false heap0 = Ok (h1, noWarnings, Some err)
      /\ (exists x, h1 = heap0 ++ [CVal x])
      /\ load h1 (vplace vLimit) = Some (VPtr None)
  | Ok (h1, None) =>
      exists h2 x,
        set noWarnings cfg0 "core" "" "limit" false "7" false heap0 = Ok (h2, noWarnings, None)
        /\ h1 = heap0 ++ [CVal x]
        /\ store h1 (vplace vLimit) (VPtr (Some (length heap0, []))) = Some h2
        /\ load h2 (vplace vLimit) = Some (VPtr (Some (length heap0, [])))
        /\ load h2 (length heap0, []) = Some x
  end.
Proof.
  apply (nil_pointer_field noWarnings cfg0 "core" "" "limit" false "7" false heap0
           vCore vLimit (mkLoc "core" None None) (mkTag "" "") TInt).
  - eapply reaches_section; reflexivity.
  - discriminate.
  - reflexivity.
  - reflexivity.
  - reflexivity.
  - reflexivity.
Defined.

Lemma multi_valued_field_witness :
  exists h' ys,
    length ys = length ["a"; "b"]
    /\ holdsSeq h' vNames ([] ++ ys)
    /\ (forall k hk,
          assigned noWarnings cfg0 "core" "" "names" false vNames
            (take k ["a"; "b"]) heap0 hk ->
          holdsSeq hk vNames ([] ++ take k ys))
    /\ (forall vSect l t val,
          reaches h' cfg0 "core" "" false vSect l ->
          fieldFold vSect "names" = Ok (Some vNames, t) ->
          exists h'',
            set noWarnings cfg0 "core" "" "names" true val false h' = Ok (h'', noWarnings, None)
            /\ holdsSeq h'' vNames []).
Proof.
  eexists.
  eapply (multi_valued_field noWarnings cfg0 "core" "" "names" false vNames TString
            ["a"; "b"] heap0 _ []).
  - discriminate.
  - left. reflexivity.
  - apply holdsSeq_slice; reflexivity.
  - eapply assigned_cons with (vSect := vCore);
      [eapply reaches_section; reflexivity | reflexivity
      | vm_compute; reflexivity |].
    eapply assigned_cons with (vSect := vCore);
      [eapply reaches_section; reflexivity | reflexivity
      | vm_compute; reflexivity |].
    apply assigned_nil.
Defined.


(** The heap [heapA] is the one [set] makes, and a run on it: subsection
    [b] is created and given a url and two fetch values; subsection [a]
    and the template are as before. *)
Example heapA_made :
  set noWarnings cfg0 "remote" "a" "url" false "u" true heap0
    = Ok (heapA, noWarnings, None).
Proof. vm_compute. reflexivity. Qed.

Example remote_b_run :
  exists h',
    applied cfg0 "remote" "b" noWarnings heapA noWarnings h'
    /\ load h' (2, []) = Some (VStruct [VString "u"; VSlice []; VMap None])
    /\ load h' (0, [1]) = Some (VStruct [VString ""; VSlice []; VMap None])
    /\ load h' (3, []) =
         Some (VStruct [VString "v"; VSlice [VString "x"; VString "y"];
                        VMap None]).
Proof.
  eexists. split.
  - eapply (applied_cons _ _ _ "" true ""); [vm_compute; reflexivity|].
    eapply (applied_cons _ _ _ "url" false "v"); [vm_compute; reflexivity|].
    eapply (applied_cons _ _ _ "fetch" false "x"); [vm_compute; reflexivity|].
    eapply (applied_cons _ _ _ "fetch" false "y"); [vm_compute; reflexivity|].
    apply applied_nil.
  - repeat split; vm_compute; reflexivity.
Qed.

(** * Further properties *)

(** ** Tags *)

Lemma append_empty (s : string) : String.append "" s = s.
Proof. reflexivity. Qed.

Lemma append_String (c : ascii) (a s : string) :
  String.append (String c a) s = String c (String.append a s).
Proof. reflexivity. Qed.

Lemma Split_nonempty (s : string) (sep : ascii) : Split s sep <> [].
Proof.
  destruct s as [|a s]; cbn [Split]; [discriminate|].
  destruct (Ascii.eqb a sep); [discriminate|].
  destruct (Split s sep); discriminate.
Qed.

(** Splitting two strings joined by the separator. *)
Lemma Split_join (a b : string) (sep : ascii) :
  Split (String.append a (String sep b)) sep = Split a sep ++ Split b sep.
Proof.
  induction a as [|c a IH].
  - rewrite append_empty. cbn [Split]. rewrite Ascii.eqb_refl. reflexivity.
  - rewrite append_String. cbn [Split].
    destruct (Ascii.eqb c sep); rewrite IH; [reflexivity|].
    pose proof (Split_nonempty a sep) as Hne.
    destruct (Split a sep); [contradiction|reflexivity].
Qed.

Lemma Split_none (s : string) (sep : ascii) :
  hasByte sep s = false -> Split s sep = [s].
Proof.
  induction s as [|c s IH]; cbn [hasByte Split]; [reflexivity|].
  intros H. apply orb_false_iff in H. destruct H as [H1 H2].
  rewrite H1, (IH H2). reflexivity.
Qed.

(** The directives never change the identifier. *)
Lemma newTag_fold_ident (segs : list string) (t : tag) :
  t_ident (fold_left
             (fun t tse =>
                if HasPrefix tse "int=" then mkTag (t_ident t) (sliceFrom 4 tse)
                else t) segs t) = t_ident t.
Proof.
  revert t. induction segs as [|x r IH]; intros t; cbn [fold_left]; [reflexivity|].
  rewrite IH. destruct (HasPrefix x "int="); reflexivity.
Qed.

(** X1.  The identifier of a tag is the text before its first comma: a tag
    without a comma is its own identifier and names no integer mode, and
    whatever follows the first comma leaves the identifier alone. *)
Theorem newTag_ident (id rest : string) :
  hasByte "," id = false ->
  newTag id = mkTag id ""
  /\ t_ident (newTag (String.append id (String "," rest))) = id.
Proof.
  intros Hid. split.
  - unfold newTag. rewrite (Split_none _ _ Hid). reflexivity.
  - unfold newTag. rewrite newTag_fold_ident, Split_join, (Split_none _ _ Hid).
    reflexivity.
Qed.

(** X2.  Adding one more comma-separated element to a tag: an element
    [int=m] replaces the integer mode named so far by [m] (the last
    directive wins), any other element is ignored; the identifier stays. *)
Theorem newTag_directive (ts seg : string) :
  hasByte "," seg = false ->
  newTag (String.append ts (String "," seg)) =
    if HasPrefix seg "int=" then mkTag (t_ident (newTag ts)) (sliceFrom 4 seg)
    else newTag ts.
Proof.
  intros Hseg. unfold newTag at 1.
  rewrite Split_join, (Split_none _ _ Hseg).
  pose proof (Split_nonempty ts ",") as Hne.
  unfold newTag.
  destruct (Split ts ",") as [|x r]; [contradiction|].
  cbn [app hd tl]. rewrite fold_left_app. cbn [fold_left].
  destruct (HasPrefix seg "int="); reflexivity.
Qed.

(** ** Integer modes *)

Lemma ContainsAny_app (a b chars : string) :
  ContainsAny (String.append a b) chars =
    ContainsAny a chars || ContainsAny b chars.
Proof.
  induction a as [|c a IH]; [reflexivity|].
  rewrite append_String. cbn [ContainsAny]. rewrite IH, orb_assoc. reflexivity.
Qed.

Lemma hasByte_app (c : ascii) (a b : string) :
  hasByte c (String.append a b) = hasByte c a || hasByte c b.
Proof.
  induction a as [|x a IH]; [reflexivity|].
  rewrite append_String. cbn [hasByte]. rewrite IH, orb_assoc. reflexivity.
Qed.

Lemma ContainsAny_chars (s c1 c2 : string) :
  ContainsAny s (String.append c1 c2) = ContainsAny s c1 || ContainsAny s c2.
Proof.
  induction s as [|x s IH]; cbn [ContainsAny]; [reflexivity|].
  rewrite IH, hasByte_app.
  destruct (hasByte x c1), (hasByte x c2), (ContainsAny s c1),
    (ContainsAny s c2); reflexivity.
Qed.

Lemma intMode_zero (mode : string) :
  intMode mode = 0%Z <-> ContainsAny mode "dDhHoO" = false.
Proof.
  change "dDhHoO" with (String.append "dD" (String.append "hH" "oO")).
  rewrite !ContainsAny_chars. unfold intMode.
  destruct (ContainsAny mode "dD"), (ContainsAny mode "hH"),
    (ContainsAny mode "oO"); cbv; split; intros H;
    first [discriminate H | reflexivity].
Qed.

(** X3.  The mode of an [int=] directive is the union of the bases its
    letters name: the letters of two texts put together give the union of
    their modes (so neither order nor repetition matters), and the mode is
    empty exactly when none of the letters d, D, h, H, o, O occurs. *)
Theorem intMode_letters (a b : string) :
  intMode (String.append a b) = Z.lor (intMode a) (intMode b)
  /\ (intMode a = 0%Z <-> ContainsAny a "dDhHoO" = false).
Proof.
  split; [|apply intMode_zero].
  unfold intMode. rewrite !ContainsAny_app.
  destruct (ContainsAny a "dD"), (ContainsAny a "hH"), (ContainsAny a "oO"),
    (ContainsAny b "dD"), (ContainsAny b "hH"), (ContainsAny b "oO");
    reflexivity.
Qed.

Section ChainProperties.
Context {L : Lib}.

(** ** The chain on particular destinations *)

(** The chain when [typeSetter] and [textUnmarshalerSetter] pass. *)
Lemma trySetters_kind (d : Value) (blank : bool) (val : string) (t : tag)
    (l : loc) (h : heap) :
  vtype d <> TBigInt ->
  methodUnmarshalText (vtype d) = None ->
  trySetters setters None d blank val t l h =
    trySetters [kindSetter; scanSetter] (Some errUnsupportedType) d blank val
      t l h.
Proof.
  intros Hn Hm. unfold setters.
  rewrite (trySetters_unsupported _ _ _ _ _ _ _ _ h h)
    by (apply typeSetter_not_bigInt, Hn).
  rewrite (trySetters_unsupported _ _ _ _ _ _ _ _ h h)
    by (apply textUnmarshalerSetter_none, Hm).
  reflexivity.
Qed.

Lemma intSetter_mode (d : Value) (val : string) (t : tag) (h : heap) :
  intSetter d false val t h =
    callExt d
      (fun cur =>
         ParseInt (vtype d) cur val
           (if ContainsAny (t_intMode t) "dDhHoO" then intMode (t_intMode t)
            else intModeDefault (vtype d))) h.
Proof.
  unfold intSetter.
  destruct (ContainsAny (t_intMode t) "dDhHoO") eqn:E.
  - destruct (Z.eqb_spec (intMode (t_intMode t)) 0) as [H0|]; [|reflexivity].
    apply intMode_zero in H0. congruence.
  - apply intMode_zero in E. rewrite E. reflexivity.
Qed.

(** X4.  For a destination of integer kind (or a [big.Int]): when the
    tag's [int=] directive holds at least one of the letters d, h, o (in
    either case), the text goes to [ParseInt] with exactly the bases the
    directive names, whatever the destination type; when the directive
    holds none of them, it counts as absent and the default of the type is
    used. *)
Theorem int_directive_bases (d : Value) (val : string) (t : tag) (l : loc)
    (h : heap) :
  vtype d = TBigInt
  \/ (isIntKind (kindOf (vtype d)) = true
      /\ methodUnmarshalText (vtype d) = None) ->
  (ContainsAny (t_intMode t) "dDhHoO" = true ->
   trySetters setters None d false val t l h =
     '(h', e) ← callExt d
         (fun cur => ParseInt (vtype d) cur val (intMode (t_intMode t))) h;
     Ok (h', option_map (fun e => locErr (Error e) l) e))
  /\ (ContainsAny (t_intMode t) "dDhHoO" = false ->
      trySetters setters None d false val t l h =
        '(h', e) ← callExt d
            (fun cur => ParseInt (vtype d) cur val (intModeDefault (vtype d))) h;
        Ok (h', option_map (fun e => locErr (Error e) l) e)).
Proof.
  intros Hd.
  assert (Hchain : trySetters setters None d false val t l h =
            '(h', e) ← intSetter d false val t h;
            Ok (h', option_map (fun e => locErr (Error e) l) e)).
  { rewrite intSetter_mode. destruct Hd as [Hbig|[Hk Hm]].
    - unfold setters. apply trySetters_callExt.
      rewrite typeSetter_bigInt by exact Hbig. apply intSetter_mode.
    - rewrite trySetters_kind; [|intros E; rewrite E in Hk; discriminate|exact Hm].
      apply trySetters_callExt.
      rewrite kindSetter_int by exact Hk. apply intSetter_mode. }
  rewrite Hchain, intSetter_mode. split; intros ->; reflexivity.
Qed.

(** The chain on a blank value. *)
Lemma trySetters_blank (d : Value) (val : string) (t : tag) (l : loc)
    (h : heap) :
  kindOf (vtype d) <> reflect.Bool \/ methodUnmarshalText (vtype d) <> None ->
  trySetters setters None d true val t l h =
    Ok (h, Some (locErr "blank value not supported for type" l)).
Proof.
  intros Hd.
  destruct (decide (vtype d = TBigInt)) as [Hbig|Hn].
  { unfold setters. cbn [trySetters].
    rewrite typeSetter_bigInt by exact Hbig. reflexivity. }
  destruct (methodUnmarshalText (vtype d)) as [f|] eqn:Hm.
  { unfold setters.
    rewrite (trySetters_unsupported _ _ _ _ _ _ _ _ h h)
      by (apply typeSetter_not_bigInt, Hn).
    cbn [trySetters]. unfold textUnmarshalerSetter. rewrite Hm. reflexivity. }
  rewrite trySetters_kind by assumption.
  destruct Hd as [Hk|Hk]; [|contradiction].
  cbn [trySetters]. unfold kindSetter, lookupBy, kindSetters.
  destruct (kindOf (vtype d)); try contradiction; reflexivity.
Qed.

(** X5.  A destination that is neither a [big.Int] nor a text
    unmarshaller, and whose kind has no entry in [kindSetters] or whose
    kind is string without its type being the predeclared [string] (a
    defined string type): the text is handed to [ScanFully] with the verb
    [v], and what it returns is the outcome. *)
Theorem scan_fallback (d : Value) (val : string) (t : tag) (l : loc)
    (h : heap) :
  vtype d <> TBigInt ->
  methodUnmarshalText (vtype d) = None ->
  hasKindSetter (kindOf (vtype d)) = false
  \/ (kindOf (vtype d) = reflect.String /\ vtype d <> TString) ->
  trySetters setters None d false val t l h =
    '(h', e) ← callExt d (fun cur => ScanFully (vtype d) cur val "v"%char) h;
    Ok (h', option_map (fun e => locErr (Error e) l) e).
Proof.
  intros Hn Hm Hk. rewrite trySetters_kind by assumption.
  rewrite (trySetters_unsupported _ _ _ _ _ _ _ _ h h).
  - apply trySetters_callExt. reflexivity.
  - unfold kindSetter, lookupBy, kindSetters. destruct Hk as [Hk|[Hk Hs]].
    + destruct (kindOf (vtype d)); try discriminate; reflexivity.
    + rewrite Hk. cbn [List.find bool_decide fst snd option_map].
      change (stringSetter d false val t h = Ok (h, Some errUnsupportedType)).
      unfold stringSetter.
      rewrite (bool_decide_eq_false_2 (vtype d = TString)) by exact Hs.
      reflexivity.
Qed.

(** X6.  A destination whose type has an [UnmarshalText] method and is
    not [big.Int]: the text goes to that method, whatever the kind of the
    type, and what the method returns is the outcome. *)
Theorem unmarshaler_precedence (d : Value) (val : string) (t : tag) (l : loc)
    (h : heap) (f : value -> string -> ext) :
  vtype d <> TBigInt ->
  methodUnmarshalText (vtype d) = Some f ->
  trySetters setters None d false val t l h =
    '(h', e) ← callExt d (fun cur => f cur val) h;
    Ok (h', option_map (fun e => locErr (Error e) l) e).
Proof.
  intros Hn Hm. unfold setters.
  rewrite (trySetters_unsupported _ _ _ _ _ _ _ _ h h)
    by (apply typeSetter_not_bigInt, Hn).
  apply trySetters_callExt. unfold textUnmarshalerSetter. rewrite Hm.
  reflexivity.
Qed.

End ChainProperties.

Section VariableProperties.
Context {L : Lib}.

(** ** Variables handed whole to the chain *)

Lemma wholeValued_plain (v : Value) :
  wholeValued (vtype v) ->
  isMultiVal v = false
  /\ String.eqb (TypeName (vtype v)) ""
     && bool_decide (kindOf (vtype v) = reflect.Ptr) = false.
Proof.
  unfold isMultiVal. intros [Hn|[Hs Hp]].
  - destruct (String.eqb_spec (TypeName (vtype v)) ""); [contradiction|].
    split; reflexivity.
  - rewrite (bool_decide_eq_false_2 _ Hs), (bool_decide_eq_false_2 _ Hp).
    rewrite !andb_false_r. split; reflexivity.
Qed.

Lemma set_plain (c : Collector) (cfg : rtype * value)
    (sect sub name : string) (blank : bool) (val : string) (pass : bool)
    (h : heap) (vSect vVar : Value) (l : loc) (t : tag) :
  reaches h cfg sect sub pass vSect l ->
  name <> "" ->
  fieldFold vSect name = Ok (Some vVar, t) ->
  wholeValued (vtype vVar) ->
  set c cfg sect sub name blank val pass h =
    '(h', e) ← trySetters setters None
                 (mkValue (vtype vVar) (vplace vVar) true) blank val t
                 (mkLoc (section l) (subsection l) (Some name)) h;
    Ok (h', c, e).
Proof.
  intros Hr Hn Hf Hw. destruct (wholeValued_plain _ Hw) as [Hm Hd].
  rewrite (set_reaches _ _ _ _ _ _ _ _ _ _ _ Hr).
  rewrite (setVariable_found _ _ _ _ _ _ _ _ _ Hn Hf).
  rewrite (setValue_plain _ _ _ _ _ _ Hm Hd). reflexivity.
Qed.

(** X7.  A field of a defined type is single-valued and is never
    dereferenced, whatever its kind: a field of type [type T []string] or
    [type P *int] goes to the chain as it is; no element is allocated or
    appended and no pointer is followed or allocated. *)
Theorem defined_type_whole (c : Collector) (cfg : rtype * value)
    (sect sub name : string) (blank : bool) (val : string) (pass : bool)
    (h : heap) (vSect vVar : Value) (l : loc) (t : tag) (n : string)
    (u : rtype) :
  reaches h cfg sect sub pass vSect l ->
  name <> "" ->
  fieldFold vSect name = Ok (Some vVar, t) ->
  vtype vVar = TNamed n u ->
  n <> "" ->
  isMultiVal vVar = false
  /\ set c cfg sect sub name blank val pass h =
       '(h', e) ← trySetters setters None
                    (mkValue (TNamed n u) (vplace vVar) true) blank val t
                    (mkLoc (section l) (subsection l) (Some name)) h;
       Ok (h', c, e).
Proof.
  intros Hr Hn Hf Ht Hnn.
  assert (Hw : wholeValued (vtype vVar)) by (left; rewrite Ht; exact Hnn).
  split; [apply wholeValued_plain, Hw|].
  rewrite <- Ht. eapply set_plain; eauto.
Qed.

(** X8.  A blank assignment to a variable that is handed whole to the
    chain is rejected unless the variable is of boolean kind and its type
    has no [UnmarshalText]: [set] returns the located error "blank value
    not supported for type" and the heap is as it was.  So integers,
    strings, [big.Int]s, text unmarshallers and everything left to the
    scanner need a value. *)
Theorem blank_unsupported (c : Collector) (cfg : rtype * value)
    (sect sub name : string) (val : string) (pass : bool)
    (h : heap) (vSect vVar : Value) (l : loc) (t : tag) :
  reaches h cfg sect sub pass vSect l ->
  name <> "" ->
  fieldFold vSect name = Ok (Some vVar, t) ->
  wholeValued (vtype vVar) ->
  kindOf (vtype vVar) <> reflect.Bool
  \/ methodUnmarshalText (vtype vVar) <> None ->
  set c cfg sect sub name true val pass h =
    Ok (h, c, Some (locErr "blank value not supported for type"
                      (mkLoc (section l) (subsection l) (Some name)))).
Proof.
  intros Hr Hn Hf Hw Hk.
  rewrite (set_plain _ _ _ _ _ _ _ _ _ _ _ _ _ Hr Hn Hf Hw).
  rewrite trySetters_blank by exact Hk. reflexivity.
Qed.

(** X9.  A field of the predeclared type [string] takes the text as it
    is, the empty text included: [set] succeeds, the field holds the text,
    nothing else in the heap changes and no parser is consulted. *)
Theorem string_field (c : Collector) (cfg : rtype * value)
    (sect sub name : string) (val : string) (pass : bool)
    (h : heap) (vSect vVar : Value) (l : loc) (t : tag) (old : value) :
  reaches h cfg sect sub pass vSect l ->
  name <> "" ->
  fieldFold vSect name = Ok (Some vVar, t) ->
  vtype vVar = TString ->
  load h (vplace vVar) = Some old ->
  exists h',
    set c cfg sect sub name false val pass h = Ok (h', c, None)
    /\ store h (vplace vVar) (VString val) = Some h'
    /\ load h' (vplace vVar) = Some (VString val).
Proof.
  intros Hr Hn Hf Ht Hl.
  assert (Hw : wholeValued (vtype vVar)).
  { right. rewrite Ht. split; discriminate. }
  rewrite (set_plain _ _ _ _ _ _ _ _ _ _ _ _ _ Hr Hn Hf Hw).
  rewrite trySetters_kind; cbn [vtype]; rewrite Ht; [|discriminate|reflexivity].
  destruct (store_is_Some h (vplace vVar) (VString val)) as [h' Hh']; [eauto|].
  exists h'. cbn [trySetters]. unfold kindSetter, lookupBy, kindSetters.
  cbn [vtype kindOf List.find bool_decide fst snd option_map].
  change (('(h'0, e) ← ('(h0, err) ← stringSetter
                                     (mkValue TString (vplace vVar) true)
                                     false val t h;
                        match err with
                        | None => Ok (h0, None)
                        | Some e =>
                            if bool_decide (e = errUnsupportedType)
                            then trySetters [scanSetter] (Some e)
                                   (mkValue TString (vplace vVar) true) false
                                   val t
                                   (mkLoc (section l) (subsection l)
                                      (Some name)) h0
                            else Ok (h0, Some (locErr (Error e)
                                   (mkLoc (section l) (subsection l)
                                      (Some name))))
                        end);
           Ok (h'0, c, e)) = Ok (h', c, None)
          /\ store h (vplace vVar) (VString val) = Some h'
          /\ load h' (vplace vVar) = Some (VString val)).
  unfold stringSetter. cbn [vtype vplace].
  rewrite bool_decide_eq_true_2 by reflexivity. rewrite Hh'.
  split; [reflexivity|]. split; [reflexivity|]. eapply load_store, Hh'.
Qed.

(** ** The shape of the section field *)

(** X10.  A tuple is ignored in the pass that does not suit the shape of
    its section field: the value pass does nothing for a map, the
    subsection pass nothing for a field of any other kind; [set] returns
    nil and changes nothing. *)
Theorem wrong_pass_is_noop (c : Collector) (cfg : rtype * value)
    (vCfg vSect : Value) (t : tag) (sect sub name : string) (blank : bool)
    (val : string) (pass : bool) (h : heap) :
  cfgStruct cfg = Some vCfg ->
  fieldFold vCfg sect = Ok (Some vSect, t) ->
  pass <> bool_decide (kindOf (vtype vSect) = reflect.Map) ->
  set c cfg sect sub name blank val pass h = Ok (h, c, None).
Proof.
  intros Hcfg Hfold Hp. unfold set. rewrite Hcfg, Hfold.
  cbn [mbind result_bind].
  destruct pass, (bool_decide (kindOf (vtype vSect) = reflect.Map));
    try contradiction; reflexivity.
Qed.

(** X11.  A section field that is neither a map nor a struct makes [set]
    panic in the value pass, before the variable is looked at. *)
Theorem section_field_kind (c : Collector) (cfg : rtype * value)
    (vCfg vSect : Value) (t : tag) (sect sub name : string) (blank : bool)
    (val : string) (h : heap) :
  cfgStruct cfg = Some vCfg ->
  fieldFold vCfg sect = Ok (Some vSect, t) ->
  kindOf (vtype vSect) <> reflect.Map ->
  kindOf (vtype vSect) <> reflect.Struct ->
  set c cfg sect sub name blank val false h = Panic (PanicSectField sect).
Proof.
  intros Hcfg Hfold Hm Hs. unfold set. rewrite Hcfg, Hfold.
  cbn [mbind result_bind].
  rewrite (bool_decide_eq_false_2 _ Hm), (bool_decide_eq_false_2 _ Hs).
  reflexivity.
Qed.

(** X12.  A map-shaped section field panics in the subsection pass unless
    it maps strings to strings or strings to pointers to structs: when the
    key is not of string kind, or when the element is neither of string
    kind nor a pointer to a struct.  The panic comes before the map is
    looked at. *)
Theorem map_section_shape (c : Collector) (cfg : rtype * value)
    (vCfg vSect : Value) (t : tag) (kt et : rtype) (sect sub name : string)
    (blank : bool) (val : string) (h : heap) :
  cfgStruct cfg = Some vCfg ->
  fieldFold vCfg sect = Ok (Some vSect, t) ->
  kindOf (vtype vSect) = reflect.Map ->
  Key (vtype vSect) = Some kt ->
  Elem (vtype vSect) = Some et ->
  kindOf kt <> reflect.String
  \/ (kindOf et <> reflect.String
      /\ (kindOf et <> reflect.Ptr
          \/ forall s, Elem et = Some s -> kindOf s <> reflect.Struct)) ->
  set c cfg sect sub name blank val true h = Panic (PanicMapField sect).
Proof.
  intros Hcfg Hfold Hk HK HE Hbad. unfold set. rewrite Hcfg, Hfold.
  cbn [mbind result_bind]. rewrite Hk, HK, HE.
  cbn [must mbind result_bind]. rewrite bool_decide_eq_true_2 by reflexivity.
  cbn [Bool.eqb negb].
  destruct Hbad as [Hkt|[Hes Hrest]].
  - rewrite (bool_decide_eq_false_2 _ Hkt). reflexivity.
  - rewrite (bool_decide_eq_false_2 _ Hes), andb_false_r.
    destruct Hrest as [Hp|Hs].
    + rewrite (bool_decide_eq_false_2 _ Hp), orb_true_r. reflexivity.
    + replace (bool_decide (option_map kindOf (Elem et) = Some reflect.Struct))
        with false; [rewrite orb_true_r; reflexivity|].
      symmetry. apply bool_decide_eq_false_2.
      destruct (Elem et) as [s|] eqn:Es; cbn [option_map]; [|discriminate].
      intros [= E]. exact (Hs s eq_refl E).
Qed.

(** X13.  A subsection name given for a struct-shaped section: [set]
    hands the collector an [extraData] that names the section only
    (neither the subsection nor the variable), returns what the collector
    returns and changes nothing. *)
Theorem struct_section_with_subsection (c : Collector) (cfg : rtype * value)
    (vCfg vSect : Value) (t : tag) (sect sub name : string) (blank : bool)
    (val : string) (h : heap) :
  cfgStruct cfg = Some vCfg ->
  fieldFold vCfg sect = Ok (Some vSect, t) ->
  kindOf (vtype vSect) = reflect.Struct ->
  sub <> "" ->
  set c cfg sect sub name blank val false h =
    Ok (h, (Collect c (extraData (mkLoc sect None None))).1,
           (Collect c (extraData (mkLoc sect None None))).2).
Proof.
  intros Hcfg Hfold Hk Hsub. unfold set. rewrite Hcfg, Hfold.
  cbn [mbind result_bind]. rewrite Hk.
  rewrite bool_decide_eq_false_2 by discriminate.
  rewrite bool_decide_eq_true_2 by reflexivity. cbn [Bool.eqb negb].
  destruct (String.eqb_spec sub ""); [contradiction|]. cbn [negb].
  destruct (Collect c _). reflexivity.
Qed.

(** ** Variables that match no field *)

(** X14.  A variable that matches no field of an aggregate without a
    catch-all field: [set] hands the collector an [extraData] with the
    section, the subsection (if any) and the variable, returns what the
    collector returns and changes nothing. *)
Theorem unknown_variable (c : Collector) (cfg : rtype * value)
    (sect sub name : string) (blank : bool) (val : string) (pass : bool)
    (h : heap) (vSect : Value) (l : loc) (t : tag) :
  reaches h cfg sect sub pass vSect l ->
  name <> "" ->
  fieldFold vSect name = Ok (None, t) ->
  findExtraDataField vSect = Ok None ->
  let e := extraData (mkLoc (section l) (subsection l) (Some name)) in
  set c cfg sect sub name blank val pass h =
    Ok (h, (Collect c e).1, (Collect c e).2).
Proof.
  intros Hr Hn Hf Hx e. rewrite (set_reaches _ _ _ _ _ _ _ _ _ _ _ Hr).
  unfold setVariable. destruct (String.eqb_spec name ""); [contradiction|].
  rewrite Hf. cbn [mbind result_bind].
  unfold setExtraDataInSection. rewrite Hx. cbn [mbind result_bind].
  fold e. destruct (Collect c e). reflexivity.
Qed.

(** The fold of [findExtraDataField] over fields none of which is tagged. *)
Lemma findExtra_untagged (vSect : Value) (fs : list StructField)
    (g : nat -> StructField -> nat * StructField) (acc : option Value) :
  Forall (fun f => FTag f <> "extra_values") fs ->
  (forall i f, (g i f).2 = f) ->
  fold_left
    (fun value '(i, f) =>
       if String.eqb (FTag f) "extra_values"
       then Some (Field vSect i f) else value)
    (imap g fs) acc = acc.
Proof.
  intros H. revert g acc. induction H as [|f fs Hf _ IH]; intros g acc Hg;
    [reflexivity|].
  cbn [imap fold_left]. rewrite IH by (intros; apply Hg).
  pose proof (Hg 0 f) as H0. destruct (g 0 f) as [i f']. cbn [snd] in H0.
  subst f'. destruct (String.eqb_spec (FTag f) "extra_values");
    [contradiction|reflexivity].
Qed.

(** X15.  The catch-all field of an aggregate is its last field whose
    [gcfg] tag is exactly [extra_values]; an aggregate none of whose fields
    has that tag has no catch-all field. *)
Theorem findExtraDataField_last (vSect : Value) (fs : list StructField) :
  fieldsOf (vtype vSect) = Some fs ->
  (Forall (fun g => FTag g <> "extra_values") fs ->
   findExtraDataField vSect = Ok None)
  /\ (forall pre f post,
        fs = pre ++ f :: post ->
        FTag f = "extra_values" ->
        Forall (fun g => FTag g <> "extra_values") post ->
        findExtraDataField vSect = Ok (Some (Field vSect (length pre) f))).
Proof.
  intros Hfs. unfold findExtraDataField. rewrite Hfs. split.
  - intros H. rewrite findExtra_untagged; auto.
  - intros pre f post -> Hf Hpost.
    rewrite imap_app, fold_left_app. cbn [imap fold_left].
    rewrite findExtra_untagged; [|exact Hpost|reflexivity].
    rewrite Nat.add_0_r, Hf. reflexivity.
Qed.

(** ** Field resolution *)

(** X16.  What field resolution returns is sound: the field is a field of
    the struct, exported, in a struct that can itself be set; the tag is
    the field's; the field was matched by the identifier of its tag when
    it has one (never by its Go name then), and otherwise by its Go name
    against the folded variable name; and no other field matches. *)
Theorem fieldFold_sound (v fv : Value) (name : string) (t : tag) :
  fieldFold v name = Ok (Some fv, t) ->
  exists fs i f,
    fieldsOf (vtype v) = Some fs /\ fs !! i = Some f
    /\ fv = Field v i f /\ t = newTag (FTag f)
    /\ CanSet v = true /\ FExported f = true
    /\ (if String.eqb (t_ident t) "" then EqualFold (foldName name) (FName f)
        else EqualFold (t_ident t) name) = true
    /\ forall g, In g fs -> foldMatch v fs name (FName g) = true -> g = f.
Proof.
  unfold fieldFold, FieldByNameFunc.
  destruct (fieldsOf (vtype v)) as [fs|] eqn:Hfs; [|discriminate].
  destruct (List.filter _ fs) as [|f [|g r]] eqn:Hhits; try discriminate.
  destruct (FieldByName_of_match v fs name f Hhits) as (i & Hi & E).
  rewrite E. intros [= <- <-]. exists fs, i, f.
  assert (Hin : In f (List.filter (fun f => foldMatch v fs name (FName f)) fs))
    by (rewrite Hhits; left; reflexivity).
  apply filter_In in Hin. destruct Hin as [_ Hm].
  unfold foldMatch in Hm. rewrite E in Hm.
  destruct (CanSet (Field v i f)) eqn:Hcan; [|discriminate].
  cbn [negb] in Hm. cbn [Field CanSet] in Hcan.
  apply andb_true_iff in Hcan. destruct Hcan as [Hcv Hex].
  repeat split; auto.
  - destruct (String.eqb (t_ident (newTag (FTag f))) ""); exact Hm.
  - intros g Hg Hmg.
    assert (Hin : In g (List.filter (fun f => foldMatch v fs name (FName f)) fs))
      by (apply filter_In; auto).
    rewrite Hhits in Hin. destruct Hin as [<-|[]]. reflexivity.
Qed.

(** ** What [set] does with the collector *)

Lemma trySetters_locErr (ss : list setter) (err : option error) (d : Value)
    (blank : bool) (val : string) (t : tag) (l : loc) (h h' : heap)
    (x : diagnostic) :
  trySetters ss err d blank val t l h = Ok (h', Some x) ->
  exists msg, x = locErr msg l.
Proof.
  revert err h. induction ss as [|s ss IH]; intros err h; cbn [trySetters].
  - destruct err; [|discriminate]. intros [= _ <-]. eauto.
  - destruct (s d blank val t h) as [[h1 [e|]]|]; cbn [mbind result_bind];
      try discriminate.
    case_bool_decide; [apply IH|]. intros [= _ <-]. eauto.
Qed.

Lemma setResolved_locErr (isMulti : bool) (vVar : Value) (t : tag) (l : loc)
    (blank : bool) (val : string) (h h' : heap) (x : diagnostic) :
  setResolved isMulti vVar t l blank val h = Ok (h', Some x) ->
  exists msg, x = locErr msg l.
Proof.
  unfold setResolved. destruct (isMulti && blank).
  { destruct (SetV _ _ _); discriminate. }
  match goal with
  | |- (?a ≫= _) = _ -> _ => destruct a as [[vVal h1]|]
  end; cbn [mbind result_bind]; [|discriminate].
  match goal with
  | |- (?a ≫= _) = _ -> _ => destruct a as [cur|]
  end; cbn [mbind result_bind]; [|discriminate].
  match goal with
  | |- (?a ≫= _) = _ -> _ => destruct a as [[vAddr h2]|]
  end; cbn [mbind result_bind]; [|discriminate].
  destruct (trySetters _ _ _ _ _ _ _ _) as [[h3 [e|]]|] eqn:E;
    cbn [mbind result_bind]; try discriminate.
  - intros [= _ <-]. eapply trySetters_locErr, E.
  - match goal with
    | |- (?a ≫= _) = _ -> _ => destruct a
    end; cbn [mbind result_bind]; [|discriminate].
    match goal with
    | |- (?a ≫= _) = _ -> _ => destruct a
    end; cbn [mbind result_bind]; discriminate.
Qed.

(** X17.  When the variable is found, [set] never consults the collector:
    the collector is as it was, and what [set] returns is nil or a located
    error that carries the section, the subsection and the variable.
    Conversion errors are returned, not collected. *)
Theorem value_errors_not_collected (c c' : Collector) (cfg : rtype * value)
    (sect sub name : string) (blank : bool) (val : string) (pass : bool)
    (h h' : heap) (vSect vVar : Value) (l : loc) (t : tag)
    (r : option diagnostic) :
  reaches h cfg sect sub pass vSect l ->
  name <> "" ->
  fieldFold vSect name = Ok (Some vVar, t) ->
  set c cfg sect sub name blank val pass h = Ok (h', c', r) ->
  c' = c
  /\ (r = None
      \/ exists msg,
           r = Some (locErr msg (mkLoc (section l) (subsection l) (Some name)))).
Proof.
  intros Hr Hn Hf. rewrite (set_reaches _ _ _ _ _ _ _ _ _ _ _ Hr).
  rewrite (setVariable_found _ _ _ _ _ _ _ _ _ Hn Hf).
  destruct (setValue _ _ _ _ _ _) as [[h1 e]|] eqn:E; cbn [mbind result_bind];
    [|discriminate].
  intros [= <- <- <-]. split; [reflexivity|].
  destruct e as [x|]; [right|left; reflexivity].
  revert E. unfold setValue.
  match goal with
  | |- (?a ≫= _) = _ -> _ => destruct a as [[vV h0]|]
  end; cbn [mbind result_bind]; [|discriminate].
  intros E. apply setResolved_locErr in E. destruct E as [msg ->]. eauto.
Qed.

(** X18.  The empty variable name only reaches the section or subsection:
    once the aggregate is there, [set] returns nil, changes nothing and
    consults neither the collector nor a parser, whatever the value. *)
Theorem empty_name (c : Collector) (cfg : rtype * value)
    (sect sub : string) (blank : bool) (val : string) (pass : bool)
    (h : heap) (vSect : Value) (l : loc) :
  reaches h cfg sect sub pass vSect l ->
  set c cfg sect sub "" blank val pass h = Ok (h, c, None).
Proof.
  intros Hr. rewrite (set_reaches _ _ _ _ _ _ _ _ _ _ _ Hr). reflexivity.
Qed.

End VariableProperties.

Section AggregateProperties.
Context {L : Lib}.

(** ** Catch-all fields *)

(** Storing [x] under [key] in the map a field holds, as
    [setExtraDataInSection] does it: with [SetMapIndex] when the field
    refers to a map, with a new one-entry map when it is nil. *)
Lemma put_in_map (f : Value) (xt : rtype) (key : string) (x : value)
    (h : heap) (oa : option addr) (m0 : gmap string value) :
  CanSet f = true ->
  Key (vtype f) = Some TString ->
  Elem (vtype f) = Some xt ->
  mapContents h f = Some (oa, m0) ->
  exists h' a,
    match oa with
    | Some a0 => SetMapIndex f a0 key xt x h
    | None => SetV f (VMap (Some (length h))) (h ++ [CMap {[ key := x ]}])
    end = Ok h'
    /\ loadMap h f = Ok oa
    /\ (oa = Some a \/ (oa = None /\ a = length h))
    /\ mapContents h' f = Some (Some a, <[key := x]> m0)
    /\ (forall i, i < length h -> i <> (vplace f).1 -> i <> a ->
                  h' !! i = h !! i).
Proof.
  intros Hcan HK HE Hmc. unfold mapContents in Hmc.
  destruct (load h (vplace f)) as [v|] eqn:Hl; [|discriminate].
  destruct v as [| | | | |  |[a|]| |]; try discriminate.
  - destruct (h !! a) as [[w|m]|] eqn:Ha; try discriminate.
    injection Hmc as <- <-.
    destruct (load_CVal _ _ _ Hl) as [w Hw].
    assert (Hne : (vplace f).1 <> a) by congruence.
    eexists _, a. unfold SetMapIndex, mapCell.
    rewrite Hcan, HK, HE, !assignable_refl, Ha. cbn [negb andb mbind result_bind].
    split; [reflexivity|]. split.
    { unfold loadMap. rewrite Hl. reflexivity. }
    split; [auto|]. split.
    + unfold mapContents.
      rewrite (load_ext h) by (apply list_lookup_insert_ne; congruence).
      rewrite Hl, list_lookup_insert_eq by (eapply lookup_lt_Some, Ha).
      reflexivity.
    + intros i _ _ Hi. apply list_lookup_insert_ne. congruence.
  - injection Hmc as <- <-.
    pose proof (load_lt _ _ _ Hl) as Hlt.
    unfold SetV. rewrite Hcan.
    destruct (store_is_Some (h ++ [CMap {[ key := x ]}]) (vplace f)
                (VMap (Some (length h)))) as [h2 Hh2].
    { rewrite (load_app _ _ _ _ Hl). eauto. }
    exists h2, (length h). rewrite Hh2. split; [reflexivity|]. split.
    { unfold loadMap. rewrite Hl. reflexivity. }
    split; [auto|]. split.
    + unfold mapContents. rewrite (load_store _ _ _ _ Hh2).
      rewrite (store_lookup_ne _ _ _ _ _ Hh2) by lia.
      rewrite lookup_app_r by lia. rewrite Nat.sub_diag. cbn [lookup list_lookup].
      rewrite insert_empty. reflexivity.
    + intros i Hi Hne _. rewrite (store_lookup_ne _ _ _ _ _ Hh2) by exact Hne.
      apply lookup_app_l, Hi.
Qed.

Lemma mapContents_inv (h : heap) (f : Value) (oa : option addr)
    (m0 : gmap string value) :
  mapContents h f = Some (oa, m0) ->
  loadMap h f = Ok oa
  /\ (forall a, oa = Some a -> h !! a = Some (CMap m0))
  /\ (oa = None -> m0 = ∅).
Proof.
  unfold mapContents, loadMap.
  destruct (load h (vplace f)) as [[| | | | | |[a1|]| |]|]; try discriminate.
  - destruct (h !! a1) as [[w|m]|] eqn:E; try discriminate.
    intros [= <- <-]. split; [reflexivity|]. split; [|discriminate].
    intros a [= <-]. exact E.
  - intros [= <- <-]. split; [reflexivity|]. split; [discriminate|reflexivity].
Qed.

(** [set] on a variable that matches no field of an aggregate with a
    catch-all field. *)
Lemma set_extra (c : Collector) (cfg : rtype * value)
    (sect sub name : string) (blank : bool) (val : string) (pass : bool)
    (h : heap) (vSect : Value) (l : loc) (t : tag) :
  reaches h cfg sect sub pass vSect l ->
  name <> "" ->
  fieldFold vSect name = Ok (None, t) ->
  set c cfg sect sub name blank val pass h =
    '(h', ok, err) ← setExtraDataInSection vSect name val
                       (mkLoc (section l) (subsection l) (Some name)) h;
    if ok : bool then let '(c', r) := Collect c err in Ok (h', c', r)
    else Ok (h', c, None).
Proof.
  intros Hr Hn Hf. rewrite (set_reaches _ _ _ _ _ _ _ _ _ _ _ Hr).
  unfold setVariable. destruct (String.eqb_spec name ""); [contradiction|].
  rewrite Hf. reflexivity.
Qed.

(** X19.  A variable that matches no field of an aggregate whose
    catch-all field is an exported [map[string]string]: [set] succeeds
    without consulting the collector; the map (a new one if the field was
    nil) then has the value under the variable name, replacing what was
    there, the empty value included; its other entries and the other cells
    of the heap are as they were. *)
Theorem extras_string_map (c : Collector) (cfg : rtype * value)
    (sect sub name : string) (blank : bool) (val : string) (pass : bool)
    (h : heap) (vSect f : Value) (l : loc) (t : tag) (oa : option addr)
    (m0 : gmap string value) :
  reaches h cfg sect sub pass vSect l ->
  name <> "" ->
  fieldFold vSect name = Ok (None, t) ->
  findExtraDataField vSect = Ok (Some f) ->
  vtype f = TMap TString TString ->
  CanSet f = true ->
  mapContents h f = Some (oa, m0) ->
  exists h' a,
    set c cfg sect sub name blank val pass h = Ok (h', c, None)
    /\ (oa = Some a \/ (oa = None /\ a = length h))
    /\ mapContents h' f = Some (Some a, <[name := VString val]> m0)
    /\ (forall i, i < length h -> i <> (vplace f).1 -> i <> a ->
                  h' !! i = h !! i).
Proof.
  intros Hr Hn Hf Hx Ht Hcan Hmc.
  destruct (put_in_map f TString name (VString val) h oa m0 Hcan)
    as (h' & a & Hput & Hlm & Ha & Hm' & Hfr);
    [rewrite Ht; reflexivity|rewrite Ht; reflexivity|exact Hmc|].
  exists h', a. split; [|auto].
  rewrite (set_extra _ _ _ _ _ _ _ _ _ _ _ _ Hr Hn Hf).
  unfold setExtraDataInSection. rewrite Hx. cbn [mbind result_bind].
  rewrite (bool_decide_eq_true_2 _ Ht), Hlm. cbn [mbind result_bind].
  destruct oa as [a0|]; cbn [alloc]; rewrite Hput; reflexivity.
Qed.

(** X20.  A variable that matches no field of an aggregate whose
    catch-all field is an exported [map[string][]string]: [set] succeeds
    without consulting the collector; the value is added at the end of the
    sequence the map (a new one if the field was nil) has under the
    variable name, which starts a new sequence when there was none; the
    other entries and the other cells of the heap are as they were. *)
Theorem extras_slice_map (c : Collector) (cfg : rtype * value)
    (sect sub name : string) (blank : bool) (val : string) (pass : bool)
    (h : heap) (vSect f : Value) (l : loc) (t : tag) (oa : option addr)
    (m0 : gmap string value) (old : list value) :
  reaches h cfg sect sub pass vSect l ->
  name <> "" ->
  fieldFold vSect name = Ok (None, t) ->
  findExtraDataField vSect = Ok (Some f) ->
  vtype f = TMap TString (TSlice TString) ->
  CanSet f = true ->
  mapContents h f = Some (oa, m0) ->
  (m0 !! name = None /\ old = []) \/ m0 !! name = Some (VSlice old) ->
  exists h' a,
    set c cfg sect sub name blank val pass h = Ok (h', c, None)
    /\ (oa = Some a \/ (oa = None /\ a = length h))
    /\ mapContents h' f =
         Some (Some a, <[name := VSlice (old ++ [VString val])]> m0)
    /\ (forall i, i < length h -> i <> (vplace f).1 -> i <> a ->
                  h' !! i = h !! i).
Proof.
  intros Hr Hn Hf Hx Ht Hcan Hmc Hold.
  destruct (put_in_map f (TSlice TString) name
              (VSlice (old ++ [VString val])) h oa m0 Hcan)
    as (h' & a & Hput & Hlm & Ha & Hm' & Hfr);
    [rewrite Ht; reflexivity|rewrite Ht; reflexivity|exact Hmc|].
  exists h', a. split; [|auto].
  rewrite (set_extra _ _ _ _ _ _ _ _ _ _ _ _ Hr Hn Hf).
  unfold setExtraDataInSection. rewrite Hx. cbn [mbind result_bind].
  rewrite bool_decide_eq_false_2 by (rewrite Ht; discriminate).
  rewrite (bool_decide_eq_true_2 _ Ht), Hlm. cbn [mbind result_bind].
  destruct oa as [a0|]; cbn [alloc].
  - (* the field refers to a map *)
    assert (Hcell : h !! a0 = Some (CMap m0))
      by (apply (mapContents_inv _ _ _ _ Hmc); reflexivity).
    unfold MapIndex, mapCell. rewrite Ht. cbn [Key underlying].
    rewrite assignable_refl, Hcell. cbn [mbind result_bind].
    destruct Hold as [[Hnone ->]|Hsome].
    + rewrite Hnone. cbn [app] in Hput. rewrite Hput. reflexivity.
    + rewrite Hsome, Hcan. cbn [negb]. rewrite Hput. reflexivity.
  - (* the field is nil: there is no entry *)
    assert (Hm0 : m0 = ∅)
      by (apply (mapContents_inv _ _ _ _ Hmc); reflexivity).
    subst m0. destruct Hold as [[_ ->]|Hsome];
      [|rewrite lookup_empty in Hsome; discriminate].
    cbn [app] in Hput. rewrite Hput. reflexivity.
Qed.

(** X21.  A catch-all field of one of the two map types that is not
    exported makes [set] panic, inside package reflect, on every variable
    that matches no field. *)
Theorem unexported_catch_all (c : Collector) (cfg : rtype * value)
    (sect sub name : string) (blank : bool) (val : string) (pass : bool)
    (h : heap) (vSect f : Value) (l : loc) (t : tag) (oa : option addr)
    (m0 : gmap string value) :
  reaches h cfg sect sub pass vSect l ->
  name <> "" ->
  fieldFold vSect name = Ok (None, t) ->
  findExtraDataField vSect = Ok (Some f) ->
  vtype f = TMap TString TString \/ vtype f = TMap TString (TSlice TString) ->
  CanSet f = false ->
  mapContents h f = Some (oa, m0) ->
  exists what,
    set c cfg sect sub name blank val pass h = Panic (PanicReflect what).
Proof.
  intros Hr Hn Hf Hx Ht Hcan Hmc.
  rewrite (set_extra _ _ _ _ _ _ _ _ _ _ _ _ Hr Hn Hf).
  unfold setExtraDataInSection. rewrite Hx. cbn [mbind result_bind].
  destruct (mapContents_inv _ _ _ _ Hmc) as (Hlm & Hcell & _).
  destruct Ht as [Ht|Ht].
  - rewrite (bool_decide_eq_true_2 _ Ht), Hlm. cbn [mbind result_bind].
    destruct oa as [a|]; cbn [alloc].
    + unfold SetMapIndex. rewrite Hcan. cbn [negb mbind result_bind]. eauto.
    + unfold SetV. rewrite Hcan. cbn [mbind result_bind]. eauto.
  - rewrite bool_decide_eq_false_2 by (rewrite Ht; discriminate).
    rewrite (bool_decide_eq_true_2 _ Ht), Hlm. cbn [mbind result_bind].
    destruct oa as [a|]; cbn [alloc].
    + unfold MapIndex, mapCell. rewrite Ht. cbn [Key underlying].
      rewrite assignable_refl, (Hcell a eq_refl). cbn [mbind result_bind].
      destruct (m0 !! name).
      * rewrite Hcan. cbn [negb]. eauto.
      * unfold SetMapIndex. rewrite Hcan. cbn [negb mbind result_bind]. eauto.
    + unfold SetV. rewrite Hcan. cbn [mbind result_bind]. eauto.
Qed.

(** ** Pointers that are not nil *)

(** X22.  A single-valued field of unnamed pointer type that is not nil:
    the chain is run on what the pointer refers to, no cell is allocated,
    and only the cell referred to can change; the field keeps the pointer
    it had (so whoever shares the pointer sees the new value). *)
Theorem pointer_field_written_through (c : Collector) (cfg : rtype * value)
    (sect sub name : string) (blank : bool) (val : string) (pass : bool)
    (h : heap) (vSect vVar : Value) (l : loc) (t : tag) (e : rtype)
    (p : place) :
  reaches h cfg sect sub pass vSect l ->
  name <> "" ->
  fieldFold vSect name = Ok (Some vVar, t) ->
  vtype vVar = TPtr e ->
  String.eqb (TypeName e) "" && bool_decide (kindOf e = reflect.Slice) = false ->
  load h (vplace vVar) = Some (VPtr (Some p)) ->
  set c cfg sect sub name blank val pass h =
    ('(h1, r) ← trySetters setters None (mkValue e p true) blank val t
                  (mkLoc (section l) (subsection l) (Some name)) h;
     Ok (h1, c, r))
  /\ forall h1 c1 r,
       set c cfg sect sub name blank val pass h = Ok (h1, c1, r) ->
       writesCell p.1 h h1
       /\ (p.1 <> (vplace vVar).1 ->
           load h1 (vplace vVar) = Some (VPtr (Some p))).
Proof.
  intros Hr Hn Hf Ht Hns Hl.
  assert (Hset : set c cfg sect sub name blank val pass h =
            ('(h1, r) ← trySetters setters None (mkValue e p true) blank val t
                          (mkLoc (section l) (subsection l) (Some name)) h;
             Ok (h1, c, r))).
  { rewrite (set_reaches _ _ _ _ _ _ _ _ _ _ _ Hr).
    rewrite (setVariable_found _ _ _ _ _ _ _ _ _ Hn Hf).
    unfold setValue. rewrite (isMultiVal_ptr _ _ Ht), Hns.
    cbn [andb mbind result_bind]. unfold setResolved.
    cbn [andb mbind result_bind]. rewrite Ht.
    cbn [TypeName kindOf String.eqb].
    rewrite bool_decide_eq_true_2 by reflexivity. cbn [andb].
    unfold loadPtr. rewrite Hl. cbn [must mbind result_bind].
    rewrite bool_decide_eq_false_2 by discriminate.
    cbn [Elem underlying must mbind result_bind].
    destruct (trySetters _ _ _ _ _ _ _ _) as [[h1 [err|]]|pp];
      reflexivity. }
  split; [exact Hset|]. intros h1 c1 r. rewrite Hset.
  destruct (trySetters _ _ _ _ _ _ _ _) as [[h2 r2]|pp] eqn:E;
    cbn [mbind result_bind]; [|discriminate].
  intros [= <- _ _].
  pose proof (trySetters_framed _ _ _ _ _ _ _ _ _ _ setters_framed E) as Hw.
  cbn [vplace] in Hw. split; [exact Hw|].
  intros Hne. rewrite <- Hl. apply load_ext.
  eapply writesCell_lookup_ne; [exact Hw|congruence].
Qed.

(** ** Multi-valued fields: a conversion that fails *)

(** What [setResolved] writes when the conversion of an element fails
    lies in the cells it has allocated. *)
Lemma setResolved_failed (vS : Value) (t : tag) (l : loc) (val : string)
    (h h' : heap) (err : diagnostic) :
  setResolved true vS t l false val h = Ok (h', Some err) ->
  keepsFirst (length h) h h'.
Proof.
  unfold setResolved. cbn [andb mbind result_bind].
  destruct (Elem (vtype vS)) as [e|]; cbn [must mbind result_bind alloc];
    [|discriminate].
  cbn [vtype vplace].
  assert (K1 : keepsFirst (length h) h (h ++ [CVal (zero e)]))
    by (apply keepsFirst_alloc; lia).
  destruct ((TypeName e =? "") && bool_decide (kindOf e = reflect.Ptr)) eqn:Hd;
    cbn [andb mbind result_bind].
  - unfold loadPtr. cbn [vplace]. rewrite load_last.
    cbn [must mbind result_bind].
    destruct (zero e) as [| | | |p| | | |] eqn:Hz; try discriminate.
    rewrite (zero_VPtr _ _ Hz) in *. cbn [mbind result_bind].
    rewrite bool_decide_eq_true_2 by reflexivity.
    destruct (Elem e) as [e2|]; cbn [must mbind result_bind]; [|discriminate].
    assert (K2 : keepsFirst (length h) (h ++ [CVal (VPtr None)])
                   ((h ++ [CVal (VPtr None)]) ++ [CVal (zero e2)])).
    { apply keepsFirst_alloc. rewrite length_app. lia. }
    destruct (trySetters _ _ _ _ _ _ _ _) as [[h3 [er|]]|pp] eqn:E;
      cbn [mbind result_bind]; try discriminate.
    + intros [= <- _].
      pose proof (trySetters_framed _ _ _ _ _ _ _ _ _ _ setters_framed E) as Hw.
      cbn [vplace fst] in Hw.
      assert (K3 : keepsFirst (length h)
                     ((h ++ [CVal (VPtr None)]) ++ [CVal (zero e2)]) h3).
      { eapply writesCell_keepsFirst; [|exact Hw]. rewrite length_app. lia. }
      eauto using keepsFirst_trans.
    + destruct (SetV _ _ _) as [h4|]; cbn [mbind result_bind]; [|discriminate].
      match goal with
      | |- (?a ≫= _) = _ -> _ => destruct a
      end; cbn [mbind result_bind]; discriminate.
  - destruct (trySetters _ _ _ _ _ _ _ _) as [[h3 [er|]]|pp] eqn:E;
      cbn [mbind result_bind]; try discriminate.
    + intros [= <- _].
      pose proof (trySetters_framed _ _ _ _ _ _ _ _ _ _ setters_framed E) as Hw.
      cbn [vplace fst] in Hw.
      assert (K3 : keepsFirst (length h) (h ++ [CVal (zero e)]) h3).
      { eapply writesCell_keepsFirst; [|exact Hw]. lia. }
      eauto using keepsFirst_trans.
    + match goal with
      | |- (?a ≫= _) = _ -> _ => destruct a
      end; cbn [mbind result_bind]; discriminate.
Qed.

(** X23.  When the conversion of a value for a multi-valued field fails,
    nothing is appended: [set] returns the error and the field holds the
    sequence it held; the cells that were there are as they were, except
    that a nil pointer to a slice has been made to point to a new, empty
    slice. *)
Theorem failed_element_not_appended (c c' : Collector) (cfg : rtype * value)
    (sect sub name : string) (val : string) (pass : bool) (h h' : heap)
    (vSect vVar : Value) (l : loc) (t : tag) (e : rtype) (xs : list value)
    (err : diagnostic) :
  reaches h cfg sect sub pass vSect l ->
  name <> "" ->
  fieldFold vSect name = Ok (Some vVar, t) ->
  vtype vVar = TSlice e \/ vtype vVar = TPtr (TSlice e) ->
  holdsSeq h vVar xs ->
  set c cfg sect sub name false val pass h = Ok (h', c', Some err) ->
  holdsSeq h' vVar xs
  /\ (forall i, i < length h -> i <> (vplace vVar).1 -> h' !! i = h !! i).
Proof.
  intros Hr Hn Hf Hty Hseq.
  pose proof (fieldFold_CanSet _ _ _ _ Hf) as Hcan.
  rewrite (set_reaches _ _ _ _ _ _ _ _ _ _ _ Hr).
  rewrite (setVariable_found _ _ _ _ _ _ _ _ _ Hn Hf).
  destruct (setValue _ _ _ _ _ _) as [[h1 r]|pp] eqn:E;
    cbn [mbind result_bind]; [|discriminate].
  intros [= -> _ ->]. revert E. unfold setValue.
  rewrite (isMultiVal_slice _ _ Hty). destruct Hty as [Ht|Ht].
  - rewrite Ht. cbn [kindOf andb]. rewrite bool_decide_eq_false_2 by discriminate.
    cbn [mbind result_bind]. intros Hset.
    apply setResolved_failed in Hset. destruct Hset as [_ K].
    destruct Hseq as [xs Hk Hl|Hk _|p xs Hk _ _ _];
      try (rewrite Ht in Hk; discriminate).
    split; [|intros i Hi _; apply K, Hi].
    apply holdsSeq_slice; [exact Hk|].
    rewrite <- Hl. apply load_ext, K. eapply load_lt, Hl.
  - assert (Hkp : kindOf (vtype vVar) = reflect.Ptr) by (rewrite Ht; reflexivity).
    rewrite Ht. cbn [kindOf andb]. rewrite bool_decide_eq_true_2 by reflexivity.
    cbn [Elem underlying must mbind result_bind]. unfold loadPtr.
    destruct Hseq as [xs Hk _|_ Hl|p xs _ Hl Hne Hp];
      [rewrite Ht in Hk; discriminate| |]; rewrite Hl;
      cbn [must mbind result_bind alloc].
    + pose proof (load_lt _ _ _ Hl) as Hlt.
      unfold SetV. rewrite Hcan.
      destruct (store_is_Some (h ++ [CVal (zero (TSlice e))]) (vplace vVar)
                  (VPtr (Some (length h, [])))) as [h1 Hh1].
      { rewrite (load_app _ _ _ _ Hl). eauto. }
      rewrite Hh1. cbn [must mbind result_bind]. intros Hset.
      apply setResolved_failed in Hset. destruct Hset as [_ K].
      pose proof (store_length _ _ _ _ Hh1) as Hlen.
      rewrite length_app in Hlen. cbn [length] in Hlen.
      split.
      * apply holdsSeq_ptr with (p := (length h, [])); auto.
        -- rewrite (load_ext h1) by (apply K; lia).
           eapply load_store, Hh1.
        -- cbn [fst]. lia.
        -- rewrite (load_ext h1) by (apply K; cbn [fst]; lia).
           rewrite (load_ext (h ++ [CVal (zero (TSlice e))]))
             by (eapply store_lookup_ne; [exact Hh1|cbn; lia]).
           apply load_last.
      * intros i Hi Hne. rewrite K by lia.
        rewrite (store_lookup_ne _ _ _ _ _ Hh1) by exact Hne.
        apply lookup_app_l, Hi.
    + intros Hset. apply setResolved_failed in Hset. destruct Hset as [_ K].
      split; [|intros i Hi _; apply K, Hi].
      apply holdsSeq_ptr with (p := p); auto.
      * rewrite <- Hl. apply load_ext, K. eapply load_lt, Hl.
      * rewrite <- Hp. apply load_ext, K. eapply load_lt, Hp.
Qed.

(** ** New subsections without a template *)

Lemma underlying_ptr (t e : rtype) :
  kindOf t = reflect.Ptr -> Elem t = Some e -> underlying t = TPtr e.
Proof.
  unfold Elem. induction t; cbn [kindOf underlying]; try discriminate.
  - exact IHt.
  - intros _ [= ->]. reflexivity.
Qed.

Lemma assignable_ptr (t e : rtype) :
  kindOf t = reflect.Ptr -> Elem t = Some e -> assignable t (TPtr e) = true.
Proof.
  intros Hk He. unfold assignable. rewrite (underlying_ptr _ _ Hk He).
  cbn [TypeName underlying].
  rewrite (bool_decide_eq_true_2 ("" = "")) by reflexivity.
  rewrite (bool_decide_eq_true_2 (TPtr e = TPtr e)) by reflexivity.
  cbn [negb]. rewrite andb_false_r. cbn [negb andb]. apply orb_true_r.
Qed.

(** X24.  The first tuple for a subsection of a section that has no
    [default-<section>] field: the subsection is a new struct holding zero
    values, the section's map binds the subsection name to it, and the
    variable is then applied to it; with the empty variable name the call
    only creates the subsection.  Afterwards the subsection is the one that
    further tuples reach. *)
Theorem new_subsection_without_default (cfg : rtype * value)
    (vCfg vSect : Value) (t0 t1 : tag) (et vType : rtype)
    (sect sub : string) (h : heap) (a : addr) (m : gmap string value) :
  cfgStruct cfg = Some vCfg ->
  fieldFold vCfg sect = Ok (Some vSect, t0) ->
  kindOf (vtype vSect) = reflect.Map ->
  Key (vtype vSect) = Some TString ->
  Elem (vtype vSect) = Some et ->
  kindOf et = reflect.Ptr ->
  Elem et = Some vType ->
  kindOf vType = reflect.Struct ->
  load h (vplace vSect) = Some (VMap (Some a)) ->
  h !! a = Some (CMap m) ->
  m !! sub = None ->
  fieldFold vCfg (String.append "default-" sect) = Ok (None, t1) ->
  let h2 := <[a := CMap (<[sub := VPtr (Some (length h, []))]> m)]>
              (h ++ [CVal (zero vType)]) in
  (forall c name blank val,
     set c cfg sect sub name blank val true h =
       setVariable c (Some (mkValue vType (length h, []) true))
         (mkLoc sect (Some sub) None) name blank val h2)
  /\ (forall c blank val,
        set c cfg sect sub "" blank val true h = Ok (h2, c, None))
  /\ load h2 (length h, []) = Some (zero vType)
  /\ reaches h2 cfg sect sub true (mkValue vType (length h, []) true)
       (mkLoc sect (Some sub) None).
Proof.
  intros Hcfg Hfold Hk HK HE Hket HEe Hkv Hload Hcell Hsub Hdflt h2.
  pose proof (fieldFold_CanSet _ _ _ _ Hfold) as Hcan.
  pose proof (lookup_lt_Some _ _ _ Hcell) as Ha.
  pose proof (load_lt _ _ _ Hload) as Hv.
  assert (Hva : (vplace vSect).1 <> a).
  { destruct (load_CVal _ _ _ Hload) as [w Hw]. congruence. }
  assert (Hset : forall c name blank val,
     set c cfg sect sub name blank val true h =
       setVariable c (Some (mkValue vType (length h, []) true))
         (mkLoc sect (Some sub) None) name blank val h2).
  { intros c name blank val.
    rewrite (set_subsection cfg vCfg vSect t0 et vType sect sub a
               Hcfg Hfold Hk HK HE Hket HEe Hkv c name blank val h m
               Hload Hcell).
    rewrite Hsub. unfold newValue. cbn [alloc]. rewrite Hdflt.
    cbn [mbind result_bind]. unfold SetMapIndex, mapCell.
    rewrite Hcan, HK, HE, assignable_refl, (assignable_ptr _ _ Hket HEe).
    cbn [negb andb]. rewrite lookup_app_l by exact Ha. rewrite Hcell.
    reflexivity. }
  split; [exact Hset|]. split; [intros; rewrite Hset; reflexivity|].
  assert (Hnew : load h2 (length h, []) = Some (zero vType)).
  { unfold h2. rewrite (load_ext (h ++ [CVal (zero vType)]))
      by (apply list_lookup_insert_ne; cbn [fst]; lia).
    apply load_last. }
  split; [exact Hnew|].
  eapply reaches_subsection with (a := a); eauto.
  - unfold h2. rewrite (load_ext (h ++ [CVal (zero vType)]))
      by (apply list_lookup_insert_ne; congruence).
    apply load_app, Hload.
  - unfold h2. apply list_lookup_insert_eq. rewrite length_app. lia.
  - apply lookup_insert_eq.
Qed.

End AggregateProperties.

Section EdgeProperties.
Context {L : Lib}.

(** ** Defined boolean types *)

(** X25.  A field of a defined boolean type without [UnmarshalText]:
    [boolSetter] hands [reflect.Value.Set] a value of type [bool], which is
    not assignable to a defined type, so a blank assignment and an
    assignment of a text that the boolean parser accepts make [set] panic;
    a text the parser rejects is reported as a located error, as for
    [bool]. *)
Theorem defined_bool_panics (c : Collector) (cfg : rtype * value)
    (sect sub name : string) (blank : bool) (val : string) (pass : bool)
    (h : heap) (vSect vVar : Value) (l : loc) (t : tag) :
  reaches h cfg sect sub pass vSect l ->
  name <> "" ->
  fieldFold vSect name = Ok (Some vVar, t) ->
  kindOf (vtype vVar) = reflect.Bool ->
  TypeName (vtype vVar) <> "" ->
  vtype vVar <> TBool ->
  methodUnmarshalText (vtype vVar) = None ->
  (blank = true \/ (exists b, ParseBool val = inl b) ->
   set c cfg sect sub name blank val pass h =
     Panic (PanicReflect "reflect.Set: value is not assignable to type"))
  /\ (forall msg, blank = false -> ParseBool val = inr msg ->
        set c cfg sect sub name blank val pass h =
          Ok (h, c, Some (locErr msg (mkLoc (section l) (subsection l)
                                            (Some name))))).
Proof.
  intros Hr Hn Hf Hk Hnm Hnb Hm.
  assert (Hw : wholeValued (vtype vVar)) by (left; exact Hnm).
  assert (Hbig : vtype vVar <> TBigInt).
  { intros E. rewrite E in Hk. discriminate. }
  assert (Hset : set c cfg sect sub name blank val pass h =
            '(h', e) ← ('(h0, err) ← boolSetter
                                       (mkValue (vtype vVar) (vplace vVar) true)
                                       blank val t h;
                        match err with
                        | None => Ok (h0, None)
                        | Some e =>
                            if bool_decide (e = errUnsupportedType)
                            then trySetters [scanSetter] (Some e)
                                   (mkValue (vtype vVar) (vplace vVar) true)
                                   blank val t
                                   (mkLoc (section l) (subsection l)
                                      (Some name)) h0
                            else Ok (h0, Some (locErr (Error e)
                                   (mkLoc (section l) (subsection l)
                                      (Some name))))
                        end);
            Ok (h', c, e)).
  { rewrite (set_plain _ _ _ _ _ _ _ _ _ _ _ _ _ Hr Hn Hf Hw).
    rewrite trySetters_kind by assumption.
    cbn [trySetters]. unfold kindSetter, lookupBy, kindSetters.
    cbn [vtype]. rewrite Hk. reflexivity. }
  assert (Hna : assignable (vtype vVar) TBool = false).
  { unfold assignable. rewrite (bool_decide_eq_false_2 _ Hnb).
    rewrite (bool_decide_eq_false_2 _ Hnm). reflexivity. }
  rewrite Hset. unfold boolSetter, SetValueOf. cbn [vtype]. rewrite Hna.
  split.
  - intros [->|[b Hb]]; [reflexivity|].
    destruct blank; [reflexivity|]. rewrite Hb. reflexivity.
  - intros msg -> Hmsg. rewrite Hmsg. reflexivity.
Qed.

(** ** A subsection bound to a nil pointer *)

(** X26.  When the section's map binds the subsection name to a nil
    pointer, [set] takes the entry as it is: it creates nothing, and any
    variable but the empty one makes it panic inside package reflect, for
    there is no struct to look the variable up in. *)
Theorem nil_subsection_entry (cfg : rtype * value)
    (vCfg vSect : Value) (t0 : tag) (et vType : rtype)
    (sect sub : string) (h : heap) (a : addr) (m : gmap string value) :
  cfgStruct cfg = Some vCfg ->
  fieldFold vCfg sect = Ok (Some vSect, t0) ->
  kindOf (vtype vSect) = reflect.Map ->
  Key (vtype vSect) = Some TString ->
  Elem (vtype vSect) = Some et ->
  kindOf et = reflect.Ptr ->
  Elem et = Some vType ->
  kindOf vType = reflect.Struct ->
  load h (vplace vSect) = Some (VMap (Some a)) ->
  h !! a = Some (CMap m) ->
  m !! sub = Some (VPtr None) ->
  (forall c blank val,
     set c cfg sect sub "" blank val true h = Ok (h, c, None))
  /\ (forall c name blank val,
        name <> "" ->
        set c cfg sect sub name blank val true h =
          Panic (PanicReflect "call of reflect.Value.Type on zero Value")).
Proof.
  intros Hcfg Hfold Hk HK HE Hket HEe Hkv Hload Hcell Hsub.
  assert (Hset : forall c name blank val,
     set c cfg sect sub name blank val true h =
       setVariable c None (mkLoc sect (Some sub) None) name blank val h).
  { intros c name blank val.
    rewrite (set_subsection cfg vCfg vSect t0 et vType sect sub a
               Hcfg Hfold Hk HK HE Hket HEe Hkv c name blank val h m
               Hload Hcell).
    rewrite Hsub. reflexivity. }
  split.
  - intros c blank val. rewrite Hset. reflexivity.
  - intros c name blank val Hn. rewrite Hset. unfold setVariable.
    destruct (String.eqb_spec name ""); [contradiction|reflexivity].
Qed.

End EdgeProperties.

Section ErrorProperties.
Context {L : Lib}.

(** ** The schema object itself *)

(** X27.  [set] panics ("config must be a pointer to a struct") when the
    schema object is not of pointer kind, when it is a nil pointer, or
    when what it points to is not of struct kind; this is checked first,
    whatever the tuple and the pass. *)
Theorem config_shape (c : Collector) (cfg : rtype * value)
    (sect sub name : string) (blank : bool) (val : string) (pass : bool)
    (h : heap) :
  kindOf cfg.1 <> reflect.Ptr
  \/ cfg.2 = VPtr None
  \/ (exists e, Elem cfg.1 = Some e /\ kindOf e <> reflect.Struct) ->
  set c cfg sect sub name blank val pass h = Panic PanicConfig.
Proof.
  intros Hbad. unfold set.
  replace (cfgStruct cfg) with (@None Value); [reflexivity|].
  symmetry. unfold cfgStruct. destruct Hbad as [Hk|[Hn|(e & He & Hs)]].
  - rewrite (bool_decide_eq_false_2 _ Hk). reflexivity.
  - rewrite Hn. destruct (bool_decide _); reflexivity.
  - rewrite He, (bool_decide_eq_false_2 _ Hs).
    destruct (bool_decide _); [|reflexivity].
    destruct cfg.2 as [| | | |[p|]| | | |]; reflexivity.
Qed.

(** ** A template that cannot be encoded *)

(** X28.  When a subsection is to be created and gob cannot encode the
    [default-<section>] field, the error goes to the collector; if the
    collector hands it back, [set] returns it at once: the new struct has
    been allocated, holding zero values, but the section's map is as it
    was, so the subsection has not been created and the variable has not
    been applied. *)
Theorem default_not_encodable (c c1 : Collector) (cfg : rtype * value)
    (vCfg vSect dflt : Value) (t0 t1 : tag) (et vType : rtype)
    (sect sub : string) (h : heap) (a : addr) (m : gmap string value)
    (dv : value) (b : Buffer) (msg : string) (e : diagnostic)
    (name : string) (blank : bool) (val : string) :
  cfgStruct cfg = Some vCfg ->
  fieldFold vCfg sect = Ok (Some vSect, t0) ->
  kindOf (vtype vSect) = reflect.Map ->
  Key (vtype vSect) = Some TString ->
  Elem (vtype vSect) = Some et ->
  kindOf et = reflect.Ptr ->
  Elem et = Some vType ->
  kindOf vType = reflect.Struct ->
  load h (vplace vSect) = Some (VMap (Some a)) ->
  h !! a = Some (CMap m) ->
  m !! sub = None ->
  fieldFold vCfg (String.append "default-" sect) = Ok (Some dflt, t1) ->
  load h (vplace dflt) = Some dv ->
  EncodeValue (h ++ [CVal (zero vType)]) (vtype dflt) dv = Ok (b, Some msg) ->
  Collect c (otherErr msg) = (c1, Some e) ->
  set c cfg sect sub name blank val true h =
    Ok (h ++ [CVal (zero vType)], c1, Some e)
  /\ (h ++ [CVal (zero vType)]) !! a = Some (CMap m).
Proof.
  intros Hcfg Hfold Hk HK HE Hket HEe Hkv Hload Hcell Hsub Hdflt Hdv Henc Hcol.
  split.
  - rewrite (set_subsection cfg vCfg vSect t0 et vType sect sub a
               Hcfg Hfold Hk HK HE Hket HEe Hkv c name blank val h m
               Hload Hcell).
    rewrite Hsub. unfold newValue. cbn [alloc]. rewrite Hdflt.
    cbn [mbind result_bind]. rewrite (load_app _ _ _ _ Hdv).
    cbn [must mbind result_bind]. rewrite Henc. cbn [mbind result_bind].
    cbn [option_map collect]. rewrite Hcol. reflexivity.
  - rewrite lookup_app_l by (eapply lookup_lt_Some, Hcell). exact Hcell.
Qed.

End ErrorProperties.

(** * The further properties on the sample schemas *)

Lemma newTag_ident_witness :
  newTag "depth" = mkTag "depth" ""
  /\ t_ident (newTag (String.append "depth" (String "," "int=h"))) = "depth".
Proof. apply (newTag_ident "depth" "int=h"). reflexivity. Defined.

Lemma newTag_directive_witness :
  newTag (String.append "depth,int=d" (String "," "int=ho")) =
    if HasPrefix "int=ho" "int="
    then mkTag (t_ident (newTag "depth,int=d")) (sliceFrom 4 "int=ho")
    else newTag "depth,int=d".
Proof. apply (newTag_directive "depth,int=d" "int=ho"). reflexivity. Defined.

Lemma int_directive_bases_witness :
  (ContainsAny (t_intMode (mkTag "depth" "o")) "dDhHoO" = true ->
   trySetters setters None vDepth false "17" (mkTag "depth" "o")
     (mkLoc "core" None (Some "depth")) heap0 =
     '(h', e) ← callExt vDepth
         (fun cur =>
            ParseInt (vtype vDepth) cur "17"
              (intMode (t_intMode (mkTag "depth" "o")))) heap0;
     Ok (h', option_map
               (fun e => locErr (Error e) (mkLoc "core" None (Some "depth")))
               e))
  /\ (ContainsAny (t_intMode (mkTag "depth" "o")) "dDhHoO" = false ->
      trySetters setters None vDepth false "17" (mkTag "depth" "o")
        (mkLoc "core" None (Some "depth")) heap0 =
        '(h', e) ← callExt vDepth
            (fun cur =>
               ParseInt (vtype vDepth) cur "17" (intModeDefault (vtype vDepth)))
            heap0;
        Ok (h', option_map
                  (fun e => locErr (Error e) (mkLoc "core" None (Some "depth")))
                  e)).
Proof.
  apply (int_directive_bases vDepth "17" (mkTag "depth" "o")).
  right. split; reflexivity.
Defined.

Lemma scan_fallback_witness :
  trySetters setters None vHost false "example" (mkTag "" "")
    (mkLoc "server" None (Some "host")) heapP =
    '(h', e) ← callExt vHost
        (fun cur => ScanFully (vtype vHost) cur "example" "v"%char) heapP;
    Ok (h', option_map
              (fun e => locErr (Error e) (mkLoc "server" None (Some "host"))) e).
Proof.
  apply (scan_fallback vHost "example" (mkTag "" "")).
  - discriminate.
  - reflexivity.
  - right. split; [reflexivity|discriminate].
Defined.

Lemma unmarshaler_precedence_witness :
  trySetters setters None vSeen false "set" (mkTag "" "")
    (mkLoc "core" None (Some "seen")) heap0 =
    '(h', e) ← callExt vSeen
        (fun cur =>
           (fun (cur : value) (s : string) =>
              if String.eqb s "set" then ExtRet (VBool true) None
              else ExtRet cur (Some "bad flag")) cur "set") heap0;
    Ok (h', option_map
              (fun e => locErr (Error e) (mkLoc "core" None (Some "seen"))) e).
Proof.
  apply (unmarshaler_precedence vSeen "set" (mkTag "" "")).
  - discriminate.
  - reflexivity.
Defined.

Lemma defined_type_whole_witness :
  isMultiVal vHost = false
  /\ set noWarnings cfgP "server" "" "host" false "example" false heapP =
       '(h', e) ← trySetters setters None
                    (mkValue (TNamed "Name" TString) (vplace vHost) true)
                    false "example" (mkTag "" "")
                    (mkLoc "server" None (Some "host")) heapP;
       Ok (h', noWarnings, e).
Proof.
  apply (defined_type_whole noWarnings cfgP "server" "" "host" false "example"
           false heapP vServer vHost (mkLoc "server" None None) (mkTag "" "")
           "Name" TString).
  - eapply reaches_section; reflexivity.
  - discriminate.
  - reflexivity.
  - reflexivity.
  - discriminate.
Defined.

Lemma blank_unsupported_witness :
  set noWarnings cfg0 "core" "" "depth" true "" false heap0 =
    Ok (heap0, noWarnings,
        Some (locErr "blank value not supported for type"
                (mkLoc "core" None (Some "depth")))).
Proof.
  apply (blank_unsupported noWarnings cfg0 "core" "" "depth" "" false heap0
           vCore vDepth (mkLoc "core" None None) (mkTag "" "")).
  - eapply reaches_section; reflexivity.
  - discriminate.
  - reflexivity.
  - right. split; discriminate.
  - left. discriminate.
Defined.

Lemma string_field_witness :
  exists h',
    set noWarnings cfg0 "core" "" "editor" false "vim" false heap0
      = Ok (h', noWarnings, None)
    /\ store heap0 (vplace vEditor) (VString "vim") = Some h'
    /\ load h' (vplace vEditor) = Some (VString "vim").
Proof.
  apply (string_field noWarnings cfg0 "core" "" "editor" "vim" false heap0
           vCore vEditor (mkLoc "core" None None) (mkTag "" "") (VString "")).
  - eapply reaches_section; reflexivity.
  - discriminate.
  - reflexivity.
  - reflexivity.
  - reflexivity.
Defined.

Lemma wrong_pass_is_noop_witness :
  set noWarnings cfg0 "core" "" "editor" false "vim" true heap0 =
    Ok (heap0, noWarnings, None).
Proof.
  apply (wrong_pass_is_noop noWarnings cfg0 (mkValue Config (0, []) true) vCore
           (mkTag "" "")).
  - reflexivity.
  - reflexivity.
  - discriminate.
Defined.

Lemma section_field_kind_witness :
  set noWarnings cfgP "count" "" "x" false "1" false heapP =
    Panic (PanicSectField "count").
Proof.
  apply (section_field_kind noWarnings cfgP vPlain vCount (mkTag "" "")).
  - reflexivity.
  - reflexivity.
  - discriminate.
  - discriminate.
Defined.

Lemma map_section_shape_witness :
  set noWarnings cfgP "weights" "a" "x" false "1" true heapP =
    Panic (PanicMapField "weights").
Proof.
  apply (map_section_shape noWarnings cfgP vPlain vWeights (mkTag "" "")
           TString TInt).
  - reflexivity.
  - reflexivity.
  - reflexivity.
  - reflexivity.
  - reflexivity.
  - right. split; [discriminate|left; discriminate].
Defined.

Lemma struct_section_with_subsection_witness :
  set noWarnings cfg0 "core" "x" "editor" false "vim" false heap0 =
    Ok (heap0, (Collect noWarnings (extraData (mkLoc "core" None None))).1,
               (Collect noWarnings (extraData (mkLoc "core" None None))).2).
Proof.
  apply (struct_section_with_subsection noWarnings cfg0
           (mkValue Config (0, []) true) vCore (mkTag "" "")).
  - reflexivity.
  - reflexivity.
  - reflexivity.
  - discriminate.
Defined.

Lemma unknown_variable_witness :
  set noWarnings cfg0 "core" "" "bogus" false "v" false heap0 =
    Ok (heap0,
        (Collect noWarnings
           (extraData (mkLoc "core" None (Some "bogus")))).1,
        (Collect noWarnings
           (extraData (mkLoc "core" None (Some "bogus")))).2).
Proof.
  apply (unknown_variable noWarnings cfg0 "core" "" "bogus" false "v" false
           heap0 vCore (mkLoc "core" None None) (mkTag "" "")).
  - eapply reaches_section; reflexivity.
  - discriminate.
  - reflexivity.
  - reflexivity.
Defined.

Lemma findExtraDataField_last_witness :
  findExtraDataField (mkValue Remote (2, []) true) =
    Ok (Some (Field (mkValue Remote (2, []) true)
                (length [ mkField "Url" TString "" true;
                          mkField "Fetch" (TSlice TString) "" true ])
                (mkField "Extra" (TMap TString TString) "extra_values" true))).
Proof.
  apply (proj2 (findExtraDataField_last (mkValue Remote (2, []) true) _ eq_refl)
           [ mkField "Url" TString "" true;
             mkField "Fetch" (TSlice TString) "" true ]
           (mkField "Extra" (TMap TString TString) "extra_values" true) []).
  - reflexivity.
  - reflexivity.
  - constructor.
Defined.

Lemma fieldFold_sound_witness :
  exists fs i f,
    fieldsOf (vtype vCore) = Some fs /\ fs !! i = Some f
    /\ vEditor = Field vCore i f /\ mkTag "" "" = newTag (FTag f)
    /\ CanSet vCore = true /\ FExported f = true
    /\ (if String.eqb (t_ident (mkTag "" "")) ""
        then EqualFold (foldName "editor") (FName f)
        else EqualFold (t_ident (mkTag "" "")) "editor") = true
    /\ forall g, In g fs -> foldMatch vCore fs "editor" (FName g) = true ->
                 g = f.
Proof.
  apply (fieldFold_sound vCore vEditor "editor" (mkTag "" "")). reflexivity.
Defined.

Lemma value_errors_not_collected_witness :
  noWarnings = noWarnings
  /\ (Some (locErr "failed to parse int" (mkLoc "core" None (Some "depth")))
        = None
      \/ exists msg,
           Some (locErr "failed to parse int"
                   (mkLoc "core" None (Some "depth")))
             = Some (locErr msg (mkLoc "core" None (Some "depth")))).
Proof.
  apply (value_errors_not_collected noWarnings noWarnings cfg0 "core" ""
           "depth" false "abc" false heap0 heap0 vCore vDepth
           (mkLoc "core" None None) (mkTag "" "")).
  - eapply reaches_section; reflexivity.
  - discriminate.
  - reflexivity.
  - reflexivity.
Defined.

Lemma empty_name_witness :
  set noWarnings cfg0 "core" "" "" false "" false heap0 =
    Ok (heap0, noWarnings, None).
Proof.
  apply (empty_name noWarnings cfg0 "core" "" false "" false heap0 vCore
           (mkLoc "core" None None)).
  eapply reaches_section; reflexivity.
Defined.

Lemma extras_string_map_witness :
  exists h' a,
    set noWarnings cfg0 "remote" "a" "color" false "red" true heapA
      = Ok (h', noWarnings, None)
    /\ (None = Some a \/ (@None addr = None /\ a = length heapA))
    /\ mapContents h' (mkValue (TMap TString TString) (2, [2]) true) =
         Some (Some a, <["color" := VString "red"]> ∅)
    /\ (forall i, i < length heapA ->
                  i <> (vplace (mkValue (TMap TString TString) (2, [2]) true)).1 ->
                  i <> a -> h' !! i = heapA !! i).
Proof.
  apply (extras_string_map noWarnings cfg0 "remote" "a" "color" false "red"
           true heapA (mkValue Remote (2, []) true)
           (mkValue (TMap TString TString) (2, [2]) true)
           (mkLoc "remote" (Some "a") None) (mkTag "" "") None ∅).
  - eapply (reaches_subsection heapA cfg0 "remote" "a"
              (mkValue Config (0, []) true) (mkTag "" "") vRemote (TPtr Remote)
              Remote 1 {[ "a" := VPtr (Some (2, [])) ]} (2, []));
      reflexivity.
  - discriminate.
  - reflexivity.
  - reflexivity.
  - reflexivity.
  - reflexivity.
  - reflexivity.
Defined.

Lemma extras_slice_map_witness :
  exists h' a,
    set noWarnings cfgP "server" "" "alias" false "www" false heapP
      = Ok (h', noWarnings, None)
    /\ (None = Some a \/ (@None addr = None /\ a = length heapP))
    /\ mapContents h' vRest =
         Some (Some a, <["alias" := VSlice ([] ++ [VString "www"])]> ∅)
    /\ (forall i, i < length heapP -> i <> (vplace vRest).1 -> i <> a ->
                  h' !! i = heapP !! i).
Proof.
  apply (extras_slice_map noWarnings cfgP "server" "" "alias" false "www"
           false heapP vServer vRest (mkLoc "server" None None) (mkTag "" "")
           None ∅ []).
  - eapply reaches_section; reflexivity.
  - discriminate.
  - reflexivity.
  - reflexivity.
  - reflexivity.
  - reflexivity.
  - reflexivity.
  - left. split; reflexivity.
Defined.

Lemma unexported_catch_all_witness :
  exists what,
    set noWarnings cfgP "hidden" "" "bogus" false "v" false heapP =
      Panic (PanicReflect what).
Proof.
  apply (unexported_catch_all noWarnings cfgP "hidden" "" "bogus" false "v"
           false heapP vHidden
           (mkValue (TMap TString TString) (0, [4; 1]) false)
           (mkLoc "hidden" None None) (mkTag "" "") None ∅).
  - eapply reaches_section; reflexivity.
  - discriminate.
  - reflexivity.
  - reflexivity.
  - left. reflexivity.
  - reflexivity.
  - reflexivity.
Defined.

Lemma pointer_field_written_through_witness :
  set noWarnings cfg0 "core" "" "limit" false "9" false heapL =
    ('(h1, r) ← trySetters setters None (mkValue TInt (1, []) true) false "9"
                  (mkTag "" "") (mkLoc "core" None (Some "limit")) heapL;
     Ok (h1, noWarnings, r))
  /\ forall h1 c1 r,
       set noWarnings cfg0 "core" "" "limit" false "9" false heapL
         = Ok (h1, c1, r) ->
       writesCell 1 heapL h1
       /\ (1 <> (vplace vLimit).1 ->
           load h1 (vplace vLimit) = Some (VPtr (Some (1, [])))).
Proof.
  apply (pointer_field_written_through noWarnings cfg0 "core" "" "limit" false
           "9" false heapL vCore vLimit (mkLoc "core" None None) (mkTag "" "")
           TInt (1, [])).
  - eapply reaches_section; reflexivity.
  - discriminate.
  - reflexivity.
  - reflexivity.
  - reflexivity.
  - reflexivity.
Defined.

Lemma failed_element_not_appended_witness :
  holdsSeq (heapP ++ [CVal (VInt 0)]) vPorts []
  /\ (forall i, i < length heapP -> i <> (vplace vPorts).1 ->
                (heapP ++ [CVal (VInt 0)]) !! i = heapP !! i).
Proof.
  apply (failed_element_not_appended noWarnings noWarnings cfgP "server" ""
           "ports" "abc" false heapP (heapP ++ [CVal (VInt 0)]) vServer vPorts
           (mkLoc "server" None None) (mkTag "" "") TInt []
           (locErr "failed to parse int" (mkLoc "server" None (Some "ports")))).
  - eapply reaches_section; reflexivity.
  - discriminate.
  - reflexivity.
  - left. reflexivity.
  - apply holdsSeq_slice; reflexivity.
  - vm_compute. reflexivity.
Defined.

Lemma new_subsection_without_default_witness :
  (forall c name blank val,
     set c cfgP "branch" "dev" name blank val true heapP =
       setVariable c (Some (mkValue Server (length heapP, []) true))
         (mkLoc "branch" (Some "dev") None) name blank val
         (<[1 := CMap (<["dev" := VPtr (Some (length heapP, []))]> ∅)]>
            (heapP ++ [CVal (zero Server)])))
  /\ (forall c blank val,
        set c cfgP "branch" "dev" "" blank val true heapP =
          Ok (<[1 := CMap (<["dev" := VPtr (Some (length heapP, []))]> ∅)]>
                (heapP ++ [CVal (zero Server)]), c, None))
  /\ load (<[1 := CMap (<["dev" := VPtr (Some (length heapP, []))]> ∅)]>
             (heapP ++ [CVal (zero Server)])) (length heapP, [])
       = Some (zero Server)
  /\ reaches (<[1 := CMap (<["dev" := VPtr (Some (length heapP, []))]> ∅)]>
                (heapP ++ [CVal (zero Server)])) cfgP "branch" "dev" true
       (mkValue Server (length heapP, []) true)
       (mkLoc "branch" (Some "dev") None).
Proof.
  apply (new_subsection_without_default cfgP vPlain vBranch (mkTag "" "")
           (mkTag "" "") (TPtr Server) Server "branch" "dev" heapP 1 ∅);
    reflexivity.
Defined.

Lemma defined_bool_panics_witness :
  (true = true \/ (exists b, ParseBool "" = inl b) ->
   set noWarnings cfgP "server" "" "debug" true "" false heapP =
     Panic (PanicReflect "reflect.Set: value is not assignable to type"))
  /\ (forall msg, true = false -> ParseBool "" = inr msg ->
        set noWarnings cfgP "server" "" "debug" true "" false heapP =
          Ok (heapP, noWarnings,
              Some (locErr msg (mkLoc "server" None (Some "debug"))))).
Proof.
  apply (defined_bool_panics noWarnings cfgP "server" "" "debug" true "" false
           heapP vServer vDebug (mkLoc "server" None None) (mkTag "" "")).
  - eapply reaches_section; reflexivity.
  - discriminate.
  - reflexivity.
  - reflexivity.
  - discriminate.
  - discriminate.
  - reflexivity.
Defined.

Lemma nil_subsection_entry_witness :
  (forall c blank val,
     set c cfgP "branch" "x" "" blank val true heapN = Ok (heapN, c, None))
  /\ (forall c name blank val,
        name <> "" ->
        set c cfgP "branch" "x" name blank val true heapN =
          Panic (PanicReflect "call of reflect.Value.Type on zero Value")).
Proof.
  apply (nil_subsection_entry cfgP vPlain vBranch (mkTag "" "") (TPtr Server)
           Server "branch" "x" heapN 1 {[ "x" := VPtr None ]});
    reflexivity.
Defined.

Lemma config_shape_witness :
  set noWarnings (Config, zero Config) "core" "" "editor" false "vim" false
    heap0 = Panic PanicConfig.
Proof.
  apply (config_shape noWarnings (Config, zero Config)).
  left. discriminate.
Defined.

Lemma default_not_encodable_witness :
  set noWarnings cfg0 "remote" "b" "url" false "u" true heapD =
    Ok (heapD ++ [CVal (zero Remote)], noWarnings,
        Some (otherErr "gob: references are not carried"))
  /\ (heapD ++ [CVal (zero Remote)]) !! 2 = Some (CMap ∅).
Proof.
  apply (default_not_encodable noWarnings noWarnings cfg0
           (mkValue Config (0, []) true) vRemote
           (mkValue Remote (0, [1]) true) (mkTag "" "") (mkTag "" "")
           (TPtr Remote) Remote "remote" "b" heapD 2 ∅
           (VStruct [VString ""; VSlice []; VMap (Some 1)]) None
           "gob: references are not carried"
           (otherErr "gob: references are not carried") "url" false "u");
    reflexivity.
Defined.

(** Runs on the second schema: a port that parses is appended, one that
    does not is not. *)
Example ports_run :
  set noWarnings cfgP "server" "" "ports" false "80" false heapP =
    Ok (<[0 := CVal (VStruct
                       [ VStruct [VString ""; VSlice [VInt 80]; VBool false;
                                  VMap None];
                         VMap (Some 1); VInt 0; VMap None;
                         VStruct [VString ""; VMap None] ])]>
          (heapP ++ [CVal (VInt 80)]), noWarnings, None)
  /\ set noWarnings cfgP "server" "" "ports" false "abc" false heapP =
       Ok (heapP ++ [CVal (VInt 0)], noWarnings,
           Some (locErr "failed to parse int"
                   (mkLoc "server" None (Some "ports")))).
Proof. split; vm_compute; reflexivity. Qed.
